(** * LRU cache with size-ordered eviction: model and verification

    Shallow embedding of [lru.h] (classes [LRUCacheElement] and [LRUCache])
    and of [lru_size_order.h] (class [LRUCacheSizeOrder]).

    Representation choices, following the C++ data layout:
    - [int64_t] values are integers of [Z]; every arithmetic result is
      brought back into range with [wrap_i64] (two's complement), and the
      [size_t] parameter of [LRUCacheSizeOrder::updateElement] with
      [wrap_u64];
    - the cache elements are heap objects shared between the recency list,
      the key map and (through list iterators) the size-ordered map.  The
      key map [std::map<PK, shared_ptr<LRUCacheElement>>] is the store of
      these objects, a [gmap] from primary key to element record; the
      recency list holds the primary keys of the elements it points to,
      oldest first; an entry of the size-ordered map designates the element
      whose primary key it carries.  A key without an element in the store
      does not occur in a cache built by the operations (see [wf]); the
      loops pass over it;
    - the object behind a weak pointer is an [ObjId]; whether [lock()]
      succeeds is decided by the owners, so every operation that locks a
      weak pointer takes an oracle [live : ObjId -> bool];
    - [std::time(nullptr)] is the argument [now];
    - [size_t] and [time_t] are 64 bits wide, as on the POSIX platforms the
      test program is written for; an overflow of signed arithmetic wraps
      around. *)

From Stdlib Require Import ZArith List Bool Lia Sorting.Sorted Strings.Byte.
From stdpp Require Import gmap list sorting.
Import ListNotations.

Open Scope Z_scope.

(** ** Machine integers *)

Definition wrap_i64 (z : Z) : Z := (z + 2 ^ 63) mod 2 ^ 64 - 2 ^ 63.
Definition wrap_u64 (z : Z) : Z := z mod 2 ^ 64.

Definition in_i64 (z : Z) : Prop := - 2 ^ 63 <= z < 2 ^ 63.

(** ** Cache elements *)

Definition ObjId := nat.

(** [LRUCacheElement<T,PK>]; the list iterator [mElementInListItr] is the
    position of [mPrimaryKey] in the recency list.  The last field is the
    marker of the size-ordered cleanup, see [getMarkSizeWiseCleanup]. *)
Record LRUCacheElement := mkElement {
  mLastAccessTime : Z;
  mSize : Z;
  mWeakPointerElement : ObjId;
  mPrimaryKey : Z;
  mMarkSizeWiseCleanup : bool
}.

(** [std::make_shared<LRUCacheElement<T,PK>>(element, key)] *)
Definition newElement (element : ObjId) (key : Z) : LRUCacheElement :=
  mkElement 0 0 element key false.

Definition setSize (size : Z) (e : LRUCacheElement) : LRUCacheElement :=
  mkElement (mLastAccessTime e) size (mWeakPointerElement e) (mPrimaryKey e)
            (mMarkSizeWiseCleanup e).

Definition updateAccessTime (now : Z) (e : LRUCacheElement) : LRUCacheElement :=
  mkElement now (mSize e) (mWeakPointerElement e) (mPrimaryKey e)
            (mMarkSizeWiseCleanup e).

(** Modelled from the spec: the accessor [getAccessTime] of [last_access];
    [lru_size_order.h] calls it and its declaration is not in the sources. *)
Definition getAccessTime (e : LRUCacheElement) : Z := mLastAccessTime e.

(** Modelled from the spec: the accessor [getMarkSizeWiseCleanup] of the flag
    [pending_size_eviction], false for a new element; [lru_size_order.h]
    calls it and its declaration is not in the sources. *)
Definition getMarkSizeWiseCleanup (e : LRUCacheElement) : bool :=
  mMarkSizeWiseCleanup e.

(** Modelled from the spec: the setter [setMarkSizeWiseCleanup] of the flag
    [pending_size_eviction]; [lru_size_order.h] calls it and its declaration
    is not in the sources. *)
Definition setMarkSizeWiseCleanup (b : bool) (e : LRUCacheElement) : LRUCacheElement :=
  mkElement (mLastAccessTime e) (mSize e) (mWeakPointerElement e) (mPrimaryKey e) b.

(** [std::list::erase] at the node of the element with primary key [k]. *)
Fixpoint list_erase (k : Z) (l : list Z) : list Z :=
  match l with
  | [] => []
  | x :: l' => if Z.eqb x k then l' else x :: list_erase k l'
  end.

(** [toClean.push_back(shrPointerEl)] guarded by [if (shrPointerEl)]. *)
Definition push_if_locked (live : ObjId -> bool) (e : LRUCacheElement)
    (toClean : list ObjId) : list ObjId :=
  if live (mWeakPointerElement e) then toClean ++ [mWeakPointerElement e] else toClean.

(** What a thread does to the element mutex and to the owners' objects. *)
Inductive event :=
  | Acquire
  | Release
  | Cleanup (o : ObjId).

(** ** The plain cache: class [LRUCache] *)

Module LRU.

Record LRUCache := mkCache {
  mListOfElements : list Z;
  mMapOfElements : gmap Z LRUCacheElement;
  mTotalSize : Z;
  mMaxSizeSoft : Z;
  mMaxSizeHard : Z;
  mCleanScheduleMs : Z;
  mCleanerThread : bool
}.

(** Constructor. *)
Definition new (maxSizeSoft maxSizeHard cleanScheduleMs : Z) : LRUCache :=
  mkCache [] ∅ 0 maxSizeSoft maxSizeHard cleanScheduleMs
          (negb (Z.eqb cleanScheduleMs 0)).

Definition with_state (c : LRUCache) (l : list Z) (m : gmap Z LRUCacheElement)
    (t : Z) : LRUCache :=
  mkCache l m t (mMaxSizeSoft c) (mMaxSizeHard c) (mCleanScheduleMs c)
          (mCleanerThread c).

(** The [while] loop of [cleanup]; one iteration pops one list node. *)
Fixpoint cleanup_loop (live : ObjId -> bool) (keyToSaveFromPurge : option Z)
    (soft : Z) (l : list Z) (m : gmap Z LRUCacheElement) (total : Z)
    (toClean : list ObjId)
    : list Z * gmap Z LRUCacheElement * Z * list ObjId :=
  match l with
  | [] => (l, m, total, toClean)
  | k :: l' =>
    if Z.ltb soft total then
      match m !! k with
      | Some el =>
        let m' := delete (mPrimaryKey el) m in
        if match keyToSaveFromPurge with
           | None => true
           | Some key => negb (Z.eqb key (mPrimaryKey el))
           end
        then cleanup_loop live keyToSaveFromPurge soft l' m'
               (wrap_i64 (total - mSize el)) (push_if_locked live el toClean)
        else cleanup_loop live keyToSaveFromPurge soft l' m' total toClean
      | None => cleanup_loop live keyToSaveFromPurge soft l' m total toClean
      end
    else (l, m, total, toClean)
  end.

Definition cleanup (live : ObjId -> bool) (keyToSaveFromPurge : option Z)
    (c : LRUCache) : LRUCache * list ObjId :=
  let '(l, m, t, toClean) :=
    cleanup_loop live keyToSaveFromPurge (mMaxSizeSoft c)
      (mListOfElements c) (mMapOfElements c) (mTotalSize c) [] in
  (with_state c l m t, toClean).

(** The lock guard of [cleanup] lives in the inner block. *)
Definition cleanup_events (live : ObjId -> bool) (keyToSaveFromPurge : option Z)
    (c : LRUCache) : list event :=
  [Acquire] ++ [Release] ++ map Cleanup (snd (cleanup live keyToSaveFromPurge c)).

(** The block of [updateElement] that runs under the lock. *)
Definition updateElement_locked (now : Z) (element : ObjId) (key size : Z)
    (c : LRUCache) : LRUCache :=
  let '(cacheElement, l, m, t) :=
    match mMapOfElements c !! key with
    | None =>
      let el := newElement element key in
      (el, mListOfElements c, <[key := el]> (mMapOfElements c), mTotalSize c)
    | Some el =>
      (el, list_erase key (mListOfElements c), mMapOfElements c,
       wrap_i64 (mTotalSize c - mSize el))
    end in
  let cacheElement := updateAccessTime now (setSize size cacheElement) in
  with_state c (l ++ [key]) (<[key := cacheElement]> m) (wrap_i64 (t + size)).

Definition updateElement (live : ObjId -> bool) (now : Z) (element : ObjId)
    (key size : Z) (c : LRUCache) : LRUCache * list ObjId :=
  let size := wrap_i64 size in
  let c1 := updateElement_locked now element key size c in
  if Z.ltb (mMaxSizeHard c1) (mTotalSize c1)
  then cleanup live (Some key) c1
  else (c1, []).

Definition removeElement (key : Z) (c : LRUCache) : LRUCache :=
  match mMapOfElements c !! key with
  | Some cacheElement =>
    with_state c (list_erase key (mListOfElements c))
      (delete key (mMapOfElements c))
      (wrap_i64 (mTotalSize c - mSize cacheElement))
  | None => c
  end.

Definition removeElement_events (key : Z) (c : LRUCache) : list event :=
  [Acquire; Release].

Definition updateElement_events (live : ObjId -> bool) (now : Z)
    (element : ObjId) (key size : Z) (c : LRUCache) : list event :=
  let size := wrap_i64 size in
  let c1 := updateElement_locked now element key size c in
  [Acquire; Release] ++
  (if Z.ltb (mMaxSizeHard c1) (mTotalSize c1)
   then cleanup_events live (Some key) c1
   else []).

(** The calls a client or the cleaner thread makes on a cache. *)
Inductive call :=
  | Update (element : ObjId) (key size : Z)
  | Remove (key : Z)
  | Evict (keyToSaveFromPurge : option Z).

(** A call together with the clock and the owners' objects alive when it
    is made. *)
Record request := mkRequest {
  req_now : Z;
  req_live : ObjId -> bool;
  req_call : call
}.

Definition step (r : request) (c : LRUCache) : LRUCache * list ObjId :=
  match req_call r with
  | Update element key size =>
    updateElement (req_live r) (req_now r) element key size c
  | Remove key => (removeElement key c, [])
  | Evict keyToSaveFromPurge => cleanup (req_live r) keyToSaveFromPurge c
  end.

(** The cache after a sequence of calls, with the objects cleaned so far. *)
Fixpoint run (rs : list request) (c : LRUCache) : LRUCache * list ObjId :=
  match rs with
  | [] => (c, [])
  | r :: rs' =>
    let '(c1, cleaned1) := step r c in
    let '(c2, cleaned2) := run rs' c1 in
    (c2, cleaned1 ++ cleaned2)
  end.

(** Sum of the sizes of the elements the cache tracks. *)
Definition tracked_size (c : LRUCache) : Z :=
  foldr (fun k acc =>
           match mMapOfElements c !! k with
           | Some el => mSize el + acc
           | None => acc
           end) 0 (mListOfElements c).

End LRU.

(** ** The size-ordered cache: class [LRUCacheSizeOrder] *)

Module SizeOrder.

Record SizePKPair := mkSizePK {
  nSize : Z;
  nPrimaryKey : Z
}.

(** [CompareSizePKPair::operator()] *)
Definition CompareSizePKPair (x y : SizePKPair) : bool :=
  if Z.ltb (nSize y) (nSize x) then true
  else if Z.eqb (nSize x) (nSize y) then Z.ltb (nPrimaryKey x) (nPrimaryKey y)
  else false.

(** Two keys are the same key of the map when neither is before the other. *)
Definition equivalent (x y : SizePKPair) : bool :=
  negb (CompareSizePKPair x y) && negb (CompareSizePKPair y x).

(** [std::map<SizePKPair, iterator, CompareSizePKPair>], as the sequence of
    its keys in iteration order.  [insert] leaves the map alone when an
    equivalent key is present. *)
Fixpoint map_insert (x : SizePKPair) (m : list SizePKPair) : list SizePKPair :=
  match m with
  | [] => [x]
  | y :: m' =>
    if CompareSizePKPair x y then x :: m
    else if CompareSizePKPair y x then y :: map_insert x m'
    else m
  end.

Fixpoint map_erase (x : SizePKPair) (m : list SizePKPair) : list SizePKPair :=
  match m with
  | [] => []
  | y :: m' => if equivalent x y then m' else y :: map_erase x m'
  end.

Record LRUCacheSizeOrder := mkCache {
  _listOfElements : list Z;
  _mapOfPKWithElement : gmap Z LRUCacheElement;
  _nTotalSizeOfCache : Z;
  _nSoftLimitInBytes : Z;
  _nHardLimitInBytes : Z;
  _nThresholdInSec : Z;
  _nCleanScheduleInSec : Z;
  _mapOfElementsOrderSize : list SizePKPair;
  _CleanerThread : bool;
  _ThresholdThread : bool
}.

(** What a constructor call yields: an instance, or a configuration error
    raised to the caller. *)
Inductive construction :=
  | Constructed (c : LRUCacheSizeOrder)
  | ConfigurationError.

(** Constructor: the members are initialised from the arguments and the two
    threads are started when their interval is not zero. *)
Definition init (maxSizeSoft maxSizeHard thresholdInSec cleanScheduleMs : Z)
    : LRUCacheSizeOrder :=
  mkCache [] ∅ 0 maxSizeSoft maxSizeHard thresholdInSec cleanScheduleMs []
    (negb (Z.eqb cleanScheduleMs 0)) (negb (Z.eqb thresholdInSec 0)).

Definition new (maxSizeSoft maxSizeHard thresholdInSec cleanScheduleMs : Z)
    : construction :=
  Constructed (init maxSizeSoft maxSizeHard thresholdInSec cleanScheduleMs).

Definition with_state (c : LRUCacheSizeOrder) (l : list Z)
    (m : gmap Z LRUCacheElement) (t : Z) (s : list SizePKPair)
    : LRUCacheSizeOrder :=
  mkCache l m t (_nSoftLimitInBytes c) (_nHardLimitInBytes c)
    (_nThresholdInSec c) (_nCleanScheduleInSec c) s
    (_CleanerThread c) (_ThresholdThread c).

(** The [for] loop of [checkAccessTime] over the recency list. *)
Fixpoint checkAccessTime_loop (currentTime threshold : Z) (l : list Z)
    (m : gmap Z LRUCacheElement) (s : list SizePKPair)
    : gmap Z LRUCacheElement * list SizePKPair :=
  match l with
  | [] => (m, s)
  | k :: l' =>
    match m !! k with
    | Some oldestElement =>
      if getMarkSizeWiseCleanup oldestElement
      then checkAccessTime_loop currentTime threshold l' m s
      else if Z.leb threshold
                (wrap_i64 (wrap_i64 (currentTime - getAccessTime oldestElement) + 1))
      then checkAccessTime_loop currentTime threshold l'
             (<[k := setMarkSizeWiseCleanup true oldestElement]> m)
             (map_insert (mkSizePK (mSize oldestElement) (mPrimaryKey oldestElement)) s)
      else (m, s)
    | None => checkAccessTime_loop currentTime threshold l' m s
    end
  end.

Definition checkAccessTime (currentTime : Z) (c : LRUCacheSizeOrder)
    : LRUCacheSizeOrder :=
  match _listOfElements c with
  | [] => c
  | _ =>
    let '(m, s) :=
      checkAccessTime_loop currentTime (_nThresholdInSec c) (_listOfElements c)
        (_mapOfPKWithElement c) (_mapOfElementsOrderSize c) in
    with_state c (_listOfElements c) m (_nTotalSizeOfCache c) s
  end.

(** First loop of [cleanup]: every entry of the size-ordered map, in
    iteration order. *)
Fixpoint cleanup_sizewise (live : ObjId -> bool) (s : list SizePKPair)
    (m : gmap Z LRUCacheElement) (total : Z) (toClean : list ObjId)
    : Z * list ObjId :=
  match s with
  | [] => (total, toClean)
  | el :: s' =>
    match m !! nPrimaryKey el with
    | Some itr =>
      cleanup_sizewise live s' m (wrap_i64 (total - mSize itr))
        (push_if_locked live itr toClean)
    | None => cleanup_sizewise live s' m total toClean
    end
  end.

(** Second loop of [cleanup]: the recency list, oldest first. *)
Fixpoint cleanup_loop (live : ObjId -> bool) (keyToSaveFromPurge : option Z)
    (soft : Z) (l : list Z) (m : gmap Z LRUCacheElement) (total : Z)
    (toClean : list ObjId)
    : list Z * gmap Z LRUCacheElement * Z * list ObjId :=
  match l with
  | [] => (l, m, total, toClean)
  | k :: l' =>
    if Z.ltb soft total then
      match m !! k with
      | Some el =>
        let m' := delete (mPrimaryKey el) m in
        if negb (getMarkSizeWiseCleanup el)
           && match keyToSaveFromPurge with
              | None => true
              | Some key => negb (Z.eqb key (mPrimaryKey el))
              end
        then cleanup_loop live keyToSaveFromPurge soft l' m'
               (wrap_i64 (total - mSize el)) (push_if_locked live el toClean)
        else cleanup_loop live keyToSaveFromPurge soft l' m' total toClean
      | None => cleanup_loop live keyToSaveFromPurge soft l' m total toClean
      end
    else (l, m, total, toClean)
  end.

Definition cleanup (live : ObjId -> bool) (keyToSaveFromPurge : option Z)
    (c : LRUCacheSizeOrder) : LRUCacheSizeOrder * list ObjId :=
  let '(t1, toClean1) :=
    cleanup_sizewise live (_mapOfElementsOrderSize c) (_mapOfPKWithElement c)
      (_nTotalSizeOfCache c) [] in
  let '(l, m, t, toClean) :=
    cleanup_loop live keyToSaveFromPurge (_nSoftLimitInBytes c)
      (_listOfElements c) (_mapOfPKWithElement c) t1 toClean1 in
  (with_state c l m t [], toClean).

(** The lock guard [D] of [cleanup] is declared in the function body, so it
    is released when the function returns. *)
Definition cleanup_events (live : ObjId -> bool) (keyToSaveFromPurge : option Z)
    (c : LRUCacheSizeOrder) : list event :=
  [Acquire] ++ map Cleanup (snd (cleanup live keyToSaveFromPurge c)) ++ [Release].

(** [removeSizeWiseMarker], on the element and on the size-ordered map. *)
Definition removeSizeWiseMarker (cacheElement : LRUCacheElement)
    (s : list SizePKPair) : LRUCacheElement * list SizePKPair :=
  (setMarkSizeWiseCleanup false cacheElement,
   map_erase (mkSizePK (mSize cacheElement) (mPrimaryKey cacheElement)) s).

(** The block of [updateElement] that runs under the lock; [size] is the
    [size_t] argument. *)
Definition updateElement_locked (now : Z) (element : ObjId) (key size : Z)
    (c : LRUCacheSizeOrder) : LRUCacheSizeOrder :=
  let '(cacheElement, l, m, t) :=
    match _mapOfPKWithElement c !! key with
    | None =>
      let el := newElement element key in
      (el, _listOfElements c, <[key := el]> (_mapOfPKWithElement c),
       _nTotalSizeOfCache c)
    | Some el =>
      (el, list_erase key (_listOfElements c), _mapOfPKWithElement c,
       wrap_i64 (_nTotalSizeOfCache c - mSize el))
    end in
  let '(cacheElement, s) :=
    removeSizeWiseMarker cacheElement (_mapOfElementsOrderSize c) in
  let cacheElement := setSize (wrap_i64 size) cacheElement in
  let t := wrap_i64 (t + size) in
  let cacheElement := updateAccessTime now cacheElement in
  with_state c (l ++ [key]) (<[key := cacheElement]> m) t s.

(** [updateElement]; the caller's size is converted to [size_t], and the
    guard compares it with the hard limit converted to [size_t] as well. *)
Definition updateElement (live : ObjId -> bool) (now : Z) (element : ObjId)
    (key size : Z) (c : LRUCacheSizeOrder) : LRUCacheSizeOrder * list ObjId :=
  let size := wrap_u64 size in
  if Z.leb size (wrap_u64 (_nHardLimitInBytes c)) then
    let c1 := updateElement_locked now element key size c in
    if Z.ltb (_nHardLimitInBytes c1) (_nTotalSizeOfCache c1)
    then cleanup live (Some key) c1
    else (c1, [])
  else (c, []).

Definition updateElement_events (live : ObjId -> bool) (now : Z)
    (element : ObjId) (key size : Z) (c : LRUCacheSizeOrder) : list event :=
  let size := wrap_u64 size in
  if Z.leb size (wrap_u64 (_nHardLimitInBytes c)) then
    let c1 := updateElement_locked now element key size c in
    [Acquire; Release] ++
    (if Z.ltb (_nHardLimitInBytes c1) (_nTotalSizeOfCache c1)
     then cleanup_events live (Some key) c1
     else [])
  else [].

(** The calls made on a cache: [updateElement] and [cleanup] by a client
    ([cleanup] without key also by the cleaner thread), and the time-out of
    [thresholdChecker], the only caller of [checkAccessTime]. *)
Inductive call :=
  | Update (element : ObjId) (key size : Z)
  | Evict (keyToSaveFromPurge : option Z)
  | MarkStale.

Record request := mkRequest {
  req_now : Z;
  req_live : ObjId -> bool;
  req_call : call
}.

Definition step (r : request) (c : LRUCacheSizeOrder)
    : LRUCacheSizeOrder * list ObjId :=
  match req_call r with
  | Update element key size =>
    updateElement (req_live r) (req_now r) element key size c
  | Evict keyToSaveFromPurge => cleanup (req_live r) keyToSaveFromPurge c
  | MarkStale =>
    if _ThresholdThread c then (checkAccessTime (req_now r) c, []) else (c, [])
  end.

Fixpoint run (rs : list request) (c : LRUCacheSizeOrder)
    : LRUCacheSizeOrder * list ObjId :=
  match rs with
  | [] => (c, [])
  | r :: rs' =>
    let '(c1, cleaned1) := step r c in
    let '(c2, cleaned2) := run rs' c1 in
    (c2, cleaned1 ++ cleaned2)
  end.

(** Sum of the sizes of the elements the cache tracks. *)
Definition tracked_size (c : LRUCacheSizeOrder) : Z :=
  foldr (fun k acc =>
           match _mapOfPKWithElement c !! k with
           | Some el => mSize el + acc
           | None => acc
           end) 0 (_listOfElements c).

(** The cache seen as a plain [LRUCache]. *)
Definition plain (c : LRUCacheSizeOrder) : LRU.LRUCache :=
  LRU.mkCache (_listOfElements c) (_mapOfPKWithElement c) (_nTotalSizeOfCache c)
    (_nSoftLimitInBytes c) (_nHardLimitInBytes c) (_nCleanScheduleInSec c)
    (_CleanerThread c).

End SizeOrder.

(** ** The string class: class [stringType]

    A heap array of [char] is the list of its cells, [None] for a cell that
    was never written.  Sizes and lengths are natural numbers: they are
    lengths of arrays held in memory, far below the range of [size_t].  A
    [const char *] argument is [None] for [nullptr] and otherwise the
    characters before the terminating NUL of the string it points to.  An
    access outside an array, which the C++ standard leaves undefined, ends
    the call with a fault that records the object as it is at that point. *)

Module StringType.

Local Open Scope nat_scope.

Abbreviation chars := (list (option byte)).

(** [new char[n]] *)
Definition new_chars (n : nat) : chars := replicate n None.

(** The array a C string occupies, terminator included. *)
Definition c_string (str : list byte) : chars := map Some str ++ [Some x00].

Definition strlen (str : list byte) : nat := length str.

(** [memcpy(dst + offset, src, n)]: inside both arrays or not at all. *)
Definition memcpy (dst : chars) (offset : nat) (src : option chars) (n : nat)
    : option chars :=
  match src with
  | None => None
  | Some from =>
    if Nat.leb (offset + n) (length dst) && Nat.leb n (length from)
    then Some (take offset dst ++ take n from ++ drop (offset + n) dst)
    else None
  end.

(** [dst[i] = c] *)
Definition store (dst : chars) (i : nat) (c : byte) : option chars :=
  if Nat.ltb i (length dst) then Some (<[i := Some c]> dst) else None.

Record stringType := mkString {
  _pSeqOfChars : option chars;
  _nSizeInBytes : nat;
  _nLength : nat
}.

(** What ends a call outside the defined behaviour: a [memcpy] that leaves
    one of its two arrays or reads through a null pointer, or a store at
    [index] into an array of [size] cells. *)
Inductive fault :=
  | CopyOutOfBounds
  | StoreOutOfBounds (index size : nat).

Inductive outcome :=
  | Returns (s : stringType)
  | Undefined (f : fault) (s : stringType).

(** [stringType()] *)
Definition empty : stringType := mkString None 0 0.

Definition clear (s : stringType) : stringType :=
  if Nat.ltb 0 (_nSizeInBytes s) then
    match _pSeqOfChars s with
    | Some _ => mkString None 0 0
    | None => s
    end
  else s.

Definition size (s : stringType) : nat := _nSizeInBytes s.
Definition length (s : stringType) : nat := _nLength s.
Definition c_str (s : stringType) : option chars := _pSeqOfChars s.

Definition _copyFromCharPointer (s : stringType) (pSeqOfChars : option (list byte))
    : outcome :=
  match pSeqOfChars with
  | None => Returns s
  | Some str =>
    let nLength := strlen str in
    if Nat.ltb 0 nLength then
      let fresh := new_chars (nLength + 1) in
      let s1 := mkString (Some fresh) (nLength + 1) nLength in
      match memcpy fresh 0 (Some (c_string str)) nLength with
      | None => Undefined CopyOutOfBounds s1
      | Some copied =>
        let s2 := mkString (Some copied) (nLength + 1) nLength in
        match store copied nLength x00 with
        | None => Undefined (StoreOutOfBounds nLength (List.length copied)) s2
        | Some terminated => Returns (mkString (Some terminated) (nLength + 1) nLength)
        end
      end
    else Returns s
  end.

(** A [const stringType &] argument: the object the method is called on, or
    another object. *)
Inductive reference :=
  | This
  | Other (s : stringType).

Definition deref (this : stringType) (r : reference) : stringType :=
  match r with
  | This => this
  | Other s => s
  end.

Definition _copyFromStringType (s : stringType) (strData : reference) : outcome :=
  let from := deref s strData in
  if Nat.ltb 0 (_nSizeInBytes from) && bool_decide (is_Some (_pSeqOfChars from)) then
    let nLength := _nLength from in
    let fresh := new_chars (nLength + 1) in
    let s1 := mkString (Some fresh) (nLength + 1) nLength in
    match memcpy fresh 0 (_pSeqOfChars from) nLength with
    | None => Undefined CopyOutOfBounds s1
    | Some copied =>
      let s2 := mkString (Some copied) (nLength + 1) nLength in
      match store copied nLength x00 with
      | None => Undefined (StoreOutOfBounds nLength (List.length copied)) s2
      | Some terminated => Returns (mkString (Some terminated) (nLength + 1) nLength)
      end
    end
  else Returns s.

(** [stringType(const char* p)] *)
Definition from_chars (pSeqOfChars : option (list byte)) : outcome :=
  _copyFromCharPointer empty pSeqOfChars.

(** [stringType(const stringType &)]: the members are not initialised
    before the copy; [indeterminate] is what they happen to hold. *)
Definition copy (indeterminate : stringType) (stringObj : stringType) : outcome :=
  _copyFromStringType indeterminate (Other stringObj).

(** [operator=(const stringType &)] *)
Definition assign (s : stringType) (stringObj : reference) : outcome :=
  _copyFromStringType (clear s) stringObj.

(** [operator=(const char* p)] *)
Definition assign_chars (s : stringType) (pSeqOfChars : option (list byte))
    : outcome :=
  _copyFromCharPointer (clear s) pSeqOfChars.

(** The end of both [append] functions: the new array is installed and the
    terminator is stored at index [_nSizeInBytes]. *)
Definition install (pBiggerString : chars) (nNewSize : nat) : outcome :=
  let s := mkString (Some pBiggerString) nNewSize (nNewSize - 1) in
  match store pBiggerString nNewSize x00 with
  | None => Undefined (StoreOutOfBounds nNewSize (List.length pBiggerString)) s
  | Some terminated => Returns (mkString (Some terminated) nNewSize (nNewSize - 1))
  end.

(** [append(const char* p)] *)
Definition append_chars (s : stringType) (pSeqOfChars : option (list byte))
    : outcome :=
  match pSeqOfChars with
  | None => Returns s
  | Some str =>
    let nLenOfNewString := strlen str in
    if Nat.ltb 0 nLenOfNewString then
      let nNewSize := _nLength s + nLenOfNewString + 1 in
      let pBiggerString := new_chars nNewSize in
      match
        (if Nat.ltb 0 (_nLength s) && bool_decide (is_Some (_pSeqOfChars s))
         then option_map (fun b => (b, clear s))
                (memcpy pBiggerString 0 (_pSeqOfChars s) (_nLength s))
         else Some (pBiggerString, s))
      with
      | None => Undefined CopyOutOfBounds s
      | Some (pBiggerString, s1) =>
        match memcpy pBiggerString (nNewSize - nLenOfNewString - 1)
                (Some (c_string str)) nLenOfNewString with
        | None => Undefined CopyOutOfBounds s1
        | Some pBiggerString => install pBiggerString nNewSize
        end
      end
    else Returns s
  end.

(** [append(const stringType &)] *)
Definition append (s : stringType) (strData : reference) : outcome :=
  let arg := deref s strData in
  if bool_decide (is_Some (_pSeqOfChars arg)) && Nat.ltb 0 (_nLength arg) then
    let nNewSize := _nLength s + _nLength arg + 1 in
    let pBiggerString := new_chars nNewSize in
    match
      (if Nat.ltb 0 (_nLength s) && bool_decide (is_Some (_pSeqOfChars s))
       then option_map (fun b => (b, clear s))
              (memcpy pBiggerString 0 (_pSeqOfChars s) (_nLength s))
       else Some (pBiggerString, s))
    with
    | None => Undefined CopyOutOfBounds s
    | Some (pBiggerString, s1) =>
      let arg := deref s1 strData in
      match memcpy pBiggerString (nNewSize - _nLength arg - 1)
              (_pSeqOfChars arg) (_nLength arg) with
      | None => Undefined CopyOutOfBounds s1
      | Some pBiggerString => install pBiggerString nNewSize
      end
    end
  else Returns s.

(** [operator+]: both operands are appended to an empty string. *)
Definition plus (s : stringType) (strData : stringType) : outcome :=
  match append empty (Other s) with
  | Returns strResult => append strResult (Other strData)
  | Undefined f strResult => Undefined f strResult
  end.

(** The objects the constructors and assignments produce: the empty
    string, or a string that owns the array of its characters with the
    terminator. *)
Definition holds (s : stringType) (str : list byte) : Prop :=
  match str with
  | [] => s = empty
  | _ => s = mkString (Some (c_string str)) (strlen str + 1) (strlen str)
  end.

End StringType.

(** ** Notions used in the statements *)

(** The order of the size-ordered map in the words of its documentation:
    larger size first, equal sizes by ascending primary key. *)
Definition size_desc_key_asc (x y : SizeOrder.SizePKPair) : Prop :=
  SizeOrder.nSize y < SizeOrder.nSize x \/
  (SizeOrder.nSize x = SizeOrder.nSize y /\
   SizeOrder.nPrimaryKey x < SizeOrder.nPrimaryKey y).

(** Consistency of the three containers of a size-ordered cache. *)
Record wf (c : SizeOrder.LRUCacheSizeOrder) : Prop := mkWf {
  wf_nodup : NoDup (SizeOrder._listOfElements c);
  wf_dom : forall k,
    k ∈ SizeOrder._listOfElements c <->
    is_Some (SizeOrder._mapOfPKWithElement c !! k);
  wf_key : forall k e,
    SizeOrder._mapOfPKWithElement c !! k = Some e -> mPrimaryKey e = k;
  wf_total : in_i64 (SizeOrder._nTotalSizeOfCache c);
  wf_sorted :
    StronglySorted size_desc_key_asc (SizeOrder._mapOfElementsOrderSize c);
  wf_entry : forall p,
    p ∈ SizeOrder._mapOfElementsOrderSize c ->
    exists e,
      SizeOrder._mapOfPKWithElement c !! SizeOrder.nPrimaryKey p = Some e /\
      mSize e = SizeOrder.nSize p /\
      mMarkSizeWiseCleanup e = true
}.

(** The elements a list of primary keys designates. *)
Definition elements_of (m : gmap Z LRUCacheElement) (ks : list Z)
    : list LRUCacheElement :=
  omap (fun k => m !! k) ks.

Definition sizes (es : list LRUCacheElement) : Z :=
  foldr (fun e acc => mSize e + acc) 0 es.

Definition entry_sizes (s : list SizeOrder.SizePKPair) : Z :=
  foldr (fun p acc => SizeOrder.nSize p + acc) 0 s.

(** The objects of the elements whose weak pointer can be locked. *)
Definition locked (live : ObjId -> bool) (es : list LRUCacheElement)
    : list ObjId :=
  List.filter live (map mWeakPointerElement es).

(** An element popped by the second loop of [cleanup] is charged (queued
    and subtracted) when it is not marked and not the protected key. *)
Definition charged (keyToSaveFromPurge : option Z) (e : LRUCacheElement) : bool :=
  negb (mMarkSizeWiseCleanup e) &&
  match keyToSaveFromPurge with
  | None => true
  | Some key => negb (Z.eqb key (mPrimaryKey e))
  end.

(** No element is marked and the size-ordered map is empty. *)
Definition unmarked (c : SizeOrder.LRUCacheSizeOrder) : Prop :=
  SizeOrder._mapOfElementsOrderSize c = [] /\
  forall k e,
    SizeOrder._mapOfPKWithElement c !! k = Some e ->
    mMarkSizeWiseCleanup e = false.

(** The test [checkAccessTime] makes on an element. *)
Definition past_threshold (currentTime threshold : Z) (e : LRUCacheElement) : bool :=
  Z.leb threshold (wrap_i64 (wrap_i64 (currentTime - mLastAccessTime e) + 1)).

(** The part of the recency list [checkAccessTime] visits: the elements
    before the first one that is neither marked nor past the threshold. *)
Fixpoint scanned (currentTime threshold : Z) (m : gmap Z LRUCacheElement)
    (l : list Z) : list Z :=
  match l with
  | [] => []
  | k :: l' =>
    match m !! k with
    | Some e =>
      if negb (mMarkSizeWiseCleanup e) && negb (past_threshold currentTime threshold e)
      then []
      else k :: scanned currentTime threshold m l'
    | None => k :: scanned currentTime threshold m l'
    end
  end.

(** Owners that all still hold their objects. *)
Definition alive : ObjId -> bool := fun _ => true.

(** A [Cleanup] event that happens between [Acquire] and [Release]. *)
Fixpoint cleanup_while_locked (held : bool) (tr : list event) : bool :=
  match tr with
  | [] => false
  | Acquire :: tr' => cleanup_while_locked true tr'
  | Release :: tr' => cleanup_while_locked false tr'
  | Cleanup _ :: tr' => held || cleanup_while_locked held tr'
  end.

(** The trace when the [cleanup] of every owner calls back into the cache
    and the call makes the events [callback]. *)
Definition with_callback (callback : list event) (tr : list event) : list event :=
  flat_map (fun e => match e with
                     | Cleanup o => Cleanup o :: callback
                     | _ => [e]
                     end) tr.

(** An [Acquire] of the element mutex while it is held: the thread blocks
    on itself, the mutex being a plain [std::mutex]. *)
Fixpoint acquire_while_locked (held : bool) (tr : list event) : bool :=
  match tr with
  | [] => false
  | Acquire :: tr' => held || acquire_while_locked true tr'
  | Release :: tr' => acquire_while_locked false tr'
  | Cleanup _ :: tr' => acquire_while_locked held tr'
  end.

(** Consistency of the containers of a plain cache; the plain cache never
    marks an element. *)
Record lru_wf (c : LRU.LRUCache) : Prop := mkLruWf {
  lru_nodup : NoDup (LRU.mListOfElements c);
  lru_dom : forall k,
    k ∈ LRU.mListOfElements c <-> is_Some (LRU.mMapOfElements c !! k);
  lru_key : forall k e,
    LRU.mMapOfElements c !! k = Some e -> mPrimaryKey e = k;
  lru_total : in_i64 (LRU.mTotalSize c);
  lru_unmarked : forall k e,
    LRU.mMapOfElements c !! k = Some e -> mMarkSizeWiseCleanup e = false
}.

(** An element popped by [LRUCache::cleanup] is queued and subtracted when
    it is not the protected key. *)
Definition unprotected (keyToSaveFromPurge : option Z) (e : LRUCacheElement) : bool :=
  match keyToSaveFromPurge with
  | None => true
  | Some key => negb (Z.eqb key (mPrimaryKey e))
  end.

(** The critical sections of [LRUCacheSizeOrder]: what one thread does
    between taking and releasing [_mutexForElementAccess].  The block of
    [updateElement] is entered when the size passes the guard; the
    [cleanup] that may follow it is a section of its own, which other
    threads can precede. *)
Inductive critical_section :=
  | InUpdateElement (now : Z) (element : ObjId) (key size : Z)
  | InCleanup (live : ObjId -> bool) (keyToSaveFromPurge : option Z)
  | InCheckAccessTime (currentTime : Z).

Definition enter (s : critical_section) (c : SizeOrder.LRUCacheSizeOrder)
    : SizeOrder.LRUCacheSizeOrder :=
  match s with
  | InUpdateElement now element key size =>
    if Z.leb (wrap_u64 size) (wrap_u64 (SizeOrder._nHardLimitInBytes c))
    then SizeOrder.updateElement_locked now element key (wrap_u64 size) c
    else c
  | InCleanup live keyToSaveFromPurge =>
    fst (SizeOrder.cleanup live keyToSaveFromPurge c)
  | InCheckAccessTime currentTime => SizeOrder.checkAccessTime currentTime c
  end.

(** The cache after the critical sections of all threads, in the order in
    which they got the mutex. *)
Definition interleaving (ss : list critical_section)
    (c : SizeOrder.LRUCacheSizeOrder) : SizeOrder.LRUCacheSizeOrder :=
  foldl (fun c s => enter s c) c ss.

(** The critical sections a call is made of. *)
Definition sections_of (r : SizeOrder.request) (c : SizeOrder.LRUCacheSizeOrder)
    : list critical_section :=
  match SizeOrder.req_call r with
  | SizeOrder.Update element key size =>
    InUpdateElement (SizeOrder.req_now r) element key size ::
    (if Z.ltb (SizeOrder._nHardLimitInBytes c)
          (SizeOrder._nTotalSizeOfCache
             (enter (InUpdateElement (SizeOrder.req_now r) element key size) c))
        && Z.leb (wrap_u64 size) (wrap_u64 (SizeOrder._nHardLimitInBytes c))
     then [InCleanup (SizeOrder.req_live r) (Some key)]
     else [])
  | SizeOrder.Evict keyToSaveFromPurge =>
    [InCleanup (SizeOrder.req_live r) keyToSaveFromPurge]
  | SizeOrder.MarkStale =>
    if SizeOrder._ThresholdThread c
    then [InCheckAccessTime (SizeOrder.req_now r)]
    else []
  end.

(** One element comes before another in the recency list only if its last
    access is not later: the list is in the order of the accesses. *)
Definition accessed_before (m : gmap Z LRUCacheElement) (k1 k2 : Z) : Prop :=
  forall e1 e2, m !! k1 = Some e1 -> m !! k2 = Some e2 ->
    mLastAccessTime e1 <= mLastAccessTime e2.

Definition oldest_first (c : SizeOrder.LRUCacheSizeOrder) : Prop :=
  StronglySorted (accessed_before (SizeOrder._mapOfPKWithElement c))
    (SizeOrder._listOfElements c).

(** The age of every element, and the age plus one, fit [time_t]. *)
Definition ages_fit (currentTime : Z) (c : SizeOrder.LRUCacheSizeOrder) : Prop :=
  forall k e, SizeOrder._mapOfPKWithElement c !! k = Some e ->
    in_i64 (currentTime - mLastAccessTime e) /\
    in_i64 (currentTime - mLastAccessTime e + 1).

(** No marked element comes after an unmarked one in the recency list. *)
Definition marked_before (m : gmap Z LRUCacheElement) (k1 k2 : Z) : Prop :=
  forall e1 e2, m !! k1 = Some e1 -> m !! k2 = Some e2 ->
    mMarkSizeWiseCleanup e2 = true -> mMarkSizeWiseCleanup e1 = true.

Definition marked_first (c : SizeOrder.LRUCacheSizeOrder) : Prop :=
  StronglySorted (marked_before (SizeOrder._mapOfPKWithElement c))
    (SizeOrder._listOfElements c).


(** * Properties *)

(** ** Machine integers *)

Lemma wrap_i64_range z : in_i64 (wrap_i64 z).
Proof.
  unfold in_i64, wrap_i64.
  pose proof (Z.mod_pos_bound (z + 2 ^ 63) (2 ^ 64) ltac:(lia)). lia.
Qed.

Lemma wrap_i64_id z : in_i64 z -> wrap_i64 z = z.
Proof.
  unfold in_i64, wrap_i64. intros H.
  rewrite Z.mod_small by lia. lia.
Qed.

Lemma wrap_i64_sub_l a b : wrap_i64 (wrap_i64 a - b) = wrap_i64 (a - b).
Proof.
  unfold wrap_i64.
  replace ((a + 2 ^ 63) mod 2 ^ 64 - 2 ^ 63 - b + 2 ^ 63)
    with ((a + 2 ^ 63) mod 2 ^ 64 - b) by lia.
  rewrite Zminus_mod_idemp_l. do 2 f_equal. lia.
Qed.

Lemma wrap_i64_add_l a b : wrap_i64 (wrap_i64 a + b) = wrap_i64 (a + b).
Proof.
  replace (wrap_i64 a + b) with (wrap_i64 a - (- b)) by lia.
  rewrite wrap_i64_sub_l. f_equal. lia.
Qed.

Lemma wrap_i64_add_u64 a b : wrap_i64 (a + wrap_u64 b) = wrap_i64 (a + b).
Proof.
  unfold wrap_i64, wrap_u64.
  replace (a + b mod 2 ^ 64 + 2 ^ 63) with ((a + 2 ^ 63) + b mod 2 ^ 64) by lia.
  rewrite Zplus_mod_idemp_r. do 2 f_equal. lia.
Qed.

Lemma wrap_i64_u64 b : wrap_i64 (wrap_u64 b) = wrap_i64 b.
Proof. exact (wrap_i64_add_u64 0 b). Qed.

Lemma wrap_u64_small z : 0 <= z < 2 ^ 64 -> wrap_u64 z = z.
Proof. intros H. unfold wrap_u64. now rewrite Z.mod_small. Qed.

(** ** The recency list *)

Lemma list_erase_elem_of k x l : x ∈ list_erase k l -> x ∈ l.
Proof.
  induction l as [|y l IH]; simpl; [tauto|].
  destruct (Z.eqb_spec y k); rewrite ?elem_of_cons; tauto.
Qed.

Lemma list_erase_elem_of_ne k x l : x ∈ l -> x <> k -> x ∈ list_erase k l.
Proof.
  induction l as [|y l IH]; simpl; [tauto|].
  rewrite elem_of_cons. intros [->|Hin] Hne.
  - destruct (Z.eqb_spec y k); [contradiction|]. apply elem_of_cons. now left.
  - destruct (Z.eqb_spec y k); [assumption|]. apply elem_of_cons. right; auto.
Qed.

Lemma list_erase_NoDup k l : NoDup l -> NoDup (list_erase k l).
Proof.
  induction 1 as [|y l Hy Hl IH]; simpl; [constructor|].
  destruct (Z.eqb_spec y k); [assumption|].
  constructor; [|assumption].
  intros Hin. apply Hy. eapply list_erase_elem_of; eassumption.
Qed.

Lemma list_erase_not_elem_of k l : NoDup l -> k ∉ list_erase k l.
Proof.
  induction 1 as [|y l Hy Hl IH]; simpl; [apply not_elem_of_nil|].
  destruct (Z.eqb_spec y k) as [->|Hne]; [assumption|].
  rewrite elem_of_cons. intros [Heq|Hin]; [congruence|tauto].
Qed.

Lemma list_erase_absent k l : k ∉ l -> list_erase k l = l.
Proof.
  induction l as [|y l IH]; simpl; [reflexivity|].
  rewrite elem_of_cons. intros Hn.
  destruct (Z.eqb_spec y k) as [->|Hne]; [tauto|].
  f_equal. apply IH. tauto.
Qed.

Lemma list_erase_filter k l :
  NoDup l -> list_erase k l = List.filter (fun x => negb (Z.eqb x k)) l.
Proof.
  induction l as [|x l IH]; simpl; [reflexivity|].
  rewrite NoDup_cons. intros [Hnin Hnd].
  destruct (Z.eqb_spec x k) as [->|Hne]; simpl.
  - rewrite <- (IH Hnd). symmetry. now apply list_erase_absent.
  - now rewrite (IH Hnd).
Qed.

Lemma StronglySorted_list_erase (R : Z -> Z -> Prop) k l :
  StronglySorted R l -> StronglySorted R (list_erase k l).
Proof.
  induction l as [|x l IH]; simpl; [auto|].
  rewrite StronglySorted_cons. intros [Hx Hl].
  destruct (Z.eqb x k); [assumption|].
  apply StronglySorted_cons. split; [|auto].
  rewrite Forall_forall in *. intros y Hy. apply Hx.
  eapply list_erase_elem_of; eassumption.
Qed.

Lemma StronglySorted_weaken (R1 R2 : Z -> Z -> Prop) l :
  (forall x y, x ∈ l -> y ∈ l -> R1 x y -> R2 x y) ->
  StronglySorted R1 l -> StronglySorted R2 l.
Proof.
  induction l as [|x l IH]; intros H; [constructor|].
  rewrite !StronglySorted_cons, !Forall_forall. intros [Hx Hl]. split.
  - intros y Hy. apply H; [apply elem_of_cons; now left
                          |apply elem_of_cons; now right|auto].
  - apply IH; [|assumption]. intros y z Hy Hz. apply H; apply elem_of_cons; now right.
Qed.

Lemma StronglySorted_total (R : Z -> Z -> Prop) l :
  (forall x y, x ∈ l -> R x y) -> StronglySorted R l.
Proof.
  induction l as [|x l IH]; intros H; [constructor|].
  apply StronglySorted_cons. split.
  - apply Forall_forall. intros y _. apply H, elem_of_cons. now left.
  - apply IH. intros y z Hy. apply H, elem_of_cons. now right.
Qed.

Lemma StronglySorted_later (R : Z -> Z -> Prop) pre x post y :
  StronglySorted R (pre ++ x :: post) -> y ∈ post -> R x y.
Proof.
  intros H Hy. apply StronglySorted_app_1_r, StronglySorted_cons in H.
  destruct H as [H _]. rewrite Forall_forall in H. auto.
Qed.

(** ** The size-ordered map *)

Lemma CompareSizePKPair_spec x y :
  SizeOrder.CompareSizePKPair x y = true <-> size_desc_key_asc x y.
Proof.
  unfold SizeOrder.CompareSizePKPair, size_desc_key_asc.
  destruct (Z.ltb_spec (SizeOrder.nSize y) (SizeOrder.nSize x)).
  - split; auto.
  - destruct (Z.eqb_spec (SizeOrder.nSize x) (SizeOrder.nSize y)).
    + rewrite Z.ltb_lt. split; [auto|]. intros [?|[_ ?]]; [lia|assumption].
    + split; [discriminate|]. intros [?|[? _]]; [lia|contradiction].
Qed.

Lemma size_desc_key_asc_trans x y z :
  size_desc_key_asc x y -> size_desc_key_asc y z -> size_desc_key_asc x z.
Proof. unfold size_desc_key_asc. lia. Qed.

Lemma size_desc_key_asc_irrefl x : ~ size_desc_key_asc x x.
Proof. unfold size_desc_key_asc. lia. Qed.

Lemma equivalent_eq x y : SizeOrder.equivalent x y = true <-> x = y.
Proof.
  unfold SizeOrder.equivalent.
  rewrite andb_true_iff, !negb_true_iff.
  split.
  - intros [H1 H2].
    assert (N1 : ~ size_desc_key_asc x y)
      by (rewrite <- CompareSizePKPair_spec; congruence).
    assert (N2 : ~ size_desc_key_asc y x)
      by (rewrite <- CompareSizePKPair_spec; congruence).
    unfold size_desc_key_asc in N1, N2.
    destruct x as [sx kx], y as [sy ky]; simpl in *.
    f_equal; lia.
  - intros ->. pose proof (size_desc_key_asc_irrefl y) as N.
    rewrite <- CompareSizePKPair_spec in N.
    destruct (SizeOrder.CompareSizePKPair y y); [tauto|auto].
Qed.

Lemma map_insert_elem_of x p m :
  p ∈ SizeOrder.map_insert x m <-> p = x \/ p ∈ m.
Proof.
  induction m as [|y m IH]; simpl.
  - rewrite list_elem_of_singleton, elem_of_nil. tauto.
  - destruct (SizeOrder.CompareSizePKPair x y) eqn:Hxy.
    + rewrite !elem_of_cons. tauto.
    + destruct (SizeOrder.CompareSizePKPair y x) eqn:Hyx.
      * rewrite !elem_of_cons, IH. tauto.
      * assert (x = y) as ->.
        { apply equivalent_eq. unfold SizeOrder.equivalent.
          now rewrite Hxy, Hyx. }
        rewrite !elem_of_cons. tauto.
Qed.

Lemma map_insert_sorted x m :
  StronglySorted size_desc_key_asc m ->
  StronglySorted size_desc_key_asc (SizeOrder.map_insert x m).
Proof.
  induction 1 as [|y m Hm IH Hy]; simpl.
  - repeat constructor.
  - destruct (SizeOrder.CompareSizePKPair x y) eqn:Hxy.
    + apply CompareSizePKPair_spec in Hxy.
      constructor; [constructor; assumption|].
      constructor; [assumption|].
      eapply Forall_impl; [exact Hy|].
      intros z Hz. eapply size_desc_key_asc_trans; eassumption.
    + destruct (SizeOrder.CompareSizePKPair y x) eqn:Hyx.
      * apply CompareSizePKPair_spec in Hyx.
        constructor; [assumption|].
        apply Forall_forall. intros z Hz.
        apply map_insert_elem_of in Hz. destruct Hz as [->|Hz]; [assumption|].
        rewrite Forall_forall in Hy. auto.
      * constructor; assumption.
Qed.

Lemma map_erase_elem_of x p m : p ∈ SizeOrder.map_erase x m -> p ∈ m.
Proof.
  induction m as [|y m IH]; simpl; [tauto|].
  destruct (SizeOrder.equivalent x y); rewrite ?elem_of_cons; tauto.
Qed.

Lemma map_erase_sorted x m :
  StronglySorted size_desc_key_asc m ->
  StronglySorted size_desc_key_asc (SizeOrder.map_erase x m).
Proof.
  induction 1 as [|y m Hm IH Hy]; simpl; [constructor|].
  destruct (SizeOrder.equivalent x y); [assumption|].
  constructor; [assumption|].
  apply Forall_forall. intros z Hz. apply map_erase_elem_of in Hz.
  rewrite Forall_forall in Hy. auto.
Qed.

Lemma map_erase_elem_of_iff x p m :
  StronglySorted size_desc_key_asc m ->
  p ∈ SizeOrder.map_erase x m <-> p ∈ m /\ p <> x.
Proof.
  induction 1 as [|y m Hm IH Hy]; simpl.
  - rewrite elem_of_nil. tauto.
  - rewrite Forall_forall in Hy.
    destruct (SizeOrder.equivalent x y) eqn:E.
    + apply equivalent_eq in E. subst y. rewrite elem_of_cons. split.
      * intros Hin. split; [now right|]. intros ->.
        exact (size_desc_key_asc_irrefl _ (Hy _ Hin)).
      * intros [[Heq|Hin] Hne]; [congruence|assumption].
    + assert (x <> y).
      { intros ->.
        assert (SizeOrder.equivalent y y = true) by now apply equivalent_eq.
        congruence. }
      rewrite !elem_of_cons, IH. intuition congruence.
Qed.

(** ** Consistency of the containers is preserved *)

Lemma wf_init a b th sc : wf (SizeOrder.init a b th sc).
Proof.
  constructor; simpl.
  - constructor.
  - intros k. rewrite elem_of_nil, lookup_empty. split; [tauto|].
    intros [x Hx]; discriminate.
  - intros k e. rewrite lookup_empty. discriminate.
  - unfold in_i64. lia.
  - constructor.
  - intros p Hp. apply elem_of_nil in Hp. tauto.
Qed.

Lemma wf_updateElement_locked now element key size c :
  wf c -> wf (SizeOrder.updateElement_locked now element key size c).
Proof.
  intros [Hnd Hdom Hkey Htot Hsort Hent].
  unfold SizeOrder.updateElement_locked, SizeOrder.removeSizeWiseMarker.
  destruct (SizeOrder._mapOfPKWithElement c !! key) as [el|] eqn:Hk;
    constructor; simpl.
  - (* refresh: the list *)
    apply NoDup_app. split; [now apply list_erase_NoDup|]. split.
    + intros x Hx Hx'. apply list_elem_of_singleton in Hx'. subst x.
      exact (list_erase_not_elem_of _ _ Hnd Hx).
    + apply NoDup_singleton.
  - intros k. rewrite elem_of_app, list_elem_of_singleton.
    destruct (decide (k = key)) as [->|Hne].
    + rewrite lookup_insert_eq. split; [eauto|tauto].
    + rewrite lookup_insert_ne by congruence. rewrite <- Hdom. split.
      * intros [H|H]; [eapply list_erase_elem_of; eassumption|contradiction].
      * intros H. left. now apply list_erase_elem_of_ne.
  - intros k e. destruct (decide (k = key)) as [->|Hne].
    + rewrite lookup_insert_eq. intros [= <-]. simpl. eauto.
    + rewrite lookup_insert_ne by congruence. apply Hkey.
  - apply wrap_i64_range.
  - now apply map_erase_sorted.
  - intros p Hp. apply map_erase_elem_of_iff in Hp; [|assumption].
    destruct Hp as [Hp Hne]. destruct (Hent p Hp) as (e & He & Hs & Hm).
    assert (SizeOrder.nPrimaryKey p <> key) as Hpk.
    { intros Heq. rewrite Heq, Hk in He. injection He as <-.
      apply Hne. destruct p as [sp kp]; simpl in *.
      rewrite (Hkey _ _ Hk). congruence. }
    exists e. rewrite lookup_insert_ne by congruence. auto.
  - (* new key: the list *)
    assert (key ∉ SizeOrder._listOfElements c) as Hnin.
    { rewrite Hdom, Hk. intros [x Hx]; discriminate. }
    apply NoDup_app. split; [assumption|]. split.
    + intros x Hx Hx'. apply list_elem_of_singleton in Hx'. now subst x.
    + apply NoDup_singleton.
  - intros k. rewrite elem_of_app, list_elem_of_singleton.
    destruct (decide (k = key)) as [->|Hne].
    + rewrite lookup_insert_eq. split; [eauto|tauto].
    + rewrite !lookup_insert_ne by congruence. rewrite <- Hdom. tauto.
  - intros k e. destruct (decide (k = key)) as [->|Hne].
    + rewrite lookup_insert_eq. intros [= <-]. reflexivity.
    + rewrite !lookup_insert_ne by congruence. apply Hkey.
  - apply wrap_i64_range.
  - now apply map_erase_sorted.
  - intros p Hp. apply map_erase_elem_of in Hp.
    destruct (Hent p Hp) as (e & He & Hs & Hm).
    assert (SizeOrder.nPrimaryKey p <> key) as Hpk by congruence.
    exists e. rewrite !lookup_insert_ne by congruence. auto.
Qed.

Lemma checkAccessTime_loop_wf now th l : forall m s m' s',
  (forall k e, m !! k = Some e -> mPrimaryKey e = k) ->
  StronglySorted size_desc_key_asc s ->
  (forall p, p ∈ s -> exists e,
      m !! SizeOrder.nPrimaryKey p = Some e /\
      mSize e = SizeOrder.nSize p /\ mMarkSizeWiseCleanup e = true) ->
  SizeOrder.checkAccessTime_loop now th l m s = (m', s') ->
  (forall k, is_Some (m' !! k) <-> is_Some (m !! k)) /\
  (forall k e, m' !! k = Some e -> mPrimaryKey e = k) /\
  StronglySorted size_desc_key_asc s' /\
  (forall p, p ∈ s' -> exists e,
      m' !! SizeOrder.nPrimaryKey p = Some e /\
      mSize e = SizeOrder.nSize p /\ mMarkSizeWiseCleanup e = true).
Proof.
  induction l as [|k l IH]; intros m s m' s' Hkey Hsort Hent; simpl.
  - intros [= <- <-]. tauto.
  - destruct (m !! k) as [e|] eqn:Hk; [|now apply IH].
    unfold getMarkSizeWiseCleanup.
    destruct (mMarkSizeWiseCleanup e) eqn:Hmark; [now apply IH|].
    destruct (Z.leb th _); [|intros [= <- <-]; tauto].
    intros Hloop. apply IH in Hloop.
    + destruct Hloop as (Hd & Hrest). split; [|exact Hrest].
      intros k'. rewrite Hd. destruct (decide (k' = k)) as [->|Hne].
      * rewrite lookup_insert_eq, Hk. split; eauto.
      * now rewrite lookup_insert_ne by congruence.
    + intros k' e'. destruct (decide (k' = k)) as [->|Hne].
      * rewrite lookup_insert_eq. intros [= <-]. simpl. eauto.
      * rewrite lookup_insert_ne by congruence. apply Hkey.
    + now apply map_insert_sorted.
    + intros p Hp. apply map_insert_elem_of in Hp.
      destruct Hp as [->|Hp]; simpl.
      * rewrite (Hkey _ _ Hk), lookup_insert_eq. eexists; eauto.
      * destruct (Hent p Hp) as (e' & He' & Hs & Hm).
        destruct (decide (SizeOrder.nPrimaryKey p = k)) as [Heq|Hne].
        -- rewrite Heq, lookup_insert_eq. rewrite Heq, Hk in He'.
           injection He' as <-. eexists; eauto.
        -- rewrite lookup_insert_ne by congruence. eauto.
Qed.

Lemma wf_checkAccessTime now c :
  wf c -> wf (SizeOrder.checkAccessTime now c).
Proof.
  intros Hwf. unfold SizeOrder.checkAccessTime.
  destruct (SizeOrder._listOfElements c) as [|k0 l0] eqn:Hl; [assumption|].
  destruct (SizeOrder.checkAccessTime_loop _ _ _ _ _) as [m' s'] eqn:Hloop.
  destruct Hwf as [Hnd Hdom Hkey Htot Hsort Hent].
  apply checkAccessTime_loop_wf in Hloop; try assumption.
  destruct Hloop as (Hd & Hk' & Hs' & He').
  constructor; simpl; try assumption.
  - now rewrite <- Hl.
  - intros k. rewrite Hd, <- Hdom, Hl. tauto.
Qed.

Lemma cleanup_loop_wf live key soft l : forall m total q l' m' t' q',
  NoDup l ->
  (forall k, k ∈ l <-> is_Some (m !! k)) ->
  (forall k e, m !! k = Some e -> mPrimaryKey e = k) ->
  in_i64 total ->
  SizeOrder.cleanup_loop live key soft l m total q = (l', m', t', q') ->
  NoDup l' /\
  (forall k, k ∈ l' <-> is_Some (m' !! k)) /\
  (forall k e, m' !! k = Some e -> mPrimaryKey e = k) /\
  in_i64 t'.
Proof.
  induction l as [|k l IH]; intros m total q l' m' t' q' Hnd Hdom Hkey Htot; simpl.
  - intros [= <- <- <- <-]. tauto.
  - destruct (Z.ltb soft total); [|intros [= <- <- <- <-]; tauto].
    apply NoDup_cons in Hnd. destruct Hnd as [Hnin Hnd].
    destruct (m !! k) as [el|] eqn:Hk.
    2:{ exfalso. assert (is_Some (m !! k)) as [x Hx].
        { apply Hdom, elem_of_cons. now left. }
        congruence. }
    rewrite (Hkey _ _ Hk).
    assert (forall k', k' ∈ l <-> is_Some (delete k m !! k')) as Hdom'.
    { intros k'. destruct (decide (k' = k)) as [->|Hne].
      - rewrite lookup_delete_eq. split; [tauto|]. intros [x Hx]; discriminate.
      - rewrite lookup_delete_ne by congruence. rewrite <- Hdom, elem_of_cons.
        tauto. }
    assert (forall k' e, delete k m !! k' = Some e -> mPrimaryKey e = k') as Hkey'.
    { intros k' e. destruct (decide (k' = k)) as [->|Hne].
      - rewrite lookup_delete_eq. discriminate.
      - rewrite lookup_delete_ne by congruence. apply Hkey. }
    destruct (negb _ && _); intros Hloop; eapply IH in Hloop; eauto.
    apply wrap_i64_range.
Qed.

Lemma cleanup_sizewise_range live s m : forall total q,
  in_i64 total -> in_i64 (fst (SizeOrder.cleanup_sizewise live s m total q)).
Proof.
  induction s as [|p s IH]; intros total q Htot; simpl; [assumption|].
  destruct (m !! SizeOrder.nPrimaryKey p); [|now apply IH].
  apply IH, wrap_i64_range.
Qed.

Lemma wf_cleanup live key c :
  wf c -> wf (fst (SizeOrder.cleanup live key c)).
Proof.
  intros [Hnd Hdom Hkey Htot Hsort Hent]. unfold SizeOrder.cleanup.
  pose proof (cleanup_sizewise_range live (SizeOrder._mapOfElementsOrderSize c)
                (SizeOrder._mapOfPKWithElement c) _ [] Htot) as Hr.
  destruct (SizeOrder.cleanup_sizewise _ _ _ _ _) as [t1 q1]. simpl in Hr.
  destruct (SizeOrder.cleanup_loop _ _ _ _ _ _ _) as [[[l m] t] q] eqn:Hloop.
  apply cleanup_loop_wf in Hloop; try assumption.
  destruct Hloop as (? & ? & ? & ?).
  constructor; simpl; try assumption.
  - constructor.
  - intros p Hp. apply elem_of_nil in Hp. tauto.
Qed.

Lemma wf_updateElement live now element key size c :
  wf c -> wf (fst (SizeOrder.updateElement live now element key size c)).
Proof.
  intros Hwf. unfold SizeOrder.updateElement.
  destruct (Z.leb _ _); [|assumption].
  destruct (Z.ltb _ _).
  - now apply wf_cleanup, wf_updateElement_locked.
  - now apply wf_updateElement_locked.
Qed.

Lemma wf_step r c : wf c -> wf (fst (SizeOrder.step r c)).
Proof.
  intros Hwf. unfold SizeOrder.step. destruct (SizeOrder.req_call r).
  - now apply wf_updateElement.
  - now apply wf_cleanup.
  - destruct (SizeOrder._ThresholdThread c); simpl; [|assumption].
    now apply wf_checkAccessTime.
Qed.

Lemma wf_run rs : forall c, wf c -> wf (fst (SizeOrder.run rs c)).
Proof.
  induction rs as [|r rs IH]; intros c Hwf; simpl; [assumption|].
  pose proof (wf_step r c Hwf) as H1.
  destruct (SizeOrder.step r c) as [c1 q1]. simpl in H1.
  pose proof (IH c1 H1) as H2.
  destruct (SizeOrder.run rs c1) as [c2 q2]. exact H2.
Qed.

Lemma wf_reachable rs a b th sc :
  wf (fst (SizeOrder.run rs (SizeOrder.init a b th sc))).
Proof. apply wf_run, wf_init. Qed.

(** *** Critical sections *)

Lemma wf_enter s c : wf c -> wf (enter s c).
Proof.
  intros Hwf. destruct s; simpl.
  - destruct (Z.leb _ _); [now apply wf_updateElement_locked|assumption].
  - now apply wf_cleanup.
  - now apply wf_checkAccessTime.
Qed.

Lemma wf_interleaving ss : forall c, wf c -> wf (interleaving ss c).
Proof.
  unfold interleaving.
  induction ss as [|s ss IH]; intros c Hwf; simpl; [assumption|].
  apply IH. now apply wf_enter.
Qed.

Lemma interleaving_app ss1 ss2 c :
  interleaving (ss1 ++ ss2) c = interleaving ss2 (interleaving ss1 c).
Proof. unfold interleaving. apply foldl_app. Qed.

Lemma step_sections r c :
  fst (SizeOrder.step r c) = interleaving (sections_of r c) c.
Proof.
  unfold SizeOrder.step, sections_of, interleaving.
  destruct (SizeOrder.req_call r) as [element key size|key|]; simpl.
  - unfold SizeOrder.updateElement.
    destruct (Z.leb (wrap_u64 size) (wrap_u64 (SizeOrder._nHardLimitInBytes c)))
      eqn:Hguard; simpl.
    + rewrite andb_true_r.
      assert (SizeOrder._nHardLimitInBytes
                (SizeOrder.updateElement_locked (SizeOrder.req_now r) element key
                   (wrap_u64 size) c) = SizeOrder._nHardLimitInBytes c) as ->.
      { unfold SizeOrder.updateElement_locked, SizeOrder.removeSizeWiseMarker.
        destruct (SizeOrder._mapOfPKWithElement c !! key); reflexivity. }
      destruct (Z.ltb _ _); reflexivity.
    + rewrite andb_false_r. reflexivity.
  - reflexivity.
  - destruct (SizeOrder._ThresholdThread c); reflexivity.
Qed.

Lemma run_interleaving rs : forall c,
  exists ss, fst (SizeOrder.run rs c) = interleaving ss c.
Proof.
  induction rs as [|r rs IH]; intros c; simpl.
  - exists []. reflexivity.
  - pose proof (step_sections r c) as Hstep.
    destruct (SizeOrder.step r c) as [c1 q1]. simpl in Hstep.
    destruct (IH c1) as [ss Hss].
    destruct (SizeOrder.run rs c1) as [c2 q2]. simpl in Hss.
    exists (sections_of r c ++ ss). simpl.
    now rewrite interleaving_app, <- Hstep.
Qed.

(** ** What the two loops of [cleanup] compute *)

Lemma elements_of_delete k m ks :
  k ∉ ks -> elements_of (delete k m) ks = elements_of m ks.
Proof.
  induction ks as [|x ks IH]; simpl; [reflexivity|].
  rewrite not_elem_of_cons. intros [Hne Hnin].
  rewrite lookup_delete_ne by congruence.
  rewrite (IH Hnin). reflexivity.
Qed.

Lemma foldr_delete_commute k ks (m : gmap Z LRUCacheElement) :
  foldr delete (delete k m) ks = delete k (foldr delete m ks).
Proof.
  induction ks as [|x ks IH]; simpl; [reflexivity|].
  rewrite IH. apply delete_delete.
Qed.

Lemma locked_cons live e es :
  locked live (e :: es) =
  if live (mWeakPointerElement e)
  then mWeakPointerElement e :: locked live es
  else locked live es.
Proof. reflexivity. Qed.

Lemma push_if_locked_app live e q es :
  push_if_locked live e q ++ locked live es = q ++ locked live (e :: es).
Proof.
  unfold push_if_locked. rewrite locked_cons.
  destruct (live (mWeakPointerElement e)); [|reflexivity].
  now rewrite <- app_assoc.
Qed.

Lemma cleanup_sizewise_spec live s m : forall total q,
  (forall p, p ∈ s -> exists e,
      m !! SizeOrder.nPrimaryKey p = Some e /\ mSize e = SizeOrder.nSize p) ->
  in_i64 total ->
  SizeOrder.cleanup_sizewise live s m total q =
  (wrap_i64 (total - entry_sizes s),
   q ++ locked live (elements_of m (map SizeOrder.nPrimaryKey s))).
Proof.
  induction s as [|p s IH]; intros total q Hent Htot; simpl.
  - rewrite Z.sub_0_r, wrap_i64_id by assumption.
    now rewrite app_nil_r.
  - destruct (Hent p) as (e & He & Hs); [apply elem_of_cons; now left|].
    rewrite He. rewrite IH.
    + rewrite wrap_i64_sub_l, push_if_locked_app, Hs.
      do 2 f_equal. lia.
    + intros p' Hp'. apply Hent, elem_of_cons. now right.
    + apply wrap_i64_range.
Qed.

Lemma cleanup_loop_spec live key soft l : forall m total q,
  NoDup l ->
  (forall k, k ∈ l -> is_Some (m !! k)) ->
  (forall k e, m !! k = Some e -> mPrimaryKey e = k) ->
  in_i64 total ->
  exists n : nat,
    (n <= length l)%nat /\
    SizeOrder.cleanup_loop live key soft l m total q =
    (drop n l, foldr delete m (take n l),
     wrap_i64 (total - sizes (List.filter (charged key) (elements_of m (take n l)))),
     q ++ locked live (List.filter (charged key) (elements_of m (take n l)))) /\
    (drop n l = [] \/
     wrap_i64 (total - sizes (List.filter (charged key) (elements_of m (take n l))))
       <= soft) /\
    (forall j : nat, (j < n)%nat ->
       soft <
       wrap_i64 (total - sizes (List.filter (charged key) (elements_of m (take j l))))).
Proof.
  induction l as [|k l IH]; intros m total q Hnd Hdom Hkey Htot.
  - exists 0%nat. simpl. rewrite Z.sub_0_r, wrap_i64_id, app_nil_r by assumption.
    repeat split; [lia|now left|lia].
  - simpl. destruct (Z.ltb_spec soft total) as [Hlt|Hge].
    2:{ exists 0%nat. simpl.
        rewrite Z.sub_0_r, wrap_i64_id, app_nil_r by assumption.
        repeat split; [lia|now right|lia]. }
    apply NoDup_cons in Hnd. destruct Hnd as [Hnin Hnd].
    destruct (Hdom k) as [el Hk]; [apply elem_of_cons; now left|].
    rewrite Hk. unfold getMarkSizeWiseCleanup. fold (charged key el).
    rewrite (Hkey _ _ Hk).
    assert (forall k', k' ∈ l -> is_Some (delete k m !! k')) as Hdom'.
    { intros k' Hin. rewrite lookup_delete_ne by congruence.
      apply Hdom, elem_of_cons. now right. }
    assert (forall k' e, delete k m !! k' = Some e -> mPrimaryKey e = k') as Hkey'.
    { intros k' e. destruct (decide (k' = k)) as [->|Hne].
      - rewrite lookup_delete_eq. discriminate.
      - rewrite lookup_delete_ne by congruence. apply Hkey. }
    assert (forall j, elements_of (delete k m) (take j l) = elements_of m (take j l))
      as Hel.
    { intros j. apply elements_of_delete. intros Hin. apply Hnin.
      exact (subseteq_take j l k Hin). }
    destruct (charged key el) eqn:Hch.
    + destruct (IH (delete k m) (wrap_i64 (total - mSize el))
                  (push_if_locked live el q) Hnd Hdom' Hkey' (wrap_i64_range _))
        as (n & Hn & Heq & Hstop & Hgo).
      exists (S n). simpl. rewrite Hk. simpl. rewrite Hch. simpl.
      rewrite Hel, wrap_i64_sub_l, foldr_delete_commute, push_if_locked_app in *.
      replace (total - (mSize el +
                 sizes (List.filter (charged key) (elements_of m (take n l)))))
        with (total - mSize el -
                 sizes (List.filter (charged key) (elements_of m (take n l))))
        by lia.
      repeat split; [lia|exact Heq|exact Hstop|].
      intros [|j] Hj; simpl.
      * now rewrite Z.sub_0_r, wrap_i64_id.
      * rewrite Hk. simpl. rewrite Hch. simpl.
        specialize (Hgo j ltac:(lia)).
        rewrite Hel, wrap_i64_sub_l in Hgo.
        replace (total - (mSize el +
                 sizes (List.filter (charged key) (elements_of m (take j l)))))
          with (total - mSize el -
                 sizes (List.filter (charged key) (elements_of m (take j l))))
          by lia.
        exact Hgo.
    + destruct (IH (delete k m) total q Hnd Hdom' Hkey' Htot)
        as (n & Hn & Heq & Hstop & Hgo).
      exists (S n). simpl. rewrite Hk. simpl. rewrite Hch.
      rewrite Hel, foldr_delete_commute in *.
      repeat split; [lia|exact Heq|exact Hstop|].
      intros [|j] Hj; simpl.
      * now rewrite Z.sub_0_r, wrap_i64_id.
      * rewrite Hk. simpl. rewrite Hch.
        specialize (Hgo j ltac:(lia)). now rewrite Hel in Hgo.
Qed.

Lemma entries_designate_marked_elements c :
  wf c ->
  Forall2 (fun p e =>
             mPrimaryKey e = SizeOrder.nPrimaryKey p /\
             mSize e = SizeOrder.nSize p /\
             mMarkSizeWiseCleanup e = true)
    (SizeOrder._mapOfElementsOrderSize c)
    (elements_of (SizeOrder._mapOfPKWithElement c)
       (map SizeOrder.nPrimaryKey (SizeOrder._mapOfElementsOrderSize c))).
Proof.
  intros Hwf. pose proof (wf_entry c Hwf) as Hent. pose proof (wf_key c Hwf) as Hkey.
  induction (SizeOrder._mapOfElementsOrderSize c) as [|p s IH]; simpl.
  - constructor.
  - destruct (Hent p) as (e & He & Hs & Hm); [apply elem_of_cons; now left|].
    rewrite He. constructor.
    + split; [exact (Hkey _ _ He)|]. split; assumption.
    + apply IH. intros p' Hp'. apply Hent, elem_of_cons. now right.
Qed.

(** The two loops together, on a consistent cache. *)
Lemma cleanup_spec live keyToSaveFromPurge c :
  wf c ->
  let s := SizeOrder._mapOfElementsOrderSize c in
  let m := SizeOrder._mapOfPKWithElement c in
  let l := SizeOrder._listOfElements c in
  let drained := elements_of m (map SizeOrder.nPrimaryKey s) in
  let t1 := wrap_i64 (SizeOrder._nTotalSizeOfCache c - entry_sizes s) in
  let walked (j : nat) :=
    List.filter (charged keyToSaveFromPurge) (elements_of m (take j l)) in
  exists n : nat,
    (n <= length l)%nat /\
    SizeOrder.cleanup live keyToSaveFromPurge c =
    (SizeOrder.with_state c (drop n l) (foldr delete m (take n l))
       (wrap_i64 (t1 - sizes (walked n))) [],
     locked live drained ++ locked live (walked n)) /\
    (drop n l = [] \/
     wrap_i64 (t1 - sizes (walked n)) <= SizeOrder._nSoftLimitInBytes c) /\
    (forall j : nat, (j < n)%nat ->
       SizeOrder._nSoftLimitInBytes c < wrap_i64 (t1 - sizes (walked j))).
Proof.
  intros Hwf s m l drained t1 walked.
  unfold SizeOrder.cleanup.
  rewrite (cleanup_sizewise_spec live s m).
  2:{ intros p Hp. destruct (wf_entry c Hwf p Hp) as (e & He & Hs & _). eauto. }
  2:{ apply (wf_total c Hwf). }
  destruct (cleanup_loop_spec live keyToSaveFromPurge (SizeOrder._nSoftLimitInBytes c)
              l m t1 ([] ++ locked live drained))
    as (n & Hn & Heq & Hstop & Hgo).
  - apply (wf_nodup c Hwf).
  - intros k Hk. now apply (wf_dom c Hwf).
  - apply (wf_key c Hwf).
  - apply wrap_i64_range.
  - exists n. fold s m l drained t1. rewrite Heq. simpl.
    repeat split; assumption.
Qed.

(** The guard of [updateElement]. *)
Lemma updateElement_rejected live now element key size c :
  wrap_u64 (SizeOrder._nHardLimitInBytes c) < wrap_u64 size ->
  SizeOrder.updateElement live now element key size c = (c, []) /\
  SizeOrder.updateElement_events live now element key size c = [].
Proof.
  intros H. unfold SizeOrder.updateElement, SizeOrder.updateElement_events.
  destruct (Z.leb_spec (wrap_u64 size) (wrap_u64 (SizeOrder._nHardLimitInBytes c)));
    [lia|]. split; reflexivity.
Qed.

Lemma updateElement_admitted live now element key size c :
  wrap_u64 size <= wrap_u64 (SizeOrder._nHardLimitInBytes c) ->
  SizeOrder.updateElement live now element key size c =
  let c1 := SizeOrder.updateElement_locked now element key (wrap_u64 size) c in
  if Z.ltb (SizeOrder._nHardLimitInBytes c) (SizeOrder._nTotalSizeOfCache c1)
  then SizeOrder.cleanup live (Some key) c1
  else (c1, []).
Proof.
  intros H. unfold SizeOrder.updateElement.
  destruct (Z.leb_spec (wrap_u64 size) (wrap_u64 (SizeOrder._nHardLimitInBytes c)));
    [|lia].
  unfold SizeOrder.updateElement_locked, SizeOrder.removeSizeWiseMarker.
  destruct (SizeOrder._mapOfPKWithElement c !! key); reflexivity.
Qed.

(** ** The eviction sweep *)

(** C2, the code on every [cleanup] call, and at an input where a drained
    element stays tracked.  The cache is any cache reached from an empty one
    by critical sections; these are the caches of all runs, and the cache
    on which [updateElement] calls [cleanup] with its key.  [cleanup] first
    handles all the entries of the size-ordered map, which are in the order
    larger size first and ascending key among equal sizes, and each of which
    designates a marked element with the key and the size of the entry: the
    objects of those elements whose weak pointer locks are queued in that
    order, the sum of the entry sizes is subtracted from the total whatever
    the locks give, the soft limit plays no part, and the size-ordered map
    is left empty.  Only then are the [n] oldest elements popped from the
    recency list and from the key map, where every pop happened with the
    total above the soft limit and the walk stopped on an empty list or on a
    total within the soft limit; of the popped elements only those neither
    marked nor protected are queued and subtracted.  The elements of the
    drained entries leave the recency list and the key map only if this walk
    pops them: when the total after the drain is within the soft limit,
    nothing is popped.  With soft limit 100 and threshold 5, key 1 of size 30
    is marked by the sweep; [cleanup] queues its object, subtracts its size
    and clears the size-ordered map, and the element is still in the recency
    list and in the key map, marked, with the total at 0. *)
Theorem cleanup_drains_but_keeps_drained_elements_tracked :
  (forall ss a b th sc live keyToSaveFromPurge,
     let c := interleaving ss (SizeOrder.init a b th sc) in
     let s := SizeOrder._mapOfElementsOrderSize c in
     let m := SizeOrder._mapOfPKWithElement c in
     let l := SizeOrder._listOfElements c in
     let drained := elements_of m (map SizeOrder.nPrimaryKey s) in
     let t1 := wrap_i64 (SizeOrder._nTotalSizeOfCache c - entry_sizes s) in
     let walked (j : nat) :=
       List.filter (charged keyToSaveFromPurge) (elements_of m (take j l)) in
     StronglySorted size_desc_key_asc s /\
     Forall2 (fun p e =>
                mPrimaryKey e = SizeOrder.nPrimaryKey p /\
                mSize e = SizeOrder.nSize p /\
                mMarkSizeWiseCleanup e = true) s drained /\
     (exists n : nat,
        (n <= length l)%nat /\
        SizeOrder.cleanup live keyToSaveFromPurge c =
        (SizeOrder.with_state c (drop n l) (foldr delete m (take n l))
           (wrap_i64 (t1 - sizes (walked n))) [],
         locked live drained ++ locked live (walked n)) /\
        (drop n l = [] \/
         wrap_i64 (t1 - sizes (walked n)) <= SizeOrder._nSoftLimitInBytes c) /\
        (forall j : nat, (j < n)%nat ->
           SizeOrder._nSoftLimitInBytes c < wrap_i64 (t1 - sizes (walked j)))) /\
     (t1 <= SizeOrder._nSoftLimitInBytes c ->
      SizeOrder.cleanup live keyToSaveFromPurge c =
      (SizeOrder.with_state c l m t1 [], locked live drained))) /\
  (forall rs a b th sc live now element key size,
     let c := fst (SizeOrder.run rs (SizeOrder.init a b th sc)) in
     wrap_u64 size <= wrap_u64 (SizeOrder._nHardLimitInBytes c) ->
     exists ss,
       let c1 := interleaving ss (SizeOrder.init a b th sc) in
       c1 = SizeOrder.updateElement_locked now element key (wrap_u64 size) c /\
       SizeOrder.updateElement live now element key size c =
         if Z.ltb (SizeOrder._nHardLimitInBytes c) (SizeOrder._nTotalSizeOfCache c1)
         then SizeOrder.cleanup live (Some key) c1
         else (c1, [])) /\
  (forall rs a b th sc,
     exists ss,
       fst (SizeOrder.run rs (SizeOrder.init a b th sc)) =
       interleaving ss (SizeOrder.init a b th sc)) /\
  (let c := fst (SizeOrder.run
                   [SizeOrder.mkRequest 1 alive (SizeOrder.Update 1%nat 1 30);
                    SizeOrder.mkRequest 5 alive SizeOrder.MarkStale]
                   (SizeOrder.init 100 150 5 10)) in
   let r := SizeOrder.cleanup alive None c in
   SizeOrder._mapOfElementsOrderSize c = [SizeOrder.mkSizePK 30 1] /\
   snd r = [1%nat] /\
   SizeOrder._nTotalSizeOfCache (fst r) = 0 /\
   SizeOrder._mapOfElementsOrderSize (fst r) = [] /\
   SizeOrder._listOfElements (fst r) = [1] /\
   SizeOrder._mapOfPKWithElement (fst r) !! 1 = Some (mkElement 1 30 1%nat 1 true)).
Proof.
  split; [|split; [|split]].
  - intros ss a b th sc live key c s m l drained t1 walked.
    assert (wf c) as Hwf by apply wf_interleaving, wf_init.
    split; [apply (wf_sorted c Hwf)|].
    split; [apply (entries_designate_marked_elements c Hwf)|].
    destruct (cleanup_spec live key c Hwf) as (n & Hn & Heq & Hstop & Hgo).
    fold s m l drained t1 walked in Heq, Hstop, Hgo.
    split; [exists n; auto|].
    intros Hsoft. destruct n as [|n].
    + rewrite Heq. unfold walked. simpl.
      rewrite Z.sub_0_r, wrap_i64_id by apply wrap_i64_range.
      now rewrite app_nil_r.
    + specialize (Hgo 0%nat ltac:(lia)). unfold walked in Hgo. simpl in Hgo.
      rewrite Z.sub_0_r, wrap_i64_id in Hgo by apply wrap_i64_range. lia.
  - intros rs a b th sc live now element key size c Hguard.
    destruct (run_interleaving rs (SizeOrder.init a b th sc)) as [ss Hss].
    fold c in Hss.
    exists (ss ++ [InUpdateElement now element key size]).
    rewrite interleaving_app, <- Hss. unfold interleaving. simpl.
    destruct (Z.leb_spec (wrap_u64 size) (wrap_u64 (SizeOrder._nHardLimitInBytes c)));
      [|lia].
    split; [reflexivity|]. now apply updateElement_admitted.
  - intros rs a b th sc. apply run_interleaving.
  - vm_compute. repeat split.
Qed.

(** ** Registration of an element *)

Lemma updateElement_locked_spec now element key size c :
  wf c ->
  let c1 := SizeOrder.updateElement_locked now element key size c in
  let old := SizeOrder._mapOfPKWithElement c !! key in
  SizeOrder._mapOfPKWithElement c1 =
    <[key := mkElement now (wrap_i64 size)
               (from_option mWeakPointerElement element old) key false]>
      (SizeOrder._mapOfPKWithElement c) /\
  SizeOrder._listOfElements c1 =
    list_erase key (SizeOrder._listOfElements c) ++ [key] /\
  (key ∉ list_erase key (SizeOrder._listOfElements c)) /\
  SizeOrder._nTotalSizeOfCache c1 =
    wrap_i64 (SizeOrder._nTotalSizeOfCache c - from_option mSize 0 old + size) /\
  (forall p, p ∈ SizeOrder._mapOfElementsOrderSize c1 <->
             p ∈ SizeOrder._mapOfElementsOrderSize c /\
             SizeOrder.nPrimaryKey p <> key).
Proof.
  intros [Hnd Hdom Hkey Htot Hsort Hent]. simpl.
  unfold SizeOrder.updateElement_locked, SizeOrder.removeSizeWiseMarker.
  destruct (SizeOrder._mapOfPKWithElement c !! key) as [el|] eqn:Hk;
    unfold updateAccessTime, setSize, setMarkSizeWiseCleanup; simpl.
  - rewrite (Hkey _ _ Hk).
    split; [reflexivity|]. split; [reflexivity|].
    split; [now apply list_erase_not_elem_of|].
    split; [now rewrite wrap_i64_add_l|].
    intros p. rewrite map_erase_elem_of_iff by assumption.
    split; intros [Hp Hne]; (split; [assumption|]).
    + intros Heq. destruct (Hent p Hp) as (e & He & Hs & _).
      rewrite Heq, Hk in He. injection He as <-.
      apply Hne. destruct p as [sp kp]; simpl in *. congruence.
    + intros ->. simpl in Hne. congruence.
  - assert (key ∉ SizeOrder._listOfElements c) as Hnin.
    { rewrite Hdom, Hk. intros [x Hx]; discriminate. }
    rewrite (list_erase_absent _ _ Hnin).
    split; [now rewrite insert_insert_eq|]. split; [reflexivity|].
    split; [assumption|].
    split; [f_equal; lia|].
    intros p. rewrite map_erase_elem_of_iff by assumption.
    split; intros [Hp Hne]; (split; [assumption|]).
    + intros Heq. destruct (Hent p Hp) as (e & He & _).
      rewrite Heq, Hk in He. discriminate.
    + intros ->. simpl in Hne. congruence.
Qed.

(** C3, as the code has it.  On every cache reached from an empty one, a
    call of [updateElement] with a size from zero up to the hard limit
    registers the key afresh: its element is unmarked, carries the new size
    and the current time, and keeps the weak pointer of an earlier
    registration; no entry of the size-ordered map carries the key any
    more; the key is the newest and only occurrence in the recency list; the
    total loses the old size of a refreshed element and gains the new size;
    the other elements are untouched.  [cleanup] then runs with the key
    protected when the total exceeds the hard limit. *)
Theorem updateElement_within_hard_limit_registers :
  forall rs a b th sc live now element key size,
    let c := fst (SizeOrder.run rs (SizeOrder.init a b th sc)) in
    in_i64 (SizeOrder._nHardLimitInBytes c) ->
    0 <= size <= SizeOrder._nHardLimitInBytes c ->
    let c1 := SizeOrder.updateElement_locked now element key size c in
    let old := SizeOrder._mapOfPKWithElement c !! key in
    SizeOrder.updateElement live now element key size c =
      (if Z.ltb (SizeOrder._nHardLimitInBytes c) (SizeOrder._nTotalSizeOfCache c1)
       then SizeOrder.cleanup live (Some key) c1
       else (c1, [])) /\
    SizeOrder._mapOfPKWithElement c1 !! key =
      Some (mkElement now size
              (from_option mWeakPointerElement element old) key false) /\
    (forall k, k <> key ->
       SizeOrder._mapOfPKWithElement c1 !! k =
       SizeOrder._mapOfPKWithElement c !! k) /\
    (forall p, p ∈ SizeOrder._mapOfElementsOrderSize c1 <->
               p ∈ SizeOrder._mapOfElementsOrderSize c /\
               SizeOrder.nPrimaryKey p <> key) /\
    SizeOrder._listOfElements c1 =
      list_erase key (SizeOrder._listOfElements c) ++ [key] /\
    (key ∉ list_erase key (SizeOrder._listOfElements c)) /\
    SizeOrder._nTotalSizeOfCache c1 =
      wrap_i64 (SizeOrder._nTotalSizeOfCache c - from_option mSize 0 old + size).
Proof.
  intros rs a b th sc live now element key size c Hhard Hsize c1 old.
  assert (wf c) as Hwf by apply wf_reachable.
  unfold in_i64 in Hhard.
  assert (wrap_u64 size = size) as Hu by (apply wrap_u64_small; lia).
  destruct (updateElement_locked_spec now element key size c Hwf)
    as (Hm & Hl & Hnin & Ht & Hs).
  fold c1 old in Hm, Hl, Ht, Hs.
  split.
  { rewrite updateElement_admitted; [now rewrite Hu|].
    rewrite Hu, wrap_u64_small by lia. lia. }
  split; [rewrite Hm, lookup_insert_eq, wrap_i64_id by (unfold in_i64; lia);
          reflexivity|].
  split; [intros k Hne; rewrite Hm; now apply lookup_insert_ne|].
  split; [exact Hs|]. split; [exact Hl|]. split; [exact Hnin|exact Ht].
Qed.

(** C3, witness: soft limit 100, hard limit 150, threshold 5.  Key 1 was
    registered at time 1 for object 1 with size 30, key 2 at time 2 with size
    20, and the sweep at time 6 marked both and entered them into the
    size-ordered map.  Registering key 1 again at time 7, for object 9 and
    with size 10, leaves the element of key 1 unmarked, of size 10, accessed
    at time 7 and still pointing to object 1; the entry (30, 1) has left the
    size-ordered map and the entry (20, 2) has stayed; the recency list is
    2, 1; and the total went from 50 to 30. *)
Lemma updateElement_within_hard_limit_registers_witness :
  let c := fst (SizeOrder.run
                  [SizeOrder.mkRequest 1 alive (SizeOrder.Update 1%nat 1 30);
                   SizeOrder.mkRequest 2 alive (SizeOrder.Update 2%nat 2 20);
                   SizeOrder.mkRequest 6 alive SizeOrder.MarkStale]
                  (SizeOrder.init 100 150 5 10)) in
  let c1 := SizeOrder.updateElement_locked 7 9%nat 1 10 c in
  (in_i64 (SizeOrder._nHardLimitInBytes c) /\
   0 <= 10 <= SizeOrder._nHardLimitInBytes c) /\
  (SizeOrder._mapOfPKWithElement c !! 1 = Some (mkElement 1 30 1%nat 1 true) /\
   SizeOrder._mapOfElementsOrderSize c =
     [SizeOrder.mkSizePK 30 1; SizeOrder.mkSizePK 20 2] /\
   SizeOrder._listOfElements c = [1; 2] /\
   SizeOrder._nTotalSizeOfCache c = 50) /\
  (SizeOrder.updateElement alive 7 9%nat 1 10 c = (c1, []) /\
   SizeOrder._mapOfPKWithElement c1 !! 1 = Some (mkElement 7 10 1%nat 1 false) /\
   SizeOrder._mapOfPKWithElement c1 !! 2 = Some (mkElement 2 20 2%nat 2 true) /\
   (SizeOrder.mkSizePK 30 1 ∉ SizeOrder._mapOfElementsOrderSize c1) /\
   (SizeOrder.mkSizePK 20 2 ∈ SizeOrder._mapOfElementsOrderSize c1) /\
   SizeOrder._listOfElements c1 = [2; 1] /\
   SizeOrder._nTotalSizeOfCache c1 = 30).
Proof.
  intros c c1.
  assert (in_i64 (SizeOrder._nHardLimitInBytes c)) as Hhard
    by (vm_compute; split; [discriminate|reflexivity]).
  assert (0 <= 10 <= SizeOrder._nHardLimitInBytes c) as Hsize
    by (vm_compute; split; discriminate).
  assert (SizeOrder._mapOfPKWithElement c !! 1 = Some (mkElement 1 30 1%nat 1 true))
    as Hold by (vm_compute; reflexivity).
  assert (SizeOrder._mapOfElementsOrderSize c =
          [SizeOrder.mkSizePK 30 1; SizeOrder.mkSizePK 20 2]) as Hmap
    by (vm_compute; reflexivity).
  assert (SizeOrder._listOfElements c = [1; 2]) as Hlist
    by (vm_compute; reflexivity).
  assert (SizeOrder._nTotalSizeOfCache c = 50) as Htotal
    by (vm_compute; reflexivity).
  pose proof (updateElement_within_hard_limit_registers
                [SizeOrder.mkRequest 1 alive (SizeOrder.Update 1%nat 1 30);
                 SizeOrder.mkRequest 2 alive (SizeOrder.Update 2%nat 2 20);
                 SizeOrder.mkRequest 6 alive SizeOrder.MarkStale]
                100 150 5 10 alive 7 9%nat 1 10 Hhard Hsize)
    as (Hrun & Hnew & Hothers & Hentries & Hrecency & _ & Hsum).
  fold c in Hrun, Hnew, Hothers, Hentries, Hrecency, Hsum.
  fold c1 in Hrun, Hnew, Hothers, Hentries, Hrecency, Hsum.
  split; [split; [exact Hhard|exact Hsize]|].
  split; [split; [exact Hold|split; [exact Hmap|split; [exact Hlist|exact Htotal]]]|].
  split.
  { rewrite Hrun, Hsum, Hold, Htotal. reflexivity. }
  split; [rewrite Hnew, Hold; reflexivity|].
  split; [rewrite (Hothers 2) by discriminate; vm_compute; reflexivity|].
  split.
  { rewrite Hentries. intros [_ Hne]. now apply Hne. }
  split.
  { rewrite Hentries, Hmap. split; [|discriminate].
    apply elem_of_cons. right. apply elem_of_cons. now left. }
  split; [rewrite Hrecency, Hlist; reflexivity|].
  rewrite Hsum, Hold, Htotal. reflexivity.
Defined.

(** C3, counterexample: with a hard limit of 40 neither the size 50 nor the
    negative size -5 (which reaches the [size_t] parameter as 2^64 - 5) is
    accepted: the call returns the empty cache it was given and key 1 is not
    registered. *)
Lemma updateElement_refuses_large_and_negative_sizes :
  let c := SizeOrder.init 20 40 0 0 in
  SizeOrder.updateElement (fun _ => true) 1 7%nat 1 50 c = (c, []) /\
  SizeOrder._mapOfPKWithElement
    (fst (SizeOrder.updateElement (fun _ => true) 1 7%nat 1 50 c)) !! 1 = None /\
  SizeOrder.updateElement (fun _ => true) 1 7%nat 1 (-5) c = (c, []) /\
  SizeOrder._mapOfPKWithElement
    (fst (SizeOrder.updateElement (fun _ => true) 1 7%nat 1 (-5) c)) !! 1 = None.
Proof. vm_compute. repeat split. Qed.

(** C10, the code at an input where a size above the hard limit is
    registered.  The guard [size <= _nHardLimitInBytes] compares a [size_t]
    with an [int64_t], so the hard limit is read as an unsigned number.
    While the hard limit is not negative this changes nothing: every
    [size_t] size larger than the hard limit is refused, the call returns
    the cache it was given, cleans no object and does not even take the
    lock.  A negative hard limit is read as a number of at least 2^63, and
    every size below 2^63 passes the guard.  With the hard limit -1 the
    size 5, which exceeds the hard limit, is registered: key 1 is in the key
    map and in the recency list, the total is 5, and [cleanup] is entered
    as well. *)
Theorem updateElement_reads_negative_hard_limit_as_unsigned :
  (forall live now element key size c,
     0 <= SizeOrder._nHardLimitInBytes c ->
     SizeOrder._nHardLimitInBytes c < size < 2 ^ 64 ->
     SizeOrder.updateElement live now element key size c = (c, []) /\
     SizeOrder.updateElement_events live now element key size c = []) /\
  (forall live now element key size c,
     - 2 ^ 63 <= SizeOrder._nHardLimitInBytes c < 0 ->
     0 <= size < 2 ^ 63 ->
     SizeOrder.updateElement live now element key size c =
     let c1 := SizeOrder.updateElement_locked now element key size c in
     if Z.ltb (SizeOrder._nHardLimitInBytes c) (SizeOrder._nTotalSizeOfCache c1)
     then SizeOrder.cleanup live (Some key) c1
     else (c1, [])) /\
  (let c := SizeOrder.init 20 (-1) 0 0 in
   let c' := fst (SizeOrder.updateElement alive 1 7%nat 1 5 c) in
   SizeOrder._nHardLimitInBytes c < 5 /\
   SizeOrder._mapOfPKWithElement c' !! 1 = Some (mkElement 1 5 7%nat 1 false) /\
   SizeOrder._listOfElements c' = [1] /\
   SizeOrder._nTotalSizeOfCache c' = 5 /\
   SizeOrder.updateElement_events alive 1 7%nat 1 5 c =
     [Acquire; Release; Acquire; Release]).
Proof.
  split; [|split].
  - intros live now element key size c H0 H1. apply updateElement_rejected.
    rewrite !wrap_u64_small by lia. lia.
  - intros live now element key size c Hneg Hsize.
    rewrite updateElement_admitted.
    + now rewrite (wrap_u64_small size) by lia.
    + rewrite (wrap_u64_small size) by lia.
      unfold wrap_u64.
      rewrite <- (Z_mod_plus_full (SizeOrder._nHardLimitInBytes c) 1 (2 ^ 64)).
      rewrite Z.mod_small by lia. lia.
  - vm_compute. repeat split.
Qed.

(** ** The protected key *)

Lemma elem_of_elements_of m ks e :
  e ∈ elements_of m ks -> exists k, k ∈ ks /\ m !! k = Some e.
Proof.
  induction ks as [|k ks IH]; simpl.
  - intros H. apply elem_of_nil in H. tauto.
  - destruct (m !! k) as [e'|] eqn:Hk.
    + rewrite elem_of_cons. intros [->|H].
      * exists k. split; [apply elem_of_cons; now left|assumption].
      * destruct (IH H) as (k' & Hin & Hk'). exists k'.
        split; [apply elem_of_cons; now right|assumption].
    + intros H. destruct (IH H) as (k' & Hin & Hk'). exists k'.
      split; [apply elem_of_cons; now right|assumption].
Qed.

Lemma elem_of_locked live es o :
  o ∈ locked live es -> exists e, e ∈ es /\ mWeakPointerElement e = o.
Proof.
  unfold locked. rewrite list_elem_of_In, filter_In, in_map_iff.
  intros [(e & He & Hin) _]. exists e. now rewrite list_elem_of_In.
Qed.


(** ** The total size and the tracked elements *)

(** C1, the code at three inputs where the total and the tracked sizes part.
    (1) Soft limit 20, hard limit 40: after key 1 with size 20 and key 2 with
    size 30, the [cleanup] triggered by the second call pops the protected
    key 2 without subtracting its size, so the total is 30 and no element is
    tracked.  (2) Soft limit 100, hard limit 150, threshold 5: key 1 with
    size 30 is marked by [checkAccessTime] and its size is subtracted by the
    first loop of [cleanup], but the second loop does not run, so the total
    is 0 and the element, of size 30, is still tracked.  (3) The plain
    cache with soft limit 20 and hard limit 40: after key 1 with size 50 the
    total is 50 and no element is tracked. *)
Theorem total_size_differs_from_tracked_sizes :
  (let c := fst (SizeOrder.run
                   [SizeOrder.mkRequest 1 alive (SizeOrder.Update 1%nat 1 20);
                    SizeOrder.mkRequest 2 alive (SizeOrder.Update 2%nat 2 30)]
                   (SizeOrder.init 20 40 0 0)) in
   SizeOrder._nTotalSizeOfCache c = 30 /\ SizeOrder.tracked_size c = 0 /\
   SizeOrder._listOfElements c = []) /\
  (let c := fst (SizeOrder.run
                   [SizeOrder.mkRequest 1 alive (SizeOrder.Update 1%nat 1 30);
                    SizeOrder.mkRequest 5 alive SizeOrder.MarkStale;
                    SizeOrder.mkRequest 6 alive (SizeOrder.Evict None)]
                   (SizeOrder.init 100 150 5 10)) in
   SizeOrder._nTotalSizeOfCache c = 0 /\ SizeOrder.tracked_size c = 30 /\
   SizeOrder._listOfElements c = [1]) /\
  (let c := fst (LRU.run
                   [LRU.mkRequest 1 alive (LRU.Update 1%nat 1 50)]
                   (LRU.new 20 40 0)) in
   LRU.mTotalSize c = 50 /\ LRU.tracked_size c = 0 /\
   LRU.mListOfElements c = []).
Proof. vm_compute. repeat split. Qed.

(** ** The element mutex and the owners' cleanup *)

(** The size-ordered cache cleans every queued object under the mutex. *)
Lemma SizeOrder_cleanup_cleans_locked live key c o q :
  snd (SizeOrder.cleanup live key c) = o :: q ->
  cleanup_while_locked false (SizeOrder.cleanup_events live key c) = true.
Proof. intros H. unfold SizeOrder.cleanup_events. rewrite H. reflexivity. Qed.

(** C5, the code at an input where an object is cleaned under the mutex.
    Soft limit 20, hard limit 40, key 1 registered with size 30 and its owner
    alive: [LRUCacheSizeOrder::cleanup] cleans object 1 between taking and
    releasing the element mutex, and an owner whose cleanup calls back into
    the cache takes the mutex a second time while it is held.  On the same
    cache [LRUCache::cleanup] releases the mutex first. *)
Theorem size_order_cleanup_cleans_under_the_lock :
  let c := fst (SizeOrder.run
                  [SizeOrder.mkRequest 1 alive (SizeOrder.Update 1%nat 1 30)]
                  (SizeOrder.init 20 40 0 0)) in
  SizeOrder.cleanup_events alive None c = [Acquire; Cleanup 1%nat; Release] /\
  cleanup_while_locked false (SizeOrder.cleanup_events alive None c) = true /\
  acquire_while_locked false
    (with_callback [Acquire; Release] (SizeOrder.cleanup_events alive None c)) = true /\
  LRU.cleanup_events alive None (SizeOrder.plain c) = [Acquire; Release; Cleanup 1%nat] /\
  cleanup_while_locked false (LRU.cleanup_events alive None (SizeOrder.plain c)) = false /\
  acquire_while_locked false
    (with_callback [Acquire; Release]
       (LRU.cleanup_events alive None (SizeOrder.plain c))) = false.
Proof. vm_compute. repeat split. Qed.

(** ** Construction *)

(** C7, as the code has it.  The constructor checks nothing: whatever the
    limits, it yields a cache that stores them as given, tracks no element,
    and has a cleaner thread and a threshold thread exactly when the
    respective interval is not zero. *)
Theorem constructor_accepts_every_configuration :
  forall maxSizeSoft maxSizeHard thresholdInSec cleanScheduleMs,
    exists c,
      SizeOrder.new maxSizeSoft maxSizeHard thresholdInSec cleanScheduleMs =
      SizeOrder.Constructed c /\
      SizeOrder._nSoftLimitInBytes c = maxSizeSoft /\
      SizeOrder._nHardLimitInBytes c = maxSizeHard /\
      SizeOrder._nThresholdInSec c = thresholdInSec /\
      SizeOrder._nCleanScheduleInSec c = cleanScheduleMs /\
      SizeOrder._listOfElements c = [] /\
      SizeOrder._mapOfPKWithElement c = ∅ /\
      SizeOrder._mapOfElementsOrderSize c = [] /\
      SizeOrder._nTotalSizeOfCache c = 0 /\
      SizeOrder._CleanerThread c = negb (Z.eqb cleanScheduleMs 0) /\
      SizeOrder._ThresholdThread c = negb (Z.eqb thresholdInSec 0).
Proof.
  intros. eexists. split; [reflexivity|]. simpl. repeat split.
Qed.

(** C7, counterexample: a hard limit of 20 under a soft limit of 40, and
    two negative limits, are both accepted: the constructor yields a cache
    and no configuration error. *)
Lemma constructor_accepts_misconfiguration :
  SizeOrder.new 40 20 0 0 = SizeOrder.Constructed (SizeOrder.init 40 20 0 0) /\
  SizeOrder.new 40 20 0 0 <> SizeOrder.ConfigurationError /\
  SizeOrder.new (-10) (-5) 0 0 = SizeOrder.Constructed (SizeOrder.init (-10) (-5) 0 0) /\
  SizeOrder.new (-10) (-5) 0 0 <> SizeOrder.ConfigurationError.
Proof. repeat split; discriminate. Qed.

(** ** Threshold zero: the plain cache *)

Lemma wrap_i64_add_r a b : wrap_i64 (a + wrap_i64 b) = wrap_i64 (a + b).
Proof. rewrite Z.add_comm, wrap_i64_add_l. f_equal. lia. Qed.

Lemma cleanup_loop_submap live key soft l : forall m total q l' m' t' q',
  SizeOrder.cleanup_loop live key soft l m total q = (l', m', t', q') ->
  forall k e, m' !! k = Some e -> m !! k = Some e.
Proof.
  induction l as [|x l IH]; intros m total q l' m' t' q'; simpl.
  - intros [= <- <- <- <-]. auto.
  - destruct (Z.ltb soft total); [|intros [= <- <- <- <-]; auto].
    destruct (m !! x) as [el|] eqn:Hx; [|apply IH].
    destruct (negb _ && _); intros Hloop k e Hk;
      apply (IH _ _ _ _ _ _ _ Hloop) in Hk;
      apply lookup_delete_Some in Hk; tauto.
Qed.

Lemma unmarked_updateElement_locked now element key size c :
  unmarked c -> unmarked (SizeOrder.updateElement_locked now element key size c).
Proof.
  intros [Hs Hm]. unfold SizeOrder.updateElement_locked, SizeOrder.removeSizeWiseMarker.
  rewrite Hs.
  destruct (SizeOrder._mapOfPKWithElement c !! key) as [el|] eqn:Hk;
    (split; [reflexivity|]); simpl; intros k e;
    (destruct (decide (k = key)) as [->|Hne];
      [rewrite lookup_insert_eq; intros [= <-]; reflexivity
      |rewrite !lookup_insert_ne by congruence; apply Hm]).
Qed.

Lemma unmarked_cleanup live key c :
  unmarked c -> unmarked (fst (SizeOrder.cleanup live key c)).
Proof.
  intros [Hs Hm]. unfold SizeOrder.cleanup.
  destruct (SizeOrder.cleanup_sizewise _ _ _ _ _) as [t1 q1].
  destruct (SizeOrder.cleanup_loop _ _ _ _ _ _ _) as [[[l m] t] q] eqn:Hloop.
  split; [reflexivity|]. simpl. intros k e Hk.
  eapply Hm, cleanup_loop_submap; eassumption.
Qed.

Lemma ThresholdThread_cleanup live key c :
  SizeOrder._ThresholdThread (fst (SizeOrder.cleanup live key c)) =
  SizeOrder._ThresholdThread c.
Proof.
  unfold SizeOrder.cleanup.
  destruct (SizeOrder.cleanup_sizewise _ _ _ _ _) as [t1 q1].
  destruct (SizeOrder.cleanup_loop _ _ _ _ _ _ _) as [[[l m] t] q].
  reflexivity.
Qed.

Lemma ThresholdThread_updateElement_locked now element key size c :
  SizeOrder._ThresholdThread (SizeOrder.updateElement_locked now element key size c) =
  SizeOrder._ThresholdThread c.
Proof.
  unfold SizeOrder.updateElement_locked, SizeOrder.removeSizeWiseMarker.
  destruct (SizeOrder._mapOfPKWithElement c !! key); reflexivity.
Qed.

Lemma unmarked_step r c :
  SizeOrder._ThresholdThread c = false -> unmarked c ->
  SizeOrder._ThresholdThread (fst (SizeOrder.step r c)) = false /\
  unmarked (fst (SizeOrder.step r c)).
Proof.
  intros Hth Hun. unfold SizeOrder.step. destruct (SizeOrder.req_call r).
  - unfold SizeOrder.updateElement.
    destruct (Z.leb _ _); [|split; assumption].
    destruct (Z.ltb _ _); simpl.
    + rewrite ThresholdThread_cleanup, ThresholdThread_updateElement_locked.
      split; [assumption|]. now apply unmarked_cleanup, unmarked_updateElement_locked.
    + rewrite ThresholdThread_updateElement_locked.
      split; [assumption|]. now apply unmarked_updateElement_locked.
  - rewrite ThresholdThread_cleanup. split; [assumption|]. now apply unmarked_cleanup.
  - rewrite Hth. split; assumption.
Qed.

Lemma unmarked_run rs : forall c,
  SizeOrder._ThresholdThread c = false -> unmarked c ->
  SizeOrder._ThresholdThread (fst (SizeOrder.run rs c)) = false /\
  unmarked (fst (SizeOrder.run rs c)).
Proof.
  induction rs as [|r rs IH]; intros c Hth Hun; simpl; [split; assumption|].
  destruct (unmarked_step r c Hth Hun) as [Hth1 Hun1].
  destruct (SizeOrder.step r c) as [c1 q1]. simpl in Hth1, Hun1.
  destruct (IH c1 Hth1 Hun1) as [Hth2 Hun2].
  destruct (SizeOrder.run rs c1) as [c2 q2]. split; assumption.
Qed.

Lemma cleanup_loop_plain live key soft l : forall m total q,
  (forall k e, m !! k = Some e -> mMarkSizeWiseCleanup e = false) ->
  SizeOrder.cleanup_loop live key soft l m total q =
  LRU.cleanup_loop live key soft l m total q.
Proof.
  induction l as [|x l IH]; intros m total q Hm; simpl; [reflexivity|].
  destruct (Z.ltb soft total); [|reflexivity].
  destruct (m !! x) as [el|] eqn:Hx; [|now apply IH].
  unfold getMarkSizeWiseCleanup. rewrite (Hm _ _ Hx). simpl.
  assert (forall k e, delete (mPrimaryKey el) m !! k = Some e ->
                      mMarkSizeWiseCleanup e = false) as Hm'.
  { intros k e Hk. apply lookup_delete_Some in Hk. apply (Hm k e). tauto. }
  destruct (match key with Some _ => _ | None => _ end); now apply IH.
Qed.

Lemma cleanup_plain live key c :
  unmarked c ->
  SizeOrder.cleanup_sizewise live (SizeOrder._mapOfElementsOrderSize c)
    (SizeOrder._mapOfPKWithElement c) (SizeOrder._nTotalSizeOfCache c) [] =
  (SizeOrder._nTotalSizeOfCache c, []) /\
  LRU.cleanup live key (SizeOrder.plain c) =
  (SizeOrder.plain (fst (SizeOrder.cleanup live key c)),
   snd (SizeOrder.cleanup live key c)).
Proof.
  intros [Hs Hm]. unfold SizeOrder.cleanup, LRU.cleanup. rewrite Hs. simpl.
  split; [reflexivity|].
  rewrite cleanup_loop_plain by assumption.
  destruct (LRU.cleanup_loop _ _ _ _ _ _ _) as [[[l m] t] q]. reflexivity.
Qed.

Lemma setMarkSizeWiseCleanup_false_id e :
  mMarkSizeWiseCleanup e = false -> setMarkSizeWiseCleanup false e = e.
Proof. destruct e; simpl; intros ->; reflexivity. Qed.

Lemma updateElement_locked_plain now element key size c :
  unmarked c ->
  SizeOrder.plain (SizeOrder.updateElement_locked now element key (wrap_u64 size) c) =
  LRU.updateElement_locked now element key (wrap_i64 size) (SizeOrder.plain c).
Proof.
  intros [Hs Hm].
  unfold SizeOrder.updateElement_locked, LRU.updateElement_locked,
    SizeOrder.removeSizeWiseMarker, SizeOrder.plain.
  simpl.
  destruct (SizeOrder._mapOfPKWithElement c !! key) as [el|] eqn:Hk; simpl.
  - rewrite (setMarkSizeWiseCleanup_false_id el (Hm _ _ Hk)).
    unfold LRU.with_state. simpl.
    rewrite wrap_i64_u64, wrap_i64_add_u64, wrap_i64_add_r. reflexivity.
  - unfold LRU.with_state. simpl.
    rewrite wrap_i64_u64, wrap_i64_add_u64, wrap_i64_add_r. reflexivity.
Qed.

Lemma updateElement_plain live now element key size c :
  unmarked c ->
  wrap_u64 size <= wrap_u64 (SizeOrder._nHardLimitInBytes c) ->
  LRU.updateElement live now element key size (SizeOrder.plain c) =
  (SizeOrder.plain (fst (SizeOrder.updateElement live now element key size c)),
   snd (SizeOrder.updateElement live now element key size c)).
Proof.
  intros Hun Hguard. rewrite updateElement_admitted by assumption.
  unfold LRU.updateElement. simpl.
  rewrite <- updateElement_locked_plain by assumption.
  pose proof (unmarked_updateElement_locked now element key (wrap_u64 size) c Hun)
    as Hun1.
  set (c1 := SizeOrder.updateElement_locked now element key (wrap_u64 size) c) in *.
  assert (SizeOrder._nHardLimitInBytes c1 = SizeOrder._nHardLimitInBytes c) as Hh.
  { unfold c1, SizeOrder.updateElement_locked, SizeOrder.removeSizeWiseMarker.
    destruct (SizeOrder._mapOfPKWithElement c !! key); reflexivity. }
  simpl. rewrite Hh.
  destruct (Z.ltb _ _); [|reflexivity].
  apply (cleanup_plain live (Some key) c1 Hun1).
Qed.

Lemma unmarked_init a b sc :
  SizeOrder._ThresholdThread (SizeOrder.init a b 0 sc) = false /\
  unmarked (SizeOrder.init a b 0 sc).
Proof.
  split; [reflexivity|]. split; [reflexivity|].
  simpl. intros k e. rewrite lookup_empty. discriminate.
Qed.

(** C8.  A cache constructed with threshold 0 has no threshold thread, so
    after any sequence of calls: a time-out of the threshold sweep does
    nothing; the size-ordered map is empty and no element is marked; the
    first loop of [cleanup] leaves the total as it is and queues nothing; and
    [cleanup] gives the state and the cleaned objects that [LRUCache::cleanup]
    gives on the same recency list, key map and total, that is eviction by
    recency alone.  A registration that passes the guard of [updateElement]
    coincides with [LRUCache::updateElement] as well. *)
Theorem zero_threshold_is_plain_lru :
  forall rs a b sc,
    let c := fst (SizeOrder.run rs (SizeOrder.init a b 0 sc)) in
    (forall now live,
       SizeOrder.step (SizeOrder.mkRequest now live SizeOrder.MarkStale) c = (c, [])) /\
    SizeOrder._mapOfElementsOrderSize c = [] /\
    (forall k e,
       SizeOrder._mapOfPKWithElement c !! k = Some e ->
       mMarkSizeWiseCleanup e = false) /\
    (forall live,
       SizeOrder.cleanup_sizewise live (SizeOrder._mapOfElementsOrderSize c)
         (SizeOrder._mapOfPKWithElement c) (SizeOrder._nTotalSizeOfCache c) [] =
       (SizeOrder._nTotalSizeOfCache c, [])) /\
    (forall live keyToSaveFromPurge,
       LRU.cleanup live keyToSaveFromPurge (SizeOrder.plain c) =
       (SizeOrder.plain (fst (SizeOrder.cleanup live keyToSaveFromPurge c)),
        snd (SizeOrder.cleanup live keyToSaveFromPurge c))) /\
    (forall live now element key size,
       wrap_u64 size <= wrap_u64 (SizeOrder._nHardLimitInBytes c) ->
       LRU.updateElement live now element key size (SizeOrder.plain c) =
       (SizeOrder.plain (fst (SizeOrder.updateElement live now element key size c)),
        snd (SizeOrder.updateElement live now element key size c))).
Proof.
  intros rs a b sc c.
  destruct (unmarked_init a b sc) as [Hth0 Hun0].
  destruct (unmarked_run rs _ Hth0 Hun0) as [Hth Hun]. fold c in Hth, Hun.
  split.
  { intros now live. unfold SizeOrder.step. simpl. now rewrite Hth. }
  split; [apply Hun|]. split; [apply Hun|].
  split; [intros live; apply (cleanup_plain live None c Hun)|].
  split; [intros live key; apply (cleanup_plain live key c Hun)|].
  intros live now element key size Hguard. now apply updateElement_plain.
Qed.

(** ** What the threshold sweep marks *)

Lemma scanned_subseteq now th m l k : k ∈ scanned now th m l -> k ∈ l.
Proof.
  induction l as [|x l IH]; simpl; [tauto|].
  destruct (m !! x) as [e|]; [destruct (negb _ && negb _)|];
    rewrite ?elem_of_cons, ?elem_of_nil; tauto.
Qed.

Lemma scanned_ext now th m1 m2 l :
  (forall k, k ∈ l -> m1 !! k = m2 !! k) ->
  scanned now th m1 l = scanned now th m2 l.
Proof.
  induction l as [|x l IH]; intros H; simpl; [reflexivity|].
  rewrite (H x) by (apply elem_of_cons; now left).
  rewrite IH by (intros k Hk; apply H, elem_of_cons; now right).
  reflexivity.
Qed.

Lemma setMarkSizeWiseCleanup_true_id e :
  mMarkSizeWiseCleanup e = true -> setMarkSizeWiseCleanup true e = e.
Proof. destruct e; simpl; intros ->; reflexivity. Qed.

Lemma checkAccessTime_loop_spec now th l : forall m s m' s',
  NoDup l ->
  (forall k, k ∈ l -> is_Some (m !! k)) ->
  (forall k e, m !! k = Some e -> mPrimaryKey e = k) ->
  SizeOrder.checkAccessTime_loop now th l m s = (m', s') ->
  (forall k,
     m' !! k =
     if bool_decide (k ∈ scanned now th m l)
     then setMarkSizeWiseCleanup true <$> m !! k
     else m !! k) /\
  (forall p,
     p ∈ s' <->
     p ∈ s \/
     exists k e,
       k ∈ scanned now th m l /\ m !! k = Some e /\
       mMarkSizeWiseCleanup e = false /\
       p = SizeOrder.mkSizePK (mSize e) k).
Proof.
  induction l as [|x l IH]; intros m s m' s' Hnd Hdom Hkey; simpl.
  - intros [= <- <-]. split; [reflexivity|].
    intros p. split; [tauto|]. intros [H|(k & e & Hk & _)]; [assumption|].
    apply elem_of_nil in Hk. tauto.
  - apply NoDup_cons in Hnd. destruct Hnd as [Hnin Hnd].
    destruct (Hdom x) as [e Hx]; [apply elem_of_cons; now left|].
    assert (forall k, k ∈ l -> is_Some (m !! k)) as Hdom'
      by (intros k Hk; apply Hdom, elem_of_cons; now right).
    assert (x ∉ scanned now th m l) as Hns
      by (intros H; apply Hnin; eapply scanned_subseteq; eassumption).
    rewrite Hx. unfold getMarkSizeWiseCleanup, getAccessTime.
    fold (past_threshold now th e).
    destruct (mMarkSizeWiseCleanup e) eqn:Hmark; simpl.
    + (* already marked: skipped *)
      intros Hloop. destruct (IH _ _ _ _ Hnd Hdom' Hkey Hloop) as [Hm Hs].
      split.
      * intros k. rewrite Hm. destruct (decide (k = x)) as [->|Hne].
        -- rewrite bool_decide_eq_false_2 by assumption.
           rewrite bool_decide_eq_true_2 by (apply elem_of_cons; now left).
           rewrite Hx. simpl. now rewrite setMarkSizeWiseCleanup_true_id.
        -- destruct (decide (k ∈ scanned now th m l)) as [Hin|Hout].
           ++ rewrite !bool_decide_eq_true_2;
                [reflexivity|apply elem_of_cons; now right|assumption].
           ++ rewrite !bool_decide_eq_false_2;
                [reflexivity|rewrite elem_of_cons; tauto|assumption].
      * intros p. rewrite Hs. split; (intros [H|(k & e' & Hk & He' & Hm' & Hp)];
          [now left|right]).
        -- exists k, e'. rewrite elem_of_cons. auto.
        -- exists k, e'. apply elem_of_cons in Hk. destruct Hk as [->|Hk]; [|auto].
           congruence.
    + destruct (past_threshold now th e) eqn:Hpast; simpl.
      * (* past the threshold: marked and entered *)
        intros Hloop. apply IH in Hloop; try assumption.
        2:{ intros k Hk. rewrite lookup_insert_ne by congruence. auto. }
        2:{ intros k e'. destruct (decide (k = x)) as [->|Hne].
            - rewrite lookup_insert_eq. intros [= <-]. simpl. eauto.
            - rewrite lookup_insert_ne by congruence. apply Hkey. }
        rewrite (scanned_ext now th _ m l) in Hloop
          by (intros k Hk; apply lookup_insert_ne; congruence).
        destruct Hloop as [Hm Hs]. split.
        -- intros k. rewrite Hm. destruct (decide (k = x)) as [->|Hne].
           ++ rewrite bool_decide_eq_false_2 by assumption.
              rewrite bool_decide_eq_true_2 by (apply elem_of_cons; now left).
              now rewrite lookup_insert_eq, Hx.
           ++ rewrite lookup_insert_ne by congruence.
              destruct (decide (k ∈ scanned now th m l)) as [Hin|Hout].
              ** rewrite !bool_decide_eq_true_2;
                   [reflexivity|apply elem_of_cons; now right|assumption].
              ** rewrite !bool_decide_eq_false_2;
                   [reflexivity|rewrite elem_of_cons; tauto|assumption].
        -- intros p. rewrite Hs, map_insert_elem_of, (Hkey _ _ Hx). split.
           ++ intros [[->|H]|(k & e' & Hk & He' & Hm' & Hp)].
              ** right. exists x, e. rewrite elem_of_cons. auto.
              ** now left.
              ** right. exists k, e'.
                 rewrite lookup_insert_ne in He' by congruence.
                 rewrite elem_of_cons. auto.
           ++ intros [H|(k & e' & Hk & He' & Hm' & Hp)]; [auto|].
              apply elem_of_cons in Hk. destruct Hk as [->|Hk].
              ** left. left. congruence.
              ** right. exists k, e'.
                 rewrite lookup_insert_ne by congruence. auto.
      * (* within the threshold: the scan stops *)
        intros [= <- <-]. split; [reflexivity|].
        intros p. split; [tauto|]. intros [H|(k & e' & Hk & _)]; [assumption|].
        apply elem_of_nil in Hk. tauto.
Qed.

Lemma scanned_prefix now th m l :
  (forall k, k ∈ l -> is_Some (m !! k)) ->
  (forall k e, k ∈ scanned now th m l -> m !! k = Some e ->
     mMarkSizeWiseCleanup e = false -> past_threshold now th e = true) /\
  exists rest,
    l = scanned now th m l ++ rest /\
    (rest = [] \/
     exists k e rest',
       rest = k :: rest' /\ m !! k = Some e /\
       mMarkSizeWiseCleanup e = false /\ past_threshold now th e = false).
Proof.
  induction l as [|x l IH]; intros Hdom; simpl.
  - split; [intros k e H; apply elem_of_nil in H; tauto|].
    exists []. split; [reflexivity|now left].
  - destruct (Hdom x) as [e Hx]; [apply elem_of_cons; now left|].
    destruct IH as [Hpast (rest & Hl & Hrest)];
      [intros k Hk; apply Hdom, elem_of_cons; now right|].
    rewrite Hx.
    destruct (negb (mMarkSizeWiseCleanup e) && negb (past_threshold now th e)) eqn:Hstop.
    + apply andb_true_iff in Hstop. rewrite !negb_true_iff in Hstop.
      split; [intros k e' H; apply elem_of_nil in H; tauto|].
      exists (x :: l). split; [reflexivity|]. right. exists x, e, l. tauto.
    + split.
      * intros k e' Hk He' Hm. apply elem_of_cons in Hk. destruct Hk as [->|Hk].
        -- rewrite Hx in He'. injection He' as <-. rewrite Hm in Hstop.
           simpl in Hstop. now apply negb_false_iff in Hstop.
        -- eapply Hpast; eassumption.
      * exists rest. split; [simpl; now f_equal|assumption].
Qed.

(** X1.  What the threshold sweep does, on every cache reached from an empty
    one.  [checkAccessTime] visits the recency list from the oldest element
    up to, and without, the first element that is neither marked nor past
    the threshold (current time - last access + 1 >= threshold); every
    unmarked element it visits is past the threshold, is marked, and is
    entered into the size-ordered map under its size and key; the elements
    it does not visit, the recency list and the total are unchanged. *)
Theorem checkAccessTime_marks_the_scanned_prefix :
  forall rs a b th sc now,
    let c := fst (SizeOrder.run rs (SizeOrder.init a b th sc)) in
    let c' := SizeOrder.checkAccessTime now c in
    let m := SizeOrder._mapOfPKWithElement c in
    let visited :=
      scanned now (SizeOrder._nThresholdInSec c) m (SizeOrder._listOfElements c) in
    SizeOrder._listOfElements c' = SizeOrder._listOfElements c /\
    SizeOrder._nTotalSizeOfCache c' = SizeOrder._nTotalSizeOfCache c /\
    (forall k,
       SizeOrder._mapOfPKWithElement c' !! k =
       if bool_decide (k ∈ visited)
       then setMarkSizeWiseCleanup true <$> m !! k
       else m !! k) /\
    (forall p,
       p ∈ SizeOrder._mapOfElementsOrderSize c' <->
       p ∈ SizeOrder._mapOfElementsOrderSize c \/
       exists k e,
         k ∈ visited /\ m !! k = Some e /\
         mMarkSizeWiseCleanup e = false /\
         p = SizeOrder.mkSizePK (mSize e) k) /\
    (forall k e, k ∈ visited -> m !! k = Some e ->
       mMarkSizeWiseCleanup e = false ->
       past_threshold now (SizeOrder._nThresholdInSec c) e = true) /\
    exists rest,
      SizeOrder._listOfElements c = visited ++ rest /\
      (rest = [] \/
       exists k e rest',
         rest = k :: rest' /\ m !! k = Some e /\
         mMarkSizeWiseCleanup e = false /\
         past_threshold now (SizeOrder._nThresholdInSec c) e = false).
Proof.
  intros rs a b th sc now c c' m visited.
  assert (wf c) as Hwf by apply wf_reachable.
  assert (forall k, k ∈ SizeOrder._listOfElements c -> is_Some (m !! k)) as Hdom
    by (intros k Hk; now apply (wf_dom c Hwf)).
  destruct (scanned_prefix now (SizeOrder._nThresholdInSec c) m
              (SizeOrder._listOfElements c) Hdom) as [Hpast Hrest].
  assert (SizeOrder._listOfElements c' = SizeOrder._listOfElements c /\
          SizeOrder._nTotalSizeOfCache c' = SizeOrder._nTotalSizeOfCache c /\
          SizeOrder.checkAccessTime_loop now (SizeOrder._nThresholdInSec c)
            (SizeOrder._listOfElements c) m (SizeOrder._mapOfElementsOrderSize c) =
          (SizeOrder._mapOfPKWithElement c', SizeOrder._mapOfElementsOrderSize c'))
    as (Hl & Ht & Hloop).
  { unfold c', SizeOrder.checkAccessTime. fold m.
    destruct (SizeOrder._listOfElements c) as [|x l] eqn:El;
      [simpl; split; [exact El|split; reflexivity]|].
    destruct (SizeOrder.checkAccessTime_loop _ _ _ _ _) as [m' s'].
    simpl. repeat split. }
  apply checkAccessTime_loop_spec in Hloop;
    [|apply (wf_nodup c Hwf)|assumption|apply (wf_key c Hwf)].
  destruct Hloop as [Hm Hs]. tauto.
Qed.

(** X2.  On every cache reached from an empty one the three containers
    agree: the recency list has no duplicates and holds exactly the keys of
    the key map, every element is stored under its own primary key, the
    entries of the size-ordered map are in the order larger size first and
    ascending key among equal sizes, and every entry designates a tracked
    element that is marked and has the size of the entry. *)
Theorem containers_stay_consistent :
  forall rs a b th sc,
    let c := fst (SizeOrder.run rs (SizeOrder.init a b th sc)) in
    NoDup (SizeOrder._listOfElements c) /\
    (forall k, k ∈ SizeOrder._listOfElements c <->
               is_Some (SizeOrder._mapOfPKWithElement c !! k)) /\
    (forall k e, SizeOrder._mapOfPKWithElement c !! k = Some e -> mPrimaryKey e = k) /\
    StronglySorted size_desc_key_asc (SizeOrder._mapOfElementsOrderSize c) /\
    (forall p, p ∈ SizeOrder._mapOfElementsOrderSize c ->
       SizeOrder.nPrimaryKey p ∈ SizeOrder._listOfElements c /\
       exists e,
         SizeOrder._mapOfPKWithElement c !! SizeOrder.nPrimaryKey p = Some e /\
         mSize e = SizeOrder.nSize p /\
         mMarkSizeWiseCleanup e = true).
Proof.
  intros rs a b th sc c.
  destruct (wf_reachable rs a b th sc) as [Hnd Hdom Hkey Htot Hsort Hent].
  fold c in Hnd, Hdom, Hkey, Hsort, Hent.
  repeat split; try assumption; try (now apply Hdom).
  - destruct (Hent p H) as (e & He & _). apply Hdom. eauto.
  - destruct (Hent p H) as (e & He & Hs & Hm). eauto.
Qed.

(** ** The test of the threshold sweep *)

Lemma foldr_delete_submap (m : gmap Z LRUCacheElement) ks k e :
  foldr delete m ks !! k = Some e -> m !! k = Some e.
Proof.
  induction ks as [|x ks IH]; simpl; [auto|].
  intros H. apply lookup_delete_Some in H. apply IH. tauto.
Qed.

Lemma marked_first_init a b th sc : marked_first (SizeOrder.init a b th sc).
Proof. constructor. Qed.

Lemma marked_first_updateElement_locked now element key size c :
  wf c -> marked_first c ->
  marked_first (SizeOrder.updateElement_locked now element key size c).
Proof.
  intros Hwf Hmf. unfold marked_first in *.
  destruct (updateElement_locked_spec now element key size c Hwf)
    as (Hm & Hl & Hnin & _).
  rewrite Hm, Hl. apply StronglySorted_app. split; [|split].
  - intros k1 k2 _ Hk2 e1 e2 _. apply list_elem_of_singleton in Hk2. subst k2.
    rewrite lookup_insert_eq. intros [= <-]. discriminate.
  - apply (StronglySorted_weaken
             (marked_before (SizeOrder._mapOfPKWithElement c))).
    + intros x y Hx Hy HR e1 e2.
      rewrite !lookup_insert_ne by (intros ->; contradiction). apply HR.
    + now apply StronglySorted_list_erase.
  - repeat constructor.
Qed.

Lemma marked_first_cleanup live key c :
  wf c -> marked_first c -> marked_first (fst (SizeOrder.cleanup live key c)).
Proof.
  intros Hwf Hmf. unfold marked_first in *.
  destruct (cleanup_spec live key c Hwf) as (n & _ & Heq & _).
  rewrite Heq. simpl.
  apply (StronglySorted_weaken (marked_before (SizeOrder._mapOfPKWithElement c))).
  - intros x y _ _ HR e1 e2 H1 H2.
    apply foldr_delete_submap in H1, H2. now apply HR.
  - rewrite <- (firstn_skipn n (SizeOrder._listOfElements c)) in Hmf.
    now apply StronglySorted_app_1_r in Hmf.
Qed.

Lemma checkAccessTime_loop_eq now c :
  let c' := SizeOrder.checkAccessTime now c in
  SizeOrder._listOfElements c' = SizeOrder._listOfElements c /\
  SizeOrder._nTotalSizeOfCache c' = SizeOrder._nTotalSizeOfCache c /\
  SizeOrder._nThresholdInSec c' = SizeOrder._nThresholdInSec c /\
  SizeOrder.checkAccessTime_loop now (SizeOrder._nThresholdInSec c)
    (SizeOrder._listOfElements c) (SizeOrder._mapOfPKWithElement c)
    (SizeOrder._mapOfElementsOrderSize c) =
  (SizeOrder._mapOfPKWithElement c', SizeOrder._mapOfElementsOrderSize c').
Proof.
  cbv zeta. unfold SizeOrder.checkAccessTime.
  destruct (SizeOrder._listOfElements c) as [|x l] eqn:El;
    [simpl; split; [exact El|repeat split]|].
  destruct (SizeOrder.checkAccessTime_loop _ _ _ _ _) as [m' s'].
  simpl. repeat split.
Qed.

Lemma marked_first_checkAccessTime now c :
  wf c -> marked_first c -> marked_first (SizeOrder.checkAccessTime now c).
Proof.
  intros Hwf Hmf. unfold marked_first in *.
  destruct (checkAccessTime_loop_eq now c) as (Hl & _ & _ & Hloop).
  rewrite Hl.
  assert (forall k, k ∈ SizeOrder._listOfElements c ->
            is_Some (SizeOrder._mapOfPKWithElement c !! k)) as Hdom
    by (intros k Hk; now apply (wf_dom c Hwf)).
  apply checkAccessTime_loop_spec in Hloop;
    [|apply (wf_nodup c Hwf)|assumption|apply (wf_key c Hwf)].
  destruct Hloop as [Hm _].
  destruct (scanned_prefix now (SizeOrder._nThresholdInSec c)
              (SizeOrder._mapOfPKWithElement c) (SizeOrder._listOfElements c) Hdom)
    as [_ (rest & Hsplit & _)].
  pose proof (wf_nodup c Hwf) as Hnd.
  set (pre := scanned now (SizeOrder._nThresholdInSec c)
                (SizeOrder._mapOfPKWithElement c) (SizeOrder._listOfElements c)) in *.
  rewrite Hsplit in Hmf, Hnd |- *.
  apply NoDup_app in Hnd. destruct Hnd as (_ & Hdisj & _).
  assert (forall x y, x ∈ pre ->
            marked_before
              (SizeOrder._mapOfPKWithElement (SizeOrder.checkAccessTime now c)) x y)
    as Hpre.
  { intros x y Hx e1 e2 H1 _ _. rewrite Hm in H1.
    rewrite bool_decide_eq_true_2 in H1 by assumption.
    destruct (SizeOrder._mapOfPKWithElement c !! x); [|discriminate].
    injection H1 as <-. reflexivity. }
  apply StronglySorted_app. split; [|split].
  - intros x y Hx _. now apply Hpre.
  - apply StronglySorted_total. intros x y Hx. now apply Hpre.
  - apply (StronglySorted_weaken (marked_before (SizeOrder._mapOfPKWithElement c))).
    + intros x y Hx Hy HR e1 e2. rewrite !Hm.
      rewrite !bool_decide_eq_false_2 by (intros H; eapply Hdisj; eassumption).
      apply HR.
    + now apply StronglySorted_app_1_r in Hmf.
Qed.

Lemma marked_first_step r c :
  wf c -> marked_first c -> marked_first (fst (SizeOrder.step r c)).
Proof.
  intros Hwf Hmf. unfold SizeOrder.step.
  destruct (SizeOrder.req_call r) as [el key size|key|].
  - unfold SizeOrder.updateElement.
    destruct (Z.leb _ _); [|assumption].
    destruct (Z.ltb _ _); simpl.
    + apply marked_first_cleanup; [now apply wf_updateElement_locked|].
      now apply marked_first_updateElement_locked.
    + now apply marked_first_updateElement_locked.
  - now apply marked_first_cleanup.
  - destruct (SizeOrder._ThresholdThread c); simpl; [|assumption].
    now apply marked_first_checkAccessTime.
Qed.

Lemma marked_first_run rs : forall c,
  wf c -> marked_first c -> marked_first (fst (SizeOrder.run rs c)).
Proof.
  induction rs as [|r rs IH]; intros c Hwf Hmf; simpl; [assumption|].
  pose proof (wf_step r c Hwf) as Hwf1.
  pose proof (marked_first_step r c Hwf Hmf) as Hmf1.
  destruct (SizeOrder.step r c) as [c1 q1]. simpl in Hwf1, Hmf1.
  specialize (IH c1 Hwf1 Hmf1).
  destruct (SizeOrder.run rs c1) as [c2 q2]. exact IH.
Qed.

Lemma past_threshold_exact now th c k e :
  ages_fit now c -> SizeOrder._mapOfPKWithElement c !! k = Some e ->
  (past_threshold now th e = true <-> th <= now - mLastAccessTime e + 1).
Proof.
  intros Hfit Hk. destruct (Hfit k e Hk) as [H1 H2].
  unfold past_threshold. rewrite (wrap_i64_id _ H1), (wrap_i64_id _ H2).
  apply Z.leb_le.
Qed.

(** C6, as the code has it.  On every cache reached from an empty one,
    [checkAccessTime] splits the recency list in two.  The first part is
    visited: each of its elements ends up marked, and each that was not
    marked passes the test current time - last access + 1 >= threshold and
    is entered into the size-ordered map under its size and key.  The second
    part is empty or starts with an unmarked element that fails the test,
    where the scan stops; its elements are left as they are, all of them
    unmarked and without an entry in the size-ordered map.  Nothing else
    enters the size-ordered map.  When the recency list is in the order of
    the last accesses, and the ages fit [time_t], the test decides for every
    unmarked element of the cache: it is marked and entered into the
    size-ordered map exactly when current time - last access + 1 >=
    threshold, and left alone exactly when not. *)
Theorem checkAccessTime_marks_when_age_plus_one_reaches_threshold :
  forall rs a b th sc now,
    let c := fst (SizeOrder.run rs (SizeOrder.init a b th sc)) in
    let c' := SizeOrder.checkAccessTime now c in
    let m := SizeOrder._mapOfPKWithElement c in
    let m' := SizeOrder._mapOfPKWithElement c' in
    let threshold := SizeOrder._nThresholdInSec c in
    exists pre rest,
      SizeOrder._listOfElements c = pre ++ rest /\
      SizeOrder._listOfElements c' = pre ++ rest /\
      (forall k, k ∈ pre ->
         exists e, m !! k = Some e /\
           m' !! k = Some (setMarkSizeWiseCleanup true e) /\
           (mMarkSizeWiseCleanup e = false ->
            past_threshold now threshold e = true /\
            SizeOrder.mkSizePK (mSize e) k ∈ SizeOrder._mapOfElementsOrderSize c')) /\
      (rest = [] \/
       exists k e rest',
         rest = k :: rest' /\ m !! k = Some e /\
         mMarkSizeWiseCleanup e = false /\ past_threshold now threshold e = false) /\
      (forall k, k ∈ rest ->
         exists e, m !! k = Some e /\ m' !! k = Some e /\
           mMarkSizeWiseCleanup e = false /\
           forall size, SizeOrder.mkSizePK size k ∉ SizeOrder._mapOfElementsOrderSize c') /\
      (forall p,
         p ∈ SizeOrder._mapOfElementsOrderSize c' <->
         p ∈ SizeOrder._mapOfElementsOrderSize c \/
         exists k e, k ∈ pre /\ m !! k = Some e /\
           mMarkSizeWiseCleanup e = false /\ p = SizeOrder.mkSizePK (mSize e) k) /\
      (ages_fit now c -> oldest_first c ->
       forall k e, m !! k = Some e -> mMarkSizeWiseCleanup e = false ->
         ((m' !! k = Some (setMarkSizeWiseCleanup true e) /\
           SizeOrder.mkSizePK (mSize e) k ∈ SizeOrder._mapOfElementsOrderSize c') <->
          threshold <= now - mLastAccessTime e + 1) /\
         ((m' !! k = Some e /\
           forall size, SizeOrder.mkSizePK size k ∉ SizeOrder._mapOfElementsOrderSize c') <->
          now - mLastAccessTime e + 1 < threshold)).
Proof.
  intros rs a b th sc now c c' m m' threshold.
  assert (wf c) as Hwf by apply wf_reachable.
  assert (marked_first c) as Hmf
    by (apply marked_first_run; [apply wf_init|apply marked_first_init]).
  assert (forall k, k ∈ SizeOrder._listOfElements c -> is_Some (m !! k)) as Hdom
    by (intros k Hk; now apply (wf_dom c Hwf)).
  destruct (checkAccessTime_loop_eq now c) as (Hl & _ & _ & Hloop).
  fold c' m m' threshold in Hl, Hloop.
  apply checkAccessTime_loop_spec in Hloop;
    [|apply (wf_nodup c Hwf)|assumption|apply (wf_key c Hwf)].
  destruct Hloop as [Hm Hs].
  destruct (scanned_prefix now threshold m (SizeOrder._listOfElements c) Hdom)
    as [Hpast (rest & Hsplit & Hrest)].
  set (pre := scanned now threshold m (SizeOrder._listOfElements c)) in *.
  pose proof (wf_nodup c Hwf) as Hnd. rewrite Hsplit in Hnd.
  apply NoDup_app in Hnd. destruct Hnd as (_ & Hdisj & _).
  assert (forall k, k ∈ pre ->
            exists e, m !! k = Some e /\
              m' !! k = Some (setMarkSizeWiseCleanup true e) /\
              (mMarkSizeWiseCleanup e = false ->
               past_threshold now threshold e = true /\
               SizeOrder.mkSizePK (mSize e) k ∈ SizeOrder._mapOfElementsOrderSize c'))
    as Hvisited.
  { intros k Hk.
    destruct (Hdom k) as [e He]; [rewrite Hsplit; apply elem_of_app; now left|].
    exists e. split; [exact He|]. split.
    - rewrite Hm, bool_decide_eq_true_2, He by assumption. reflexivity.
    - intros Hun. split; [eapply Hpast; eassumption|].
      apply Hs. right. exists k, e. auto. }
  assert (forall k, k ∈ rest ->
            exists e, m !! k = Some e /\ m' !! k = Some e /\
              mMarkSizeWiseCleanup e = false /\
              forall size,
                SizeOrder.mkSizePK size k ∉ SizeOrder._mapOfElementsOrderSize c')
    as Hlater.
  { intros k Hk.
    assert (k ∉ pre) as Hnpre by (intros H; eapply Hdisj; eassumption).
    destruct (Hdom k) as [e He]; [rewrite Hsplit; apply elem_of_app; now right|].
    assert (mMarkSizeWiseCleanup e = false) as Hun.
    { destruct Hrest as [->|(k0 & e0 & rest' & -> & He0 & Hun0 & _)];
        [apply elem_of_nil in Hk; tauto|].
      apply elem_of_cons in Hk. destruct Hk as [->|Hk]; [congruence|].
      unfold marked_first in Hmf. fold m in Hmf. rewrite Hsplit in Hmf.
      pose proof (StronglySorted_later _ _ _ _ _ Hmf Hk e0 e He0 He) as Hmark.
      destruct (mMarkSizeWiseCleanup e); [|reflexivity].
      rewrite Hmark in Hun0 by reflexivity. discriminate. }
    exists e. split; [exact He|]. split.
    - rewrite Hm, bool_decide_eq_false_2 by assumption. exact He.
    - split; [exact Hun|]. intros size Hin. apply Hs in Hin.
      destruct Hin as [Hin|(k' & e' & Hk' & _ & _ & Hp)].
      + destruct (wf_entry c Hwf _ Hin) as (e' & He' & _ & Hmark).
        simpl in He'. fold m in He'. congruence.
      + injection Hp as _ ->. contradiction. }
  exists pre, rest.
  split; [exact Hsplit|]. split; [now rewrite Hl|].
  split; [exact Hvisited|]. split; [exact Hrest|]. split; [exact Hlater|].
  split; [exact Hs|].
  intros Hfit Hold k e He Hun.
  pose proof (past_threshold_exact now threshold c k e Hfit He) as Hexact.
  assert (k ∈ pre \/ k ∈ rest) as [Hk|Hk].
  { apply elem_of_app. rewrite <- Hsplit. apply (wf_dom c Hwf). fold m. eauto. }
  - destruct (Hvisited k Hk) as (e1 & He1 & Hm1 & Hin1).
    assert (e1 = e) as -> by congruence.
    destruct (Hin1 Hun) as [Hp Hentry]. apply Hexact in Hp.
    split; split; try tauto; try lia.
    intros [Hsame _]. rewrite Hm1 in Hsame. injection Hsame as Hsame.
    rewrite <- Hsame in Hun. discriminate.
  - destruct (Hlater k Hk) as (e1 & He1 & Hm1 & _ & Hnone).
    assert (e1 = e) as -> by congruence.
    assert (now - mLastAccessTime e + 1 < threshold) as Hfresh.
    { destruct Hrest as [->|(k0 & e0 & rest' & -> & He0 & Hun0 & Hp0)];
        [apply elem_of_nil in Hk; tauto|].
      assert (now - mLastAccessTime e0 + 1 < threshold) as H0.
      { pose proof (past_threshold_exact now threshold c k0 e0 Hfit He0) as Hx.
        destruct (Z.le_gt_cases threshold (now - mLastAccessTime e0 + 1)) as [Hge|];
          [|lia].
        apply Hx in Hge. congruence. }
      apply elem_of_cons in Hk. destruct Hk as [->|Hk]; [congruence|].
      unfold oldest_first in Hold. fold m in Hold. rewrite Hsplit in Hold.
      pose proof (StronglySorted_later _ _ _ _ _ Hold Hk e0 e He0 He). lia. }
    split; split; try tauto; try lia.
    intros [Hmarked _]. rewrite Hm1 in Hmarked. injection Hmarked as Hmarked.
    rewrite Hmarked in Hun. discriminate.
Qed.

(** C6, witness: threshold 5; key 1 was registered at time 1 and key 2 at
    time 3.  At time 5 the element of key 1 (age 4, and 4 + 1 >= 5) is marked
    and entered into the size-ordered map, and the element of key 2 (age 2)
    is left as it is. *)
Lemma checkAccessTime_marks_when_age_plus_one_reaches_threshold_witness :
  let c := fst (SizeOrder.run
                  [SizeOrder.mkRequest 1 alive (SizeOrder.Update 1%nat 1 30);
                   SizeOrder.mkRequest 3 alive (SizeOrder.Update 2%nat 2 20)]
                  (SizeOrder.init 100 150 5 10)) in
  let c' := SizeOrder.checkAccessTime 5 c in
  (ages_fit 5 c /\ oldest_first c) /\
  (SizeOrder._mapOfPKWithElement c' !! 1 = Some (mkElement 1 30 1%nat 1 true) /\
   SizeOrder.mkSizePK 30 1 ∈ SizeOrder._mapOfElementsOrderSize c') /\
  (SizeOrder._mapOfPKWithElement c' !! 2 = Some (mkElement 3 20 2%nat 2 false) /\
   forall size, SizeOrder.mkSizePK size 2 ∉ SizeOrder._mapOfElementsOrderSize c').
Proof.
  intros c c'.
  assert (SizeOrder._mapOfPKWithElement c =
          <[2 := mkElement 3 20 2%nat 2 false]>
            (<[1 := mkElement 1 30 1%nat 1 false]> (∅ : gmap Z LRUCacheElement)))
    as Hmap by (vm_compute; reflexivity).
  assert (SizeOrder._mapOfPKWithElement c !! 1 = Some (mkElement 1 30 1%nat 1 false))
    as H1 by (vm_compute; reflexivity).
  assert (SizeOrder._mapOfPKWithElement c !! 2 = Some (mkElement 3 20 2%nat 2 false))
    as H2 by (vm_compute; reflexivity).
  assert (ages_fit 5 c) as Hfit.
  { intros k e. rewrite Hmap.
    destruct (decide (k = 2)) as [->|Hne2];
      [rewrite lookup_insert_eq; intros [= <-]; unfold in_i64; simpl; lia|].
    rewrite lookup_insert_ne by congruence.
    destruct (decide (k = 1)) as [->|Hne1];
      [rewrite lookup_insert_eq; intros [= <-]; unfold in_i64; simpl; lia|].
    rewrite lookup_insert_ne, lookup_empty by congruence. discriminate. }
  assert (oldest_first c) as Hold.
  { unfold oldest_first.
    replace (SizeOrder._listOfElements c) with [1; 2] by (vm_compute; reflexivity).
    repeat constructor. intros e1 e2. rewrite H1, H2.
    intros [= <-] [= <-]. simpl. lia. }
  destruct (checkAccessTime_marks_when_age_plus_one_reaches_threshold
              [SizeOrder.mkRequest 1 alive (SizeOrder.Update 1%nat 1 30);
               SizeOrder.mkRequest 3 alive (SizeOrder.Update 2%nat 2 20)]
              100 150 5 10 5)
    as (pre & rest & _ & _ & _ & _ & _ & _ & Hexact).
  fold c in Hexact. fold c' in Hexact.
  destruct (Hexact Hfit Hold 1 _ H1 eq_refl) as [[_ Hmarked] _].
  destruct (Hexact Hfit Hold 2 _ H2 eq_refl) as [_ [_ Hleft]].
  split; [split; [exact Hfit|exact Hold]|].
  split.
  - apply Hmarked. vm_compute. discriminate.
  - apply Hleft. vm_compute. reflexivity.
Defined.

(** C6, counterexample: an element within the threshold is marked.
    Threshold 5; key 1 was registered at time 1 and is not marked.  At time 5
    its age is 4, less than the threshold, and [checkAccessTime] marks it and
    enters it into the size-ordered map, because the test is
    age + 1 >= threshold. *)
Lemma checkAccessTime_marks_one_second_early :
  let c := fst (SizeOrder.run
                  [SizeOrder.mkRequest 1 alive (SizeOrder.Update 1%nat 1 30)]
                  (SizeOrder.init 100 150 5 10)) in
  let c' := SizeOrder.checkAccessTime 5 c in
  SizeOrder._mapOfPKWithElement c !! 1 = Some (mkElement 1 30 1%nat 1 false) /\
  5 - 1 < SizeOrder._nThresholdInSec c /\
  SizeOrder._mapOfPKWithElement c' !! 1 = Some (mkElement 1 30 1%nat 1 true) /\
  SizeOrder._mapOfElementsOrderSize c' = [SizeOrder.mkSizePK 30 1].
Proof. vm_compute. repeat split. Qed.

(** * Further properties of the two caches *)

(** ** Objects whose owner is gone are never cleaned *)

Lemma push_if_locked_live live e q :
  Forall (fun o => live o = true) q ->
  Forall (fun o => live o = true) (push_if_locked live e q).
Proof.
  intros Hq. unfold push_if_locked.
  destruct (live (mWeakPointerElement e)) eqn:Hl; [|assumption].
  apply Forall_app. split; [assumption|]. now repeat constructor.
Qed.

Lemma LRU_cleanup_loop_live live key soft l : forall m total q,
  Forall (fun o => live o = true) q ->
  Forall (fun o => live o = true)
    (snd (LRU.cleanup_loop live key soft l m total q)).
Proof.
  induction l as [|x l IH]; intros m total q Hq; simpl; [assumption|].
  destruct (Z.ltb soft total); [|assumption].
  destruct (m !! x) as [el|]; [|now apply IH].
  destruct (match key with Some _ => _ | None => _ end);
    apply IH; [now apply push_if_locked_live|assumption].
Qed.

Lemma cleanup_sizewise_live live s m : forall total q,
  Forall (fun o => live o = true) q ->
  Forall (fun o => live o = true)
    (snd (SizeOrder.cleanup_sizewise live s m total q)).
Proof.
  induction s as [|p s IH]; intros total q Hq; simpl; [assumption|].
  destruct (m !! SizeOrder.nPrimaryKey p); [|now apply IH].
  now apply IH, push_if_locked_live.
Qed.

Lemma cleanup_loop_live live key soft l : forall m total q,
  Forall (fun o => live o = true) q ->
  Forall (fun o => live o = true)
    (snd (SizeOrder.cleanup_loop live key soft l m total q)).
Proof.
  induction l as [|x l IH]; intros m total q Hq; simpl; [assumption|].
  destruct (Z.ltb soft total); [|assumption].
  destruct (m !! x) as [el|]; [|now apply IH].
  destruct (negb _ && _); apply IH; [now apply push_if_locked_live|assumption].
Qed.

Lemma LRU_cleanup_live live key c :
  Forall (fun o => live o = true) (snd (LRU.cleanup live key c)).
Proof.
  unfold LRU.cleanup.
  pose proof (LRU_cleanup_loop_live live key (LRU.mMaxSizeSoft c)
                (LRU.mListOfElements c) (LRU.mMapOfElements c)
                (LRU.mTotalSize c) [] (List.Forall_nil _)) as H.
  destruct (LRU.cleanup_loop _ _ _ _ _ _ _) as [[[l m] t] q]. exact H.
Qed.

Lemma SizeOrder_cleanup_live live key c :
  Forall (fun o => live o = true) (snd (SizeOrder.cleanup live key c)).
Proof.
  unfold SizeOrder.cleanup.
  pose proof (cleanup_sizewise_live live (SizeOrder._mapOfElementsOrderSize c)
                (SizeOrder._mapOfPKWithElement c) (SizeOrder._nTotalSizeOfCache c)
                [] (List.Forall_nil _)) as H1.
  destruct (SizeOrder.cleanup_sizewise _ _ _ _ _) as [t1 q1]. simpl in H1.
  pose proof (cleanup_loop_live live key (SizeOrder._nSoftLimitInBytes c)
                (SizeOrder._listOfElements c) (SizeOrder._mapOfPKWithElement c)
                t1 q1 H1) as H2.
  destruct (SizeOrder.cleanup_loop _ _ _ _ _ _ _) as [[[l m] t] q]. exact H2.
Qed.

(** X4.  Neither cache ever cleans an object whose weak pointer does not
    lock: every object cleaned by [cleanup] or by the eviction inside
    [updateElement], in [LRUCache] and in [LRUCacheSizeOrder], is one whose
    owner was still alive during the call. *)
Theorem only_live_objects_are_cleaned :
  forall live now element key size keyToSaveFromPurge c1 c2,
    Forall (fun o => live o = true)
      (snd (LRU.cleanup live keyToSaveFromPurge c1)) /\
    Forall (fun o => live o = true)
      (snd (LRU.updateElement live now element key size c1)) /\
    Forall (fun o => live o = true)
      (snd (SizeOrder.cleanup live keyToSaveFromPurge c2)) /\
    Forall (fun o => live o = true)
      (snd (SizeOrder.updateElement live now element key size c2)).
Proof.
  intros live now element key size ks c1 c2.
  split; [apply LRU_cleanup_live|].
  split.
  { unfold LRU.updateElement. destruct (Z.ltb _ _); [apply LRU_cleanup_live|constructor]. }
  split; [apply SizeOrder_cleanup_live|].
  unfold SizeOrder.updateElement.
  destruct (Z.leb _ _); [|constructor].
  destruct (Z.ltb _ _); [apply SizeOrder_cleanup_live|constructor].
Qed.

(** ** After a sweep *)

Lemma LRU_cleanup_loop_post live key soft l : forall m total q l' m' t' q',
  LRU.cleanup_loop live key soft l m total q = (l', m', t', q') ->
  l' = [] \/ t' <= soft.
Proof.
  induction l as [|x l IH]; intros m total q l' m' t' q'; simpl.
  - intros [= <- <- <- <-]. now left.
  - destruct (Z.ltb_spec soft total); [|intros [= <- <- <- <-]; now right].
    destruct (m !! x) as [el|]; [|apply IH].
    destruct (match key with Some _ => _ | None => _ end); apply IH.
Qed.

Lemma cleanup_loop_post live key soft l : forall m total q l' m' t' q',
  SizeOrder.cleanup_loop live key soft l m total q = (l', m', t', q') ->
  l' = [] \/ t' <= soft.
Proof.
  induction l as [|x l IH]; intros m total q l' m' t' q'; simpl.
  - intros [= <- <- <- <-]. now left.
  - destruct (Z.ltb_spec soft total); [|intros [= <- <- <- <-]; now right].
    destruct (m !! x) as [el|]; [|apply IH].
    destruct (negb _ && _); apply IH.
Qed.

Lemma LRU_cleanup_loop_stopped live key soft l m total q :
  l = [] \/ total <= soft ->
  LRU.cleanup_loop live key soft l m total q = (l, m, total, q).
Proof.
  intros [->|H]; [reflexivity|]. destruct l; [reflexivity|]. simpl.
  destruct (Z.ltb_spec soft total); [lia|reflexivity].
Qed.

Lemma cleanup_loop_stopped live key soft l m total q :
  l = [] \/ total <= soft ->
  SizeOrder.cleanup_loop live key soft l m total q = (l, m, total, q).
Proof.
  intros [->|H]; [reflexivity|]. destruct l; [reflexivity|]. simpl.
  destruct (Z.ltb_spec soft total); [lia|reflexivity].
Qed.

Lemma SizeOrder_cleanup_post live key c :
  let c' := fst (SizeOrder.cleanup live key c) in
  SizeOrder._mapOfElementsOrderSize c' = [] /\
  (SizeOrder._listOfElements c' = [] \/
   SizeOrder._nTotalSizeOfCache c' <= SizeOrder._nSoftLimitInBytes c') /\
  SizeOrder._nSoftLimitInBytes c' = SizeOrder._nSoftLimitInBytes c /\
  SizeOrder._nHardLimitInBytes c' = SizeOrder._nHardLimitInBytes c.
Proof.
  unfold SizeOrder.cleanup.
  destruct (SizeOrder.cleanup_sizewise _ _ _ _ _) as [t1 q1].
  destruct (SizeOrder.cleanup_loop _ _ _ _ _ _ _) as [[[l m] t] q] eqn:Hloop.
  simpl. apply cleanup_loop_post in Hloop. tauto.
Qed.

(** X5.  After [LRUCacheSizeOrder::cleanup], whatever the cache and the
    protected key, the size-ordered map is empty and either the recency list
    is empty or the total is within the soft limit; a second [cleanup] right
    after it, with any protected key and any owners alive, changes nothing
    and cleans nothing. *)
Theorem SizeOrder_cleanup_reaches_soft_limit_and_is_idempotent :
  forall live keyToSaveFromPurge c,
    let c' := fst (SizeOrder.cleanup live keyToSaveFromPurge c) in
    SizeOrder._mapOfElementsOrderSize c' = [] /\
    (SizeOrder._listOfElements c' = [] \/
     SizeOrder._nTotalSizeOfCache c' <= SizeOrder._nSoftLimitInBytes c) /\
    forall live' keyToSaveFromPurge',
      SizeOrder.cleanup live' keyToSaveFromPurge' c' = (c', []).
Proof.
  intros live key c c'.
  destruct (SizeOrder_cleanup_post live key c) as (Hs & Hpost & Hsoft & _).
  fold c' in Hs, Hpost, Hsoft.
  split; [exact Hs|]. split; [now rewrite <- Hsoft|].
  intros live' key'. unfold SizeOrder.cleanup. rewrite Hs. simpl.
  rewrite cleanup_loop_stopped by exact Hpost.
  destruct c'; simpl in *. now subst.
Qed.

(** X6.  After [LRUCache::cleanup], whatever the cache and the protected
    key, either the recency list is empty or the total is within the soft
    limit; a second [cleanup] right after it changes nothing and cleans
    nothing. *)
Theorem LRU_cleanup_reaches_soft_limit_and_is_idempotent :
  forall live keyToSaveFromPurge c,
    let c' := fst (LRU.cleanup live keyToSaveFromPurge c) in
    (LRU.mListOfElements c' = [] \/ LRU.mTotalSize c' <= LRU.mMaxSizeSoft c) /\
    forall live' keyToSaveFromPurge',
      LRU.cleanup live' keyToSaveFromPurge' c' = (c', []).
Proof.
  intros live key c. unfold LRU.cleanup.
  destruct (LRU.cleanup_loop _ _ _ _ _ _ _) as [[[l m] t] q] eqn:Hloop.
  apply LRU_cleanup_loop_post in Hloop. simpl.
  split; [exact Hloop|]. intros live' key'.
  now rewrite LRU_cleanup_loop_stopped.
Qed.

(** ** The hard limit *)

Lemma limits_updateElement_locked now element key size c :
  SizeOrder._nSoftLimitInBytes (SizeOrder.updateElement_locked now element key size c) =
    SizeOrder._nSoftLimitInBytes c /\
  SizeOrder._nHardLimitInBytes (SizeOrder.updateElement_locked now element key size c) =
    SizeOrder._nHardLimitInBytes c.
Proof.
  unfold SizeOrder.updateElement_locked, SizeOrder.removeSizeWiseMarker.
  destruct (SizeOrder._mapOfPKWithElement c !! key); split; reflexivity.
Qed.

Lemma checkAccessTime_frame now c :
  let c' := SizeOrder.checkAccessTime now c in
  SizeOrder._listOfElements c' = SizeOrder._listOfElements c /\
  SizeOrder._nTotalSizeOfCache c' = SizeOrder._nTotalSizeOfCache c /\
  SizeOrder._nSoftLimitInBytes c' = SizeOrder._nSoftLimitInBytes c /\
  SizeOrder._nHardLimitInBytes c' = SizeOrder._nHardLimitInBytes c.
Proof.
  cbv zeta. unfold SizeOrder.checkAccessTime.
  destruct (SizeOrder._listOfElements c) as [|x l] eqn:El.
  - rewrite El. repeat split.
  - destruct (SizeOrder.checkAccessTime_loop _ _ _ _ _) as [m' s'].
    simpl. repeat split.
Qed.

Lemma SizeOrder_step_within_limits r c :
  (SizeOrder._listOfElements c = [] \/
   SizeOrder._nTotalSizeOfCache c <=
   Z.max (SizeOrder._nSoftLimitInBytes c) (SizeOrder._nHardLimitInBytes c)) ->
  let c' := fst (SizeOrder.step r c) in
  SizeOrder._nSoftLimitInBytes c' = SizeOrder._nSoftLimitInBytes c /\
  SizeOrder._nHardLimitInBytes c' = SizeOrder._nHardLimitInBytes c /\
  (SizeOrder._listOfElements c' = [] \/
   SizeOrder._nTotalSizeOfCache c' <=
   Z.max (SizeOrder._nSoftLimitInBytes c) (SizeOrder._nHardLimitInBytes c)).
Proof.
  intros H. unfold SizeOrder.step. destruct (SizeOrder.req_call r) as [el key size|key|].
  - unfold SizeOrder.updateElement.
    destruct (Z.leb _ _); [|simpl; tauto].
    destruct (limits_updateElement_locked (SizeOrder.req_now r) el key
                (wrap_u64 size) c) as [Hs Hh].
    destruct (Z.ltb_spec
                (SizeOrder._nHardLimitInBytes
                   (SizeOrder.updateElement_locked (SizeOrder.req_now r) el key
                      (wrap_u64 size) c))
                (SizeOrder._nTotalSizeOfCache
                   (SizeOrder.updateElement_locked (SizeOrder.req_now r) el key
                      (wrap_u64 size) c))) as [Hlt|Hge].
    + destruct (SizeOrder_cleanup_post (SizeOrder.req_live r) (Some key)
                  (SizeOrder.updateElement_locked (SizeOrder.req_now r) el key
                     (wrap_u64 size) c)) as (_ & Hpost & Hs' & Hh').
      simpl in *. rewrite Hs', Hh', Hs, Hh. rewrite Hs', Hs in Hpost.
      split; [reflexivity|]. split; [reflexivity|].
      destruct Hpost; [now left|right; lia].
    + simpl. rewrite Hs, Hh. rewrite Hh in Hge.
      split; [reflexivity|]. split; [reflexivity|]. right. lia.
  - destruct (SizeOrder_cleanup_post (SizeOrder.req_live r) key c)
      as (_ & Hpost & Hs' & Hh').
    simpl in *. rewrite Hs', Hh'. rewrite Hs' in Hpost.
    split; [reflexivity|]. split; [reflexivity|].
    destruct Hpost; [now left|right; lia].
  - destruct (SizeOrder._ThresholdThread c); simpl; [|tauto].
    destruct (checkAccessTime_frame (SizeOrder.req_now r) c) as (Hl & Ht & Hs & Hh).
    simpl in *. rewrite Hl, Ht, Hs, Hh. tauto.
Qed.

(** X7.  The hard limit is enforced.  On every [LRUCacheSizeOrder] reached
    from an empty one by any sequence of calls, the limits are the ones of
    the constructor and either nothing is tracked or the total is at most the
    larger of the soft and the hard limit.  And after every
    [LRUCache::updateElement], on any cache, either nothing is tracked or the
    total is at most the larger of its two limits. *)
Theorem total_stays_within_the_limits :
  (forall rs a b th sc,
     let c := fst (SizeOrder.run rs (SizeOrder.init a b th sc)) in
     SizeOrder._nSoftLimitInBytes c = a /\
     SizeOrder._nHardLimitInBytes c = b /\
     (SizeOrder._listOfElements c = [] \/
      SizeOrder._nTotalSizeOfCache c <= Z.max a b)) /\
  (forall live now element key size c,
     let c' := fst (LRU.updateElement live now element key size c) in
     LRU.mListOfElements c' = [] \/
     LRU.mTotalSize c' <= Z.max (LRU.mMaxSizeSoft c) (LRU.mMaxSizeHard c)).
Proof.
  split.
  - intros rs a b th sc.
    assert (forall rs c,
              (SizeOrder._listOfElements c = [] \/
               SizeOrder._nTotalSizeOfCache c <=
               Z.max (SizeOrder._nSoftLimitInBytes c) (SizeOrder._nHardLimitInBytes c)) ->
              let c' := fst (SizeOrder.run rs c) in
              SizeOrder._nSoftLimitInBytes c' = SizeOrder._nSoftLimitInBytes c /\
              SizeOrder._nHardLimitInBytes c' = SizeOrder._nHardLimitInBytes c /\
              (SizeOrder._listOfElements c' = [] \/
               SizeOrder._nTotalSizeOfCache c' <=
               Z.max (SizeOrder._nSoftLimitInBytes c) (SizeOrder._nHardLimitInBytes c)))
      as Hrun.
    { clear. induction rs as [|r rs IH]; intros c H; simpl; [tauto|].
      destruct (SizeOrder_step_within_limits r c H) as (Hs & Hh & H1).
      destruct (SizeOrder.step r c) as [c1 q1]. simpl in Hs, Hh, H1.
      rewrite <- Hs, <- Hh in H1. specialize (IH c1 H1).
      destruct (SizeOrder.run rs c1) as [c2 q2]. simpl in *.
      rewrite Hs, Hh in IH. exact IH. }
    apply (Hrun rs (SizeOrder.init a b th sc)). now left.
  - intros live now element key size c. unfold LRU.updateElement. simpl.
    set (c1 := LRU.updateElement_locked now element key (wrap_i64 size) c).
    assert (LRU.mMaxSizeSoft c1 = LRU.mMaxSizeSoft c /\
            LRU.mMaxSizeHard c1 = LRU.mMaxSizeHard c) as [Hs Hh].
    { unfold c1, LRU.updateElement_locked.
      destruct (LRU.mMapOfElements c !! key); split; reflexivity. }
    destruct (Z.ltb_spec (LRU.mMaxSizeHard c1) (LRU.mTotalSize c1)) as [Hlt|Hge].
    + unfold LRU.cleanup.
      destruct (LRU.cleanup_loop _ _ _ _ _ _ _) as [[[l m] t] q] eqn:Hloop.
      apply LRU_cleanup_loop_post in Hloop. simpl. rewrite Hs in Hloop.
      destruct Hloop; [now left|right; lia].
    + simpl. right. lia.
Qed.

(** ** The key protected by [updateElement] *)













(** ** The order of the size-ordered map *)

(** X8.  [CompareSizePKPair] is a strict total order, as [std::map]
    requires of its comparator: it holds exactly when the first pair has the
    larger size, or the same size and the smaller key; it is irreflexive and
    transitive; of two different pairs exactly one is before the other. *)
Theorem CompareSizePKPair_is_a_strict_total_order :
  forall x y z,
    (SizeOrder.CompareSizePKPair x y = true <->
     SizeOrder.nSize y < SizeOrder.nSize x \/
     (SizeOrder.nSize x = SizeOrder.nSize y /\
      SizeOrder.nPrimaryKey x < SizeOrder.nPrimaryKey y)) /\
    SizeOrder.CompareSizePKPair x x = false /\
    (SizeOrder.CompareSizePKPair x y = true ->
     SizeOrder.CompareSizePKPair y z = true ->
     SizeOrder.CompareSizePKPair x z = true) /\
    (SizeOrder.CompareSizePKPair x y = true ->
     SizeOrder.CompareSizePKPair y x = false) /\
    (x = y \/ SizeOrder.CompareSizePKPair x y = true \/
     SizeOrder.CompareSizePKPair y x = true).
Proof.
  intros x y z.
  split; [apply CompareSizePKPair_spec|].
  split.
  { pose proof (size_desc_key_asc_irrefl x) as N.
    rewrite <- CompareSizePKPair_spec in N.
    destruct (SizeOrder.CompareSizePKPair x x); [tauto|reflexivity]. }
  split.
  { rewrite !CompareSizePKPair_spec. apply size_desc_key_asc_trans. }
  split.
  { intros H. apply CompareSizePKPair_spec in H.
    destruct (SizeOrder.CompareSizePKPair y x) eqn:E; [|reflexivity].
    apply CompareSizePKPair_spec in E. unfold size_desc_key_asc in *. lia. }
  destruct (SizeOrder.CompareSizePKPair x y) eqn:Exy; [tauto|].
  destruct (SizeOrder.CompareSizePKPair y x) eqn:Eyx; [tauto|].
  left. apply equivalent_eq. unfold SizeOrder.equivalent. now rewrite Exy, Eyx.
Qed.

Lemma map_erase_absent x m : x ∉ m -> SizeOrder.map_erase x m = m.
Proof.
  induction m as [|y m IH]; simpl; [reflexivity|].
  rewrite not_elem_of_cons. intros [Hne Hnin].
  destruct (SizeOrder.equivalent x y) eqn:E.
  - apply equivalent_eq in E. contradiction.
  - now rewrite IH.
Qed.

Lemma map_erase_insert x m :
  StronglySorted size_desc_key_asc m -> x ∉ m ->
  SizeOrder.map_erase x (SizeOrder.map_insert x m) = m.
Proof.
  induction 1 as [|y m Hm IH Hy]; simpl.
  - intros _. assert (SizeOrder.equivalent x x = true) as -> by now apply equivalent_eq.
    reflexivity.
  - rewrite not_elem_of_cons. intros [Hne Hnin].
    assert (SizeOrder.equivalent x x = true) as Hxx by now apply equivalent_eq.
    assert (SizeOrder.equivalent x y = false) as Hxy.
    { destruct (SizeOrder.equivalent x y) eqn:E; [|reflexivity].
      apply equivalent_eq in E. contradiction. }
    destruct (SizeOrder.CompareSizePKPair x y) eqn:Cxy; simpl.
    + now rewrite Hxx.
    + destruct (SizeOrder.CompareSizePKPair y x) eqn:Cyx; simpl.
      * rewrite Hxy. f_equal. now apply IH.
      * unfold SizeOrder.equivalent in Hxy. rewrite Cxy, Cyx in Hxy. discriminate.
Qed.

Lemma map_insert_present x m :
  StronglySorted size_desc_key_asc m -> x ∈ m -> SizeOrder.map_insert x m = m.
Proof.
  induction 1 as [|y m Hm IH Hy]; simpl.
  - intros H. apply elem_of_nil in H. tauto.
  - rewrite elem_of_cons. rewrite Forall_forall in Hy. intros [->|Hin].
    + pose proof (size_desc_key_asc_irrefl y) as N.
      rewrite <- CompareSizePKPair_spec in N.
      destruct (SizeOrder.CompareSizePKPair y y); [tauto|reflexivity].
    + pose proof (Hy _ Hin) as Hyx.
      assert (SizeOrder.CompareSizePKPair x y = false) as ->.
      { destruct (SizeOrder.CompareSizePKPair x y) eqn:E; [|reflexivity].
        apply CompareSizePKPair_spec in E. unfold size_desc_key_asc in *. lia. }
      apply CompareSizePKPair_spec in Hyx. rewrite Hyx. f_equal. now apply IH.
Qed.

(** X9.  The size-ordered map behaves as a [std::map] keyed by size and
    primary key.  On a map in comparator order: inserting a pair keeps the
    order and adds exactly that pair; inserting a pair that is present
    changes nothing; erasing keeps the order and removes exactly that pair;
    erasing a pair that is absent changes nothing; and erasing a pair right
    after inserting it, when it was absent, gives the map back. *)
Theorem size_ordered_map_insert_erase :
  forall x m,
    StronglySorted size_desc_key_asc m ->
    StronglySorted size_desc_key_asc (SizeOrder.map_insert x m) /\
    (forall p, p ∈ SizeOrder.map_insert x m <-> p = x \/ p ∈ m) /\
    (x ∈ m -> SizeOrder.map_insert x m = m) /\
    StronglySorted size_desc_key_asc (SizeOrder.map_erase x m) /\
    (forall p, p ∈ SizeOrder.map_erase x m <-> p ∈ m /\ p <> x) /\
    (x ∉ m -> SizeOrder.map_erase x m = m) /\
    (x ∉ m -> SizeOrder.map_erase x (SizeOrder.map_insert x m) = m).
Proof.
  intros x m Hm.
  split; [now apply map_insert_sorted|].
  split; [intros p; apply map_insert_elem_of|].
  split; [now apply map_insert_present|].
  split; [now apply map_erase_sorted|].
  split; [intros p; now apply map_erase_elem_of_iff|].
  split; [apply map_erase_absent|].
  now apply map_erase_insert.
Qed.

(** X9, witness: the five insertions of the example in the documentation of
    [SizePKPair], (100,2), (100,1), (200,3), (50,4), (100,5), give the order
    (200,3), (100,1), (100,2), (100,5), (50,4); the theorem applies to the
    map before the last insertion. *)
Lemma size_ordered_map_insert_erase_witness :
  let m4 := SizeOrder.map_insert (SizeOrder.mkSizePK 50 4)
              (SizeOrder.map_insert (SizeOrder.mkSizePK 200 3)
                 (SizeOrder.map_insert (SizeOrder.mkSizePK 100 1)
                    (SizeOrder.map_insert (SizeOrder.mkSizePK 100 2) []))) in
  StronglySorted size_desc_key_asc m4 /\
  SizeOrder.map_insert (SizeOrder.mkSizePK 100 5) m4 =
    [SizeOrder.mkSizePK 200 3; SizeOrder.mkSizePK 100 1;
     SizeOrder.mkSizePK 100 2; SizeOrder.mkSizePK 100 5;
     SizeOrder.mkSizePK 50 4] /\
  StronglySorted size_desc_key_asc
    (SizeOrder.map_insert (SizeOrder.mkSizePK 100 5) m4) /\
  SizeOrder.map_erase (SizeOrder.mkSizePK 100 5)
    (SizeOrder.map_insert (SizeOrder.mkSizePK 100 5) m4) = m4.
Proof.
  intros m4.
  assert (StronglySorted size_desc_key_asc m4) as Hm.
  { vm_compute. repeat constructor; unfold size_desc_key_asc; simpl; lia. }
  assert (SizeOrder.mkSizePK 100 5 ∉ m4) as Hnin.
  { intros H. apply list_elem_of_In in H. vm_compute in H.
    destruct H as [H|[H|[H|[H|[]]]]]; discriminate. }
  pose proof (size_ordered_map_insert_erase (SizeOrder.mkSizePK 100 5) m4 Hm)
    as (Hs & _ & _ & _ & _ & _ & Hround).
  split; [exact Hm|]. split; [vm_compute; reflexivity|].
  split; [exact Hs|exact (Hround Hnin)].
Defined.

(** ** The containers of the plain cache *)

Lemma lru_wf_new a b sc : lru_wf (LRU.new a b sc).
Proof.
  constructor; simpl.
  - constructor.
  - intros k. rewrite elem_of_nil, lookup_empty. split; [tauto|].
    intros [x Hx]; discriminate.
  - intros k e. rewrite lookup_empty. discriminate.
  - unfold in_i64. lia.
  - intros k e. rewrite lookup_empty. discriminate.
Qed.

Lemma LRU_updateElement_locked_spec now element key size c :
  lru_wf c ->
  let c1 := LRU.updateElement_locked now element key size c in
  let old := LRU.mMapOfElements c !! key in
  LRU.mMapOfElements c1 =
    <[key := mkElement now size
               (from_option mWeakPointerElement element old) key false]>
      (LRU.mMapOfElements c) /\
  LRU.mListOfElements c1 = list_erase key (LRU.mListOfElements c) ++ [key] /\
  (key ∉ list_erase key (LRU.mListOfElements c)) /\
  LRU.mTotalSize c1 =
    wrap_i64 (LRU.mTotalSize c - from_option mSize 0 old + size) /\
  LRU.mMaxSizeSoft c1 = LRU.mMaxSizeSoft c /\
  LRU.mMaxSizeHard c1 = LRU.mMaxSizeHard c.
Proof.
  intros [Hnd Hdom Hkey Htot Hun]. simpl. unfold LRU.updateElement_locked.
  destruct (LRU.mMapOfElements c !! key) as [el|] eqn:Hk;
    unfold updateAccessTime, setSize; simpl.
  - rewrite (Hkey _ _ Hk), (Hun _ _ Hk).
    split; [reflexivity|]. split; [reflexivity|].
    split; [now apply list_erase_not_elem_of|].
    split; [now rewrite wrap_i64_add_l|]. split; reflexivity.
  - assert (key ∉ LRU.mListOfElements c) as Hnin.
    { rewrite Hdom, Hk. intros [x Hx]; discriminate. }
    rewrite (list_erase_absent _ _ Hnin).
    split; [now rewrite insert_insert_eq|]. split; [reflexivity|].
    split; [assumption|].
    split; [f_equal; lia|]. split; reflexivity.
Qed.

Lemma lru_wf_updateElement_locked now element key size c :
  lru_wf c -> lru_wf (LRU.updateElement_locked now element key size c).
Proof.
  intros Hwf.
  destruct (LRU_updateElement_locked_spec now element key size c Hwf)
    as (Hm & Hl & Hnin & Ht & _).
  destruct Hwf as [Hnd Hdom Hkey Htot Hun].
  constructor.
  - rewrite Hl. apply NoDup_app. split; [now apply list_erase_NoDup|]. split.
    + intros x Hx Hx'. apply list_elem_of_singleton in Hx'. now subst x.
    + apply NoDup_singleton.
  - intros k. rewrite Hl, Hm, elem_of_app, list_elem_of_singleton.
    destruct (decide (k = key)) as [->|Hne].
    + rewrite lookup_insert_eq. split; [eauto|tauto].
    + rewrite lookup_insert_ne by congruence. rewrite <- Hdom. split.
      * intros [H|H]; [eapply list_erase_elem_of; eassumption|contradiction].
      * intros H. left. now apply list_erase_elem_of_ne.
  - intros k e. rewrite Hm. destruct (decide (k = key)) as [->|Hne].
    + rewrite lookup_insert_eq. intros [= <-]. reflexivity.
    + rewrite lookup_insert_ne by congruence. apply Hkey.
  - rewrite Ht. apply wrap_i64_range.
  - intros k e. rewrite Hm. destruct (decide (k = key)) as [->|Hne].
    + rewrite lookup_insert_eq. intros [= <-]. reflexivity.
    + rewrite lookup_insert_ne by congruence. apply Hun.
Qed.

Lemma lru_wf_cleanup live key c :
  lru_wf c -> lru_wf (fst (LRU.cleanup live key c)).
Proof.
  intros [Hnd Hdom Hkey Htot Hun]. unfold LRU.cleanup.
  rewrite <- cleanup_loop_plain by assumption.
  destruct (SizeOrder.cleanup_loop _ _ _ _ _ _ _) as [[[l m] t] q] eqn:Hloop.
  pose proof (cleanup_loop_submap _ _ _ _ _ _ _ _ _ _ _ Hloop) as Hsub.
  apply cleanup_loop_wf in Hloop; try assumption.
  destruct Hloop as (? & ? & ? & ?).
  constructor; simpl; try assumption.
  intros k e Hk. eapply Hun, Hsub, Hk.
Qed.

Lemma lru_wf_removeElement key c :
  lru_wf c -> lru_wf (LRU.removeElement key c).
Proof.
  intros [Hnd Hdom Hkey Htot Hun]. unfold LRU.removeElement.
  destruct (LRU.mMapOfElements c !! key) as [el|] eqn:Hk;
    [|constructor; assumption].
  constructor; simpl.
  - now apply list_erase_NoDup.
  - intros k. destruct (decide (k = key)) as [->|Hne].
    + rewrite lookup_delete_eq. split.
      * intros H. exfalso. exact (list_erase_not_elem_of _ _ Hnd H).
      * intros [x Hx]; discriminate.
    + rewrite lookup_delete_ne by congruence. rewrite <- Hdom. split.
      * apply list_erase_elem_of.
      * intros H. now apply list_erase_elem_of_ne.
  - intros k e Hd. apply lookup_delete_Some in Hd. apply (Hkey k e). tauto.
  - apply wrap_i64_range.
  - intros k e Hd. apply lookup_delete_Some in Hd. apply (Hun k e). tauto.
Qed.

Lemma lru_wf_step r c : lru_wf c -> lru_wf (fst (LRU.step r c)).
Proof.
  intros Hwf. unfold LRU.step. destruct (LRU.req_call r).
  - unfold LRU.updateElement. simpl. destruct (Z.ltb _ _).
    + now apply lru_wf_cleanup, lru_wf_updateElement_locked.
    + now apply lru_wf_updateElement_locked.
  - now apply lru_wf_removeElement.
  - now apply lru_wf_cleanup.
Qed.

Lemma lru_wf_run rs : forall c, lru_wf c -> lru_wf (fst (LRU.run rs c)).
Proof.
  induction rs as [|r rs IH]; intros c Hwf; simpl; [assumption|].
  pose proof (lru_wf_step r c Hwf) as H1.
  destruct (LRU.step r c) as [c1 q1]. simpl in H1.
  pose proof (IH c1 H1) as H2.
  destruct (LRU.run rs c1) as [c2 q2]. exact H2.
Qed.

Lemma lru_wf_reachable rs a b sc : lru_wf (fst (LRU.run rs (LRU.new a b sc))).
Proof. apply lru_wf_run, lru_wf_new. Qed.

(** X10.  On every [LRUCache] reached from an empty one by any sequence of
    [updateElement], [removeElement] and [cleanup] calls, the recency list
    has no duplicates and holds exactly the keys of the key map, and every
    element is stored under its own primary key. *)
Theorem LRU_containers_stay_consistent :
  forall rs a b sc,
    let c := fst (LRU.run rs (LRU.new a b sc)) in
    NoDup (LRU.mListOfElements c) /\
    (forall k, k ∈ LRU.mListOfElements c <->
               is_Some (LRU.mMapOfElements c !! k)) /\
    (forall k e, LRU.mMapOfElements c !! k = Some e -> mPrimaryKey e = k).
Proof.
  intros rs a b sc c.
  destruct (lru_wf_reachable rs a b sc) as [Hnd Hdom Hkey _ _].
  repeat split; try assumption; now apply Hdom.
Qed.

(** ** Eviction and registration in the plain cache *)

Lemma filter_charged_unmarked key m ks :
  (forall k e, m !! k = Some e -> mMarkSizeWiseCleanup e = false) ->
  List.filter (charged key) (elements_of m ks) =
  List.filter (unprotected key) (elements_of m ks).
Proof.
  intros Hun. induction ks as [|k ks IH]; simpl; [reflexivity|].
  destruct (m !! k) as [e|] eqn:Hk; [|exact IH]. simpl.
  unfold charged at 1. rewrite (Hun _ _ Hk). simpl.
  fold (unprotected key e). now rewrite IH.
Qed.

Lemma LRU_cleanup_spec live key c :
  lru_wf c ->
  let l := LRU.mListOfElements c in
  let m := LRU.mMapOfElements c in
  let walked (j : nat) :=
    List.filter (unprotected key) (elements_of m (take j l)) in
  exists n : nat,
    (n <= length l)%nat /\
    LRU.cleanup live key c =
    (LRU.mkCache (drop n l) (foldr delete m (take n l))
       (wrap_i64 (LRU.mTotalSize c - sizes (walked n)))
       (LRU.mMaxSizeSoft c) (LRU.mMaxSizeHard c) (LRU.mCleanScheduleMs c)
       (LRU.mCleanerThread c),
     locked live (walked n)) /\
    (drop n l = [] \/
     wrap_i64 (LRU.mTotalSize c - sizes (walked n)) <= LRU.mMaxSizeSoft c) /\
    (forall j : nat, (j < n)%nat ->
       LRU.mMaxSizeSoft c < wrap_i64 (LRU.mTotalSize c - sizes (walked j))).
Proof.
  intros [Hnd Hdom Hkey Htot Hun] l m walked.
  destruct (cleanup_loop_spec live key (LRU.mMaxSizeSoft c) l m (LRU.mTotalSize c) [])
    as (n & Hn & Heq & Hstop & Hgo); try assumption.
  { intros k Hk. now apply Hdom. }
  exists n. unfold LRU.cleanup. fold l m.
  rewrite <- cleanup_loop_plain by assumption. rewrite Heq.
  unfold walked. rewrite <- !filter_charged_unmarked by assumption.
  split; [exact Hn|]. split; [reflexivity|]. split; [exact Hstop|].
  intros j Hj. rewrite <- filter_charged_unmarked by assumption. now apply Hgo.
Qed.

(** X11.  Eviction in the plain cache, on every [LRUCache] reached from an
    empty one.  [cleanup] pops the [n] oldest elements from the recency list
    and the key map and leaves the others as they are; every pop happened
    with the total above the soft limit, and the walk stopped on an empty
    list or on a total within the soft limit; of the popped elements all but
    the protected one are subtracted from the total, and those among them
    whose weak pointer locks are cleaned, oldest first. *)
Theorem LRU_cleanup_evicts_oldest_first :
  forall rs a b sc live keyToSaveFromPurge,
    let c := fst (LRU.run rs (LRU.new a b sc)) in
    let l := LRU.mListOfElements c in
    let m := LRU.mMapOfElements c in
    let walked (j : nat) :=
      List.filter (unprotected keyToSaveFromPurge) (elements_of m (take j l)) in
    exists n : nat,
      (n <= length l)%nat /\
      LRU.cleanup live keyToSaveFromPurge c =
      (LRU.mkCache (drop n l) (foldr delete m (take n l))
         (wrap_i64 (LRU.mTotalSize c - sizes (walked n)))
         (LRU.mMaxSizeSoft c) (LRU.mMaxSizeHard c) (LRU.mCleanScheduleMs c)
         (LRU.mCleanerThread c),
       locked live (walked n)) /\
      (drop n l = [] \/
       wrap_i64 (LRU.mTotalSize c - sizes (walked n)) <= LRU.mMaxSizeSoft c) /\
      (forall j : nat, (j < n)%nat ->
         LRU.mMaxSizeSoft c < wrap_i64 (LRU.mTotalSize c - sizes (walked j))).
Proof.
  intros rs a b sc live key c. apply LRU_cleanup_spec, lru_wf_reachable.
Qed.

(** X12.  Registration in the plain cache, on every [LRUCache] reached from
    an empty one.  [updateElement] accepts every size, zero and negative
    ones included: under the lock the key gets an element with the new
    size and the current time, which keeps the weak pointer of an earlier
    registration; the key becomes the newest and only occurrence in the
    recency list; the total loses the old size of a refreshed element and
    gains the new size; the other elements are untouched.  [cleanup] then
    runs with the key protected exactly when the total exceeds the hard
    limit. *)
Theorem LRU_updateElement_registers_any_size :
  forall rs a b sc live now element key size,
    let c := fst (LRU.run rs (LRU.new a b sc)) in
    let c1 := LRU.updateElement_locked now element key (wrap_i64 size) c in
    let old := LRU.mMapOfElements c !! key in
    LRU.updateElement live now element key size c =
      (if Z.ltb (LRU.mMaxSizeHard c) (LRU.mTotalSize c1)
       then LRU.cleanup live (Some key) c1
       else (c1, [])) /\
    LRU.mMapOfElements c1 !! key =
      Some (mkElement now (wrap_i64 size)
              (from_option mWeakPointerElement element old) key false) /\
    (forall k, k <> key ->
       LRU.mMapOfElements c1 !! k = LRU.mMapOfElements c !! k) /\
    LRU.mListOfElements c1 = list_erase key (LRU.mListOfElements c) ++ [key] /\
    (key ∉ list_erase key (LRU.mListOfElements c)) /\
    LRU.mTotalSize c1 =
      wrap_i64 (LRU.mTotalSize c - from_option mSize 0 old + size).
Proof.
  intros rs a b sc live now element key size c c1 old.
  destruct (LRU_updateElement_locked_spec now element key (wrap_i64 size) c
              (lru_wf_reachable rs a b sc)) as (Hm & Hl & Hnin & Ht & _ & Hh).
  fold c c1 old in Hm, Hl, Hnin, Ht, Hh.
  split.
  { unfold LRU.updateElement. simpl. fold c1. now rewrite Hh. }
  split; [rewrite Hm; apply lookup_insert_eq|].
  split; [intros k Hne; rewrite Hm; now apply lookup_insert_ne|].
  split; [exact Hl|]. split; [exact Hnin|].
  rewrite Ht. apply wrap_i64_add_r.
Qed.

(** ** Removal from the plain cache *)

(** C9.  [removeElement] touches the bookkeeping only.  On every cache: it
    takes and releases the mutex and cleans no object; for a key that is not
    registered it returns the cache unchanged; afterwards the key is not in
    the key map, the elements of the other keys are as they were, the total
    has lost the size of the removed element, and the limits are untouched;
    a second call changes nothing, so removing twice is removing once.  On
    every cache reached from an empty one: the recency list afterwards is
    the list before without the key, the other keys in their order; the list
    and the key map still hold the same keys; and no later [cleanup] cleans
    the object of the removed element, unless another element points to the
    same object. *)
Theorem removeElement_is_idempotent_bookkeeping :
  forall key,
    (forall c,
       (forall o, Cleanup o ∉ LRU.removeElement_events key c) /\
       (forall now live,
          snd (LRU.step (LRU.mkRequest now live (LRU.Remove key)) c) = []) /\
       (LRU.mMapOfElements c !! key = None -> LRU.removeElement key c = c) /\
       LRU.mMapOfElements (LRU.removeElement key c) !! key = None /\
       (forall k, k <> key ->
          LRU.mMapOfElements (LRU.removeElement key c) !! k =
          LRU.mMapOfElements c !! k) /\
       LRU.mTotalSize (LRU.removeElement key c) =
         match LRU.mMapOfElements c !! key with
         | Some e => wrap_i64 (LRU.mTotalSize c - mSize e)
         | None => LRU.mTotalSize c
         end /\
       (LRU.mMaxSizeSoft (LRU.removeElement key c) = LRU.mMaxSizeSoft c /\
        LRU.mMaxSizeHard (LRU.removeElement key c) = LRU.mMaxSizeHard c) /\
       LRU.removeElement key (LRU.removeElement key c) = LRU.removeElement key c) /\
    (forall rs a b sc,
       let c := fst (LRU.run rs (LRU.new a b sc)) in
       let c' := LRU.removeElement key c in
       LRU.mListOfElements c' =
         List.filter (fun k => negb (Z.eqb k key)) (LRU.mListOfElements c) /\
       (key ∉ LRU.mListOfElements c') /\
       (forall k, k ∈ LRU.mListOfElements c' <->
                  is_Some (LRU.mMapOfElements c' !! k)) /\
       (forall live keyToSaveFromPurge e,
          LRU.mMapOfElements c !! key = Some e ->
          (forall k e', k <> key -> LRU.mMapOfElements c !! k = Some e' ->
             mWeakPointerElement e' <> mWeakPointerElement e) ->
          mWeakPointerElement e ∉ snd (LRU.cleanup live keyToSaveFromPurge c'))).
Proof.
  intros key. split.
  - intros c.
    assert (LRU.mMapOfElements (LRU.removeElement key c) !! key = None) as Hgone.
    { unfold LRU.removeElement.
      destruct (LRU.mMapOfElements c !! key) eqn:Hk; simpl; [|assumption].
      apply lookup_delete_eq. }
    split.
    { intros o. unfold LRU.removeElement_events.
      rewrite !elem_of_cons, elem_of_nil. intros [H|[H|[]]]; discriminate. }
    split; [reflexivity|].
    split; [intros Hk; unfold LRU.removeElement; now rewrite Hk|].
    split; [exact Hgone|].
    split.
    { intros k Hne. unfold LRU.removeElement.
      destruct (LRU.mMapOfElements c !! key); simpl; [|reflexivity].
      apply lookup_delete_ne. congruence. }
    split.
    { unfold LRU.removeElement.
      destruct (LRU.mMapOfElements c !! key); reflexivity. }
    split.
    { unfold LRU.removeElement.
      destruct (LRU.mMapOfElements c !! key); split; reflexivity. }
    unfold LRU.removeElement at 1. now rewrite Hgone.
  - intros rs a b sc c c'.
    assert (lru_wf c) as Hwf by apply lru_wf_reachable.
    assert (lru_wf c') as Hwf' by now apply lru_wf_removeElement.
    assert (LRU.mListOfElements c' =
            List.filter (fun k => negb (Z.eqb k key)) (LRU.mListOfElements c))
      as Hlist.
    { rewrite <- list_erase_filter by apply (lru_nodup c Hwf).
      unfold c', LRU.removeElement.
      destruct (LRU.mMapOfElements c !! key) eqn:Hk; simpl; [reflexivity|].
      symmetry. apply list_erase_absent.
      rewrite (lru_dom c Hwf), Hk. intros [x Hx]. discriminate. }
    split; [exact Hlist|].
    split.
    { rewrite Hlist, list_elem_of_In, filter_In, Z.eqb_refl.
      intros [_ H]. discriminate. }
    split; [apply (lru_dom c' Hwf')|].
    intros live key' e Hk Huniq Hin.
    destruct (LRU_cleanup_spec live key' c' Hwf') as (n & _ & Heq & _).
    rewrite Heq in Hin. simpl in Hin.
    apply elem_of_locked in Hin. destruct Hin as (e' & He' & Hw).
    apply list_elem_of_In, filter_In in He'. destruct He' as [He' _].
    apply list_elem_of_In, elem_of_elements_of in He'.
    destruct He' as (k & _ & Hlk).
    assert (k <> key) as Hne.
    { intros ->. unfold c', LRU.removeElement in Hlk. rewrite Hk in Hlk.
      simpl in Hlk. rewrite lookup_delete_eq in Hlk. discriminate. }
    unfold c', LRU.removeElement in Hlk. rewrite Hk in Hlk. simpl in Hlk.
    rewrite lookup_delete_ne in Hlk by congruence.
    exact (Huniq k e' Hne Hlk Hw).
Qed.

(** C9, witness: keys 1, 2 and 3 are registered in this order with sizes
    10, 20 and 30.  Removing key 2 leaves the recency list 1, 3 and the
    total 40, and a [cleanup] that then evicts everything cleans the objects
    of keys 1 and 3 only.  Removing a key that is not registered returns the
    cache as it is. *)
Lemma removeElement_is_idempotent_bookkeeping_witness :
  let rs := [LRU.mkRequest 1 alive (LRU.Update 1%nat 1 10);
             LRU.mkRequest 2 alive (LRU.Update 2%nat 2 20);
             LRU.mkRequest 3 alive (LRU.Update 3%nat 3 30)] in
  let c := fst (LRU.run rs (LRU.new 0 100 0)) in
  LRU.mListOfElements c = [1; 2; 3] /\
  LRU.mListOfElements (LRU.removeElement 2 c) = [1; 3] /\
  LRU.mTotalSize (LRU.removeElement 2 c) = 40 /\
  (2%nat ∉ snd (LRU.cleanup alive None (LRU.removeElement 2 c))) /\
  snd (LRU.cleanup alive None (LRU.removeElement 2 c)) = [1%nat; 3%nat] /\
  LRU.removeElement 7 c = c.
Proof.
  intros rs c.
  assert (LRU.mListOfElements c = [1; 2; 3]) as Hl by (vm_compute; reflexivity).
  assert (LRU.mMapOfElements c !! 2 = Some (mkElement 2 20 2%nat 2 false)) as H2
    by (vm_compute; reflexivity).
  assert (LRU.mMapOfElements c !! 7 = None) as H7 by (vm_compute; reflexivity).
  assert (LRU.mTotalSize c = 60) as Ht by (vm_compute; reflexivity).
  assert (forall k e', k <> 2 -> LRU.mMapOfElements c !! k = Some e' ->
            mWeakPointerElement e' <> 2%nat) as Huniq.
  { intros k e' Hne.
    replace (LRU.mMapOfElements c)
      with (<[3 := mkElement 3 30 3%nat 3 false]>
              (<[2 := mkElement 2 20 2%nat 2 false]>
                 (<[1 := mkElement 1 10 1%nat 1 false]>
                    (∅ : gmap Z LRUCacheElement))))
      by (vm_compute; reflexivity).
    destruct (decide (k = 3)) as [->|Hne3];
      [rewrite lookup_insert_eq; intros [= <-]; discriminate|].
    rewrite lookup_insert_ne by congruence.
    rewrite lookup_insert_ne by congruence.
    destruct (decide (k = 1)) as [->|Hne1];
      [rewrite lookup_insert_eq; intros [= <-]; discriminate|].
    rewrite lookup_insert_ne, lookup_empty by congruence. discriminate. }
  pose proof (removeElement_is_idempotent_bookkeeping 2) as [Hany Hrun].
  destruct (Hany c) as (_ & _ & _ & _ & _ & Htotal & _).
  destruct (Hrun rs 0 100 0) as (Hlist & _ & _ & Hlater).
  fold c in Hlist, Hlater.
  pose proof (removeElement_is_idempotent_bookkeeping 7) as [Hany7 _].
  destruct (Hany7 c) as (_ & _ & Habsent & _).
  split; [exact Hl|].
  split; [rewrite Hlist, Hl; reflexivity|].
  split; [rewrite Htotal, H2, Ht; reflexivity|].
  split; [exact (Hlater alive None _ H2 Huniq)|].
  split; [vm_compute; reflexivity|].
  exact (Habsent H7).
Defined.

(** ** The total size of the plain cache *)

Lemma wrap_i64_sub_r a b : wrap_i64 (a - wrap_i64 b) = wrap_i64 (a - b).
Proof.
  unfold wrap_i64.
  replace (a - ((b + 2 ^ 63) mod 2 ^ 64 - 2 ^ 63) + 2 ^ 63)
    with (a + 2 ^ 63 + 2 ^ 63 - (b + 2 ^ 63) mod 2 ^ 64) by lia.
  rewrite Zminus_mod_idemp_r. do 2 f_equal. lia.
Qed.

Lemma LRU_tracked_size_sizes c :
  LRU.tracked_size c =
  sizes (elements_of (LRU.mMapOfElements c) (LRU.mListOfElements c)).
Proof.
  unfold LRU.tracked_size.
  induction (LRU.mListOfElements c) as [|k l IH]; simpl; [reflexivity|].
  destruct (LRU.mMapOfElements c !! k); simpl; now rewrite IH.
Qed.

Lemma sizes_app es1 es2 : sizes (es1 ++ es2) = sizes es1 + sizes es2.
Proof. induction es1 as [|e es1 IH]; simpl; [reflexivity|]. rewrite IH. lia. Qed.

Lemma elements_of_app m l1 l2 :
  elements_of m (l1 ++ l2) = elements_of m l1 ++ elements_of m l2.
Proof. apply omap_app. Qed.

Lemma elements_of_insert k e m ks :
  k ∉ ks -> elements_of (<[k := e]> m) ks = elements_of m ks.
Proof.
  induction ks as [|x ks IH]; simpl; [reflexivity|].
  rewrite not_elem_of_cons. intros [Hne Hnin].
  rewrite lookup_insert_ne by congruence. now rewrite (IH Hnin).
Qed.

Lemma elements_of_foldr_delete m ks1 ks2 :
  (forall k, k ∈ ks1 -> k ∉ ks2) ->
  elements_of (foldr delete m ks1) ks2 = elements_of m ks2.
Proof.
  intros Hdis. induction ks2 as [|x ks2 IH]; simpl; [reflexivity|].
  rewrite lookup_foldr_delete_not_elem_of.
  - rewrite IH; [reflexivity|]. intros k Hk Hin. apply (Hdis k Hk).
    apply elem_of_cons. now right.
  - intros Hx. apply (Hdis x Hx). apply elem_of_cons. now left.
Qed.

Lemma sizes_list_erase m k e l :
  NoDup l -> m !! k = Some e -> k ∈ l ->
  sizes (elements_of m (list_erase k l)) = sizes (elements_of m l) - mSize e.
Proof.
  intros Hnd Hk. induction Hnd as [|x l Hx Hnd IH]; simpl.
  - intros H. apply elem_of_nil in H. tauto.
  - rewrite elem_of_cons. intros Hin.
    destruct (Z.eqb_spec x k) as [->|Hne].
    + rewrite Hk. simpl. lia.
    + destruct Hin as [Heq|Hin]; [congruence|].
      simpl. destruct (m !! x); simpl; rewrite (IH Hin); lia.
Qed.

Lemma list_erase_app_last k l : k ∉ l -> list_erase k (l ++ [k]) = l.
Proof.
  induction l as [|x l IH]; simpl.
  - intros _. now rewrite Z.eqb_refl.
  - rewrite not_elem_of_cons. intros [Hne Hnin].
    destruct (Z.eqb_spec x k); [congruence|]. now rewrite IH.
Qed.

(** X13.  Registering a key and removing it again is a round trip in the
    plain cache: on every [LRUCache] reached from an empty one, when the key
    is not registered and the registration does not push the total above the
    hard limit, [removeElement] after [updateElement] gives back exactly the
    cache there was, recency list, key map and total included. *)
Theorem LRU_remove_undoes_update :
  forall rs a b sc live now element key size,
    let c := fst (LRU.run rs (LRU.new a b sc)) in
    LRU.mMapOfElements c !! key = None ->
    wrap_i64 (LRU.mTotalSize c + size) <= LRU.mMaxSizeHard c ->
    LRU.updateElement live now element key size c =
      (LRU.updateElement_locked now element key (wrap_i64 size) c, []) /\
    LRU.removeElement key
      (fst (LRU.updateElement live now element key size c)) = c.
Proof.
  intros rs a b sc live now element key size c Hk Hhard.
  pose proof (lru_wf_reachable rs a b sc) as Hwf. fold c in Hwf.
  destruct (LRU_updateElement_locked_spec now element key (wrap_i64 size) c Hwf)
    as (Hm & Hl & Hnin & Ht & Hs & Hh).
  rewrite Hk in Hm, Ht. simpl in Hm, Ht.
  rewrite Z.sub_0_r, wrap_i64_add_r in Ht.
  assert (LRU.updateElement live now element key size c =
          (LRU.updateElement_locked now element key (wrap_i64 size) c, [])) as Hup.
  { unfold LRU.updateElement. simpl. rewrite Hh, Ht.
    destruct (Z.ltb_spec (LRU.mMaxSizeHard c) (wrap_i64 (LRU.mTotalSize c + size)));
      [lia|reflexivity]. }
  split; [exact Hup|]. rewrite Hup. simpl.
  assert (key ∉ LRU.mListOfElements c) as Hnl.
  { rewrite (lru_dom c Hwf), Hk. intros [x Hx]; discriminate. }
  rewrite (list_erase_absent _ _ Hnl) in Hl.
  unfold LRU.removeElement. rewrite Hm, lookup_insert_eq. simpl.
  rewrite Hl, Ht, (list_erase_app_last _ _ Hnl), (delete_insert_id _ _ _ Hk).
  rewrite wrap_i64_sub_r, wrap_i64_sub_l.
  replace (LRU.mTotalSize c + size - size) with (LRU.mTotalSize c) by lia.
  rewrite (wrap_i64_id _ (lru_total c Hwf)).
  unfold LRU.with_state, LRU.updateElement_locked. rewrite Hk. simpl.
  destruct c; reflexivity.
Qed.

(** X13, witness: key 1 with size 10 on a new cache with hard limit 40. *)
Lemma LRU_remove_undoes_update_witness :
  LRU.mMapOfElements (fst (LRU.run [] (LRU.new 20 40 0))) !! 1 = None /\
  wrap_i64 (LRU.mTotalSize (fst (LRU.run [] (LRU.new 20 40 0))) + 10) <= 40 /\
  LRU.removeElement 1
    (fst (LRU.updateElement alive 1 7%nat 1 10 (fst (LRU.run [] (LRU.new 20 40 0))))) =
  fst (LRU.run [] (LRU.new 20 40 0)).
Proof.
  assert (LRU.mMapOfElements (fst (LRU.run [] (LRU.new 20 40 0))) !! 1 = None)
    as H1 by (vm_compute; reflexivity).
  assert (wrap_i64 (LRU.mTotalSize (fst (LRU.run [] (LRU.new 20 40 0))) + 10) <=
          LRU.mMaxSizeHard (fst (LRU.run [] (LRU.new 20 40 0))))
    as H2 by (vm_compute; discriminate).
  split; [exact H1|]. split; [exact H2|].
  exact (proj2 (LRU_remove_undoes_update [] 20 40 0 alive 1 7%nat 1 10 H1 H2)).
Defined.

Lemma filter_all {A} (f : A -> bool) (l : list A) :
  (forall x, x ∈ l -> f x = true) -> List.filter f l = l.
Proof.
  induction l as [|x l IH]; intros H; simpl; [reflexivity|].
  rewrite (H x) by (apply elem_of_cons; now left).
  rewrite IH; [reflexivity|]. intros y Hy. apply H, elem_of_cons. now right.
Qed.

Lemma take_drop_disjoint (l : list Z) n :
  NoDup l -> forall k, k ∈ take n l -> k ∉ drop n l.
Proof.
  intros Hnd. rewrite <- (firstn_skipn n l) in Hnd.
  apply NoDup_app in Hnd. tauto.
Qed.

Lemma LRU_removeElement_keeps_total key c :
  lru_wf c ->
  LRU.mTotalSize c = wrap_i64 (LRU.tracked_size c) ->
  LRU.mTotalSize (LRU.removeElement key c) =
  wrap_i64 (LRU.tracked_size (LRU.removeElement key c)).
Proof.
  intros Hwf Hinv. unfold LRU.removeElement.
  destruct (LRU.mMapOfElements c !! key) as [el|] eqn:Hk; [|assumption].
  rewrite LRU_tracked_size_sizes in *. simpl.
  rewrite elements_of_delete by (apply list_erase_not_elem_of, (lru_nodup c Hwf)).
  rewrite (sizes_list_erase _ _ el _ (lru_nodup c Hwf) Hk).
  - now rewrite Hinv, wrap_i64_sub_l.
  - apply (lru_dom c Hwf). eauto.
Qed.

Lemma LRU_cleanup_keeps_total live key c :
  lru_wf c ->
  LRU.mTotalSize c = wrap_i64 (LRU.tracked_size c) ->
  (forall k, key = Some k ->
     is_Some (LRU.mMapOfElements (fst (LRU.cleanup live key c)) !! k) \/
     k ∉ LRU.mListOfElements c) ->
  LRU.mTotalSize (fst (LRU.cleanup live key c)) =
  wrap_i64 (LRU.tracked_size (fst (LRU.cleanup live key c))).
Proof.
  intros Hwf Hinv Hkept.
  destruct (LRU_cleanup_spec live key c Hwf) as (n & Hn & Heq & _).
  rewrite Heq in *. simpl in Hkept.
  rewrite LRU_tracked_size_sizes in *. simpl.
  rewrite elements_of_foldr_delete
    by (apply take_drop_disjoint, (lru_nodup c Hwf)).
  rewrite filter_all.
  - rewrite Hinv, wrap_i64_sub_l.
    rewrite <- (firstn_skipn n (LRU.mListOfElements c)) at 1.
    rewrite elements_of_app, sizes_app. f_equal. lia.
  - intros e He. apply elem_of_elements_of in He. destruct He as (k' & Hin & Hk').
    unfold unprotected. destruct key as [k|]; [|reflexivity].
    apply negb_true_iff, Z.eqb_neq. rewrite (lru_key c Hwf _ _ Hk').
    intros ->. destruct (Hkept k' eq_refl) as [[x Hx]|Hnin].
    + rewrite lookup_foldr_delete in Hx by assumption. discriminate.
    + apply Hnin. exact (subseteq_take n _ k' Hin).
Qed.

Lemma LRU_cleanup_drops_protected_last live k e l0 c :
  lru_wf c ->
  LRU.mTotalSize c = wrap_i64 (LRU.tracked_size c) ->
  LRU.mListOfElements c = l0 ++ [k] ->
  LRU.mMapOfElements c !! k = Some e ->
  LRU.mMapOfElements (fst (LRU.cleanup live (Some k) c)) !! k = None ->
  LRU.mListOfElements (fst (LRU.cleanup live (Some k) c)) = [] /\
  LRU.mTotalSize (fst (LRU.cleanup live (Some k) c)) = wrap_i64 (mSize e).
Proof.
  intros Hwf Hinv Hl Hk.
  destruct (LRU_cleanup_spec live (Some k) c Hwf) as (n & Hn & Heq & _).
  rewrite Heq. simpl. intros Hgone.
  pose proof (lru_nodup c Hwf) as Hnd. rewrite Hl in Hnd, Hn.
  apply NoDup_app in Hnd. destruct Hnd as (Hnd0 & Hdis & _).
  assert (k ∉ l0) as Hk0.
  { intros Hin. apply (Hdis k Hin). apply list_elem_of_singleton. reflexivity. }
  assert (k ∈ take n (l0 ++ [k])) as Hin.
  { destruct (decide (k ∈ take n (l0 ++ [k]))) as [H|H]; [assumption|].
    rewrite Hl, lookup_foldr_delete_not_elem_of, Hk in Hgone by assumption.
    discriminate. }
  assert (length (l0 ++ [k]) <= n)%nat as Hlen.
  { rewrite length_app. simpl.
    destruct (Nat.le_gt_cases n (length l0)) as [Hle|Hgt]; [|lia].
    rewrite take_app_le in Hin by assumption.
    exfalso. apply Hk0. exact (subseteq_take n l0 k Hin). }
  rewrite LRU_tracked_size_sizes in Hinv. rewrite Hl in *.
  rewrite drop_ge, take_ge by assumption.
  split; [reflexivity|].
  rewrite elements_of_app, List.filter_app. simpl. rewrite Hk. simpl.
  rewrite (lru_key c Hwf _ _ Hk), Z.eqb_refl. simpl.
  rewrite app_nil_r, filter_all.
  - rewrite Hinv, elements_of_app, sizes_app, wrap_i64_sub_l. simpl.
    rewrite Hk. simpl. f_equal. lia.
  - intros e' He'. apply elem_of_elements_of in He'.
    destruct He' as (k' & Hin' & Hk').
    unfold unprotected. apply negb_true_iff, Z.eqb_neq.
    rewrite (lru_key c Hwf _ _ Hk'). congruence.
Qed.

Lemma LRU_updateElement_locked_keeps_total now element key size c :
  lru_wf c ->
  LRU.mTotalSize c = wrap_i64 (LRU.tracked_size c) ->
  LRU.mTotalSize (LRU.updateElement_locked now element key size c) =
  wrap_i64 (LRU.tracked_size (LRU.updateElement_locked now element key size c)).
Proof.
  intros Hwf Hinv.
  destruct (LRU_updateElement_locked_spec now element key size c Hwf)
    as (Hm & Hl & Hnin & Ht & _).
  rewrite LRU_tracked_size_sizes in *. rewrite Ht, Hm, Hl.
  rewrite elements_of_app, sizes_app, elements_of_insert by assumption.
  simpl. rewrite lookup_insert_eq. simpl.
  destruct (LRU.mMapOfElements c !! key) as [el|] eqn:Hk; simpl.
  - rewrite (sizes_list_erase _ _ el _ (lru_nodup c Hwf) Hk)
      by (apply (lru_dom c Hwf); eauto).
    rewrite Hinv.
    replace (wrap_i64 (sizes (elements_of (LRU.mMapOfElements c)
                                (LRU.mListOfElements c))) - mSize el + size)
      with (wrap_i64 (sizes (elements_of (LRU.mMapOfElements c)
                               (LRU.mListOfElements c))) - (mSize el - size))
      by lia.
    rewrite wrap_i64_sub_l. f_equal. lia.
  - rewrite list_erase_absent.
    + rewrite Hinv.
      replace (wrap_i64 (sizes (elements_of (LRU.mMapOfElements c)
                                  (LRU.mListOfElements c))) - 0 + size)
        with (wrap_i64 (sizes (elements_of (LRU.mMapOfElements c)
                                 (LRU.mListOfElements c))) - (- size))
        by lia.
      rewrite wrap_i64_sub_l. f_equal. lia.
    + rewrite (lru_dom c Hwf), Hk. intros [x Hx]; discriminate.
Qed.

(** X14.  When the total of the plain cache is the sum of the sizes of the
    tracked elements (as 64-bit numbers), on an [LRUCache] reached from an
    empty one, it stays so after [removeElement], after [cleanup] without a
    protected key, and after [updateElement] as long as the key just
    registered is still tracked when the call returns.  The only remaining
    case is the one where the eviction of [updateElement] drops its own key:
    then the cache tracks nothing and the total is the size just
    registered. *)
Theorem LRU_total_tracks_sizes_unless_own_key_dropped :
  forall rs a b sc,
    let c := fst (LRU.run rs (LRU.new a b sc)) in
    LRU.mTotalSize c = wrap_i64 (LRU.tracked_size c) ->
    (forall key,
       LRU.mTotalSize (LRU.removeElement key c) =
       wrap_i64 (LRU.tracked_size (LRU.removeElement key c))) /\
    (forall live,
       LRU.mTotalSize (fst (LRU.cleanup live None c)) =
       wrap_i64 (LRU.tracked_size (fst (LRU.cleanup live None c)))) /\
    (forall live now element key size,
       let c' := fst (LRU.updateElement live now element key size c) in
       (is_Some (LRU.mMapOfElements c' !! key) ->
        LRU.mTotalSize c' = wrap_i64 (LRU.tracked_size c')) /\
       (LRU.mMapOfElements c' !! key = None ->
        LRU.mListOfElements c' = [] /\ LRU.mTotalSize c' = wrap_i64 size)).
Proof.
  intros rs a b sc c Hinv.
  pose proof (lru_wf_reachable rs a b sc) as Hwf. fold c in Hwf.
  split; [intros key; now apply LRU_removeElement_keeps_total|].
  split.
  { intros live. apply LRU_cleanup_keeps_total; [assumption..|]. discriminate. }
  intros live now element key size c'.
  pose proof (lru_wf_updateElement_locked now element key (wrap_i64 size) c Hwf)
    as Hwf1.
  pose proof (LRU_updateElement_locked_keeps_total now element key
                (wrap_i64 size) c Hwf Hinv) as Hinv1.
  destruct (LRU_updateElement_locked_spec now element key (wrap_i64 size) c Hwf)
    as (Hm & Hl & _).
  assert (LRU.mMapOfElements
            (LRU.updateElement_locked now element key (wrap_i64 size) c) !! key =
          Some (mkElement now (wrap_i64 size)
                  (from_option mWeakPointerElement element
                     (LRU.mMapOfElements c !! key)) key false)) as Hk1
    by (rewrite Hm; apply lookup_insert_eq).
  unfold c', LRU.updateElement. simpl.
  destruct (Z.ltb _ _); simpl.
  - split.
    + intros Hsome. apply LRU_cleanup_keeps_total; [assumption..|].
      intros k [= <-]. now left.
    + intros Hnone.
      destruct (LRU_cleanup_drops_protected_last live key _ _ _ Hwf1 Hinv1 Hl Hk1 Hnone)
        as [Hl' Ht'].
      split; [exact Hl'|]. rewrite Ht'. simpl.
      apply wrap_i64_id, wrap_i64_range.
  - split; [intros _; exact Hinv1|]. rewrite Hk1. discriminate.
Qed.

(** X14, witness: a new cache, whose total 0 is the sum over no element. *)
Lemma LRU_total_tracks_sizes_unless_own_key_dropped_witness :
  LRU.mTotalSize (fst (LRU.run [] (LRU.new 20 40 0))) =
    wrap_i64 (LRU.tracked_size (fst (LRU.run [] (LRU.new 20 40 0)))) /\
  let c' := fst (LRU.updateElement alive 1 7%nat 1 50 (fst (LRU.run [] (LRU.new 20 40 0)))) in
  LRU.mMapOfElements c' !! 1 = None /\
  LRU.mListOfElements c' = [] /\ LRU.mTotalSize c' = wrap_i64 50.
Proof.
  assert (LRU.mTotalSize (fst (LRU.run [] (LRU.new 20 40 0))) =
          wrap_i64 (LRU.tracked_size (fst (LRU.run [] (LRU.new 20 40 0)))))
    as H by (vm_compute; reflexivity).
  split; [exact H|].
  assert (LRU.mMapOfElements
            (fst (LRU.updateElement alive 1 7%nat 1 50
                    (fst (LRU.run [] (LRU.new 20 40 0))))) !! 1 = None)
    as Hn by (vm_compute; reflexivity).
  split; [exact Hn|].
  exact (proj2 (proj2 (proj2
    (LRU_total_tracks_sizes_unless_own_key_dropped [] 20 40 0 H))
    alive 1 7%nat 1 50) Hn).
Defined.

(** * The string class *)

Section StringTypeFacts.

Local Open Scope nat_scope.

#[local] Arguments StringType.memcpy : simpl never.
#[local] Arguments StringType.store : simpl never.
#[local] Arguments StringType.new_chars : simpl never.
#[local] Arguments StringType.install : simpl never.

Lemma memcpy_into_fresh (pre : StringType.chars) (str : list byte)
    (rest : StringType.chars) (k : nat) :
  StringType.memcpy (pre ++ replicate (length str + k) None) (length pre)
    (Some (map Some str ++ rest)) (length str) =
  Some (pre ++ map Some str ++ replicate k None).
Proof.
  unfold StringType.memcpy.
  rewrite !length_app, length_replicate, List.length_map.
  replace (Nat.leb (length pre + length str) (length pre + (length str + k)))
    with true by (symmetry; apply Nat.leb_le; lia).
  replace (Nat.leb (length str) (length str + length rest))
    with true by (symmetry; apply Nat.leb_le; lia).
  simpl. rewrite take_app_length.
  rewrite take_app_length' by (now rewrite List.length_map).
  rewrite drop_app_add, drop_replicate_add. reflexivity.
Qed.

Lemma store_terminator (pre : StringType.chars) (n : nat) (c : byte) :
  n = length pre ->
  StringType.store (pre ++ [None]) n c = Some (pre ++ [Some c]).
Proof.
  intros ->. unfold StringType.store. rewrite length_app. simpl.
  replace (Nat.ltb (length pre) (length pre + 1))
    with true by (symmetry; apply Nat.ltb_lt; lia).
  rewrite insert_app_r_alt by lia. now rewrite Nat.sub_diag.
Qed.

Lemma store_past_the_end (buf : StringType.chars) (c : byte) :
  StringType.store buf (length buf) c = None.
Proof. unfold StringType.store. now rewrite Nat.ltb_irrefl. Qed.

Lemma copy_of_chars (str : list byte) (rest : StringType.chars) :
  str <> [] ->
  (if Nat.ltb 0 (length str) then true else false) = true /\
  StringType.memcpy (StringType.new_chars (length str + 1)) 0
    (Some (map Some str ++ rest)) (length str) =
  Some (map Some str ++ [None]).
Proof.
  intros Hne. split.
  - destruct str; [congruence|reflexivity].
  - exact (memcpy_into_fresh [] str rest 1).
Qed.

Lemma holds_nonempty s x str :
  StringType.holds s (x :: str) ->
  s = StringType.mkString (Some (StringType.c_string (x :: str)))
        (length (x :: str) + 1) (length (x :: str)).
Proof. intros H. exact H. Qed.

(** X15.  Construction from a C string.  [stringType(const char* p)] never
    goes outside an array.  For [nullptr] and for the empty string it gives
    the empty object: null pointer, size 0, length 0.  For any other string
    it gives an object whose length is the [strlen] of the argument, whose
    size is one more, and whose [c_str()] is a fresh array holding the
    characters of the argument followed by the terminator. *)
Theorem from_chars_copies_the_string :
  forall p : option (list byte),
    let str := from_option id [] p in
    exists s,
      StringType.from_chars p = StringType.Returns s /\
      StringType.holds s str /\
      StringType.length s = StringType.strlen str /\
      StringType.size s = (if decide (str = []) then 0 else StringType.strlen str + 1) /\
      StringType.c_str s =
        (if decide (str = []) then None else Some (map Some str ++ [Some x00])).
Proof.
  intros [[|x str]|]; cbv zeta.
  - exists StringType.empty. repeat split.
  - eexists. unfold StringType.from_chars, StringType._copyFromCharPointer.
    unfold StringType.strlen, StringType.c_string. cbv zeta.
    destruct (copy_of_chars (x :: str) [Some x00] ltac:(discriminate)) as [_ Hcopy].
    rewrite Hcopy, store_terminator by (now rewrite List.length_map).
    change (Nat.ltb 0 (length (x :: str))) with true. cbv iota.
    split; [reflexivity|]. simpl.
    destruct (decide (x :: str = [])); [discriminate|]. repeat split.
  - exists StringType.empty. repeat split.
Qed.

Lemma clear_of_held s str :
  StringType.holds s str -> StringType.clear s = StringType.empty.
Proof.
  destruct str as [|x str]; intros H.
  - rewrite H. reflexivity.
  - rewrite (holds_nonempty _ _ _ H). unfold StringType.clear. simpl.
    replace (Nat.ltb 0 (S (length str) + 1)) with true
      by (symmetry; apply Nat.ltb_lt; lia).
    reflexivity.
Qed.



Lemma memcpy_at_start (str : list byte) (rest : StringType.chars) (k : nat) :
  StringType.memcpy (replicate (length str + k) None) 0
    (Some (map Some str ++ rest)) (length str) =
  Some (map Some str ++ replicate k None).
Proof. exact (memcpy_into_fresh [] str rest k). Qed.

Lemma store_past_the_end_at (buf : StringType.chars) (n : nat) (c : byte) :
  n = length buf -> StringType.store buf n c = None.
Proof. intros ->. apply store_past_the_end. Qed.

Lemma holds_cases s str :
  StringType.holds s str ->
  (str = [] /\ s = StringType.empty) \/
  (str <> [] /\
   s = StringType.mkString (Some (map Some str ++ [Some x00]))
         (length str + 1) (length str)).
Proof.
  destruct str as [|x str]; intros H; [left|right]; (split; [|exact H]);
    [reflexivity|discriminate].
Qed.

(** The tail of both [append] functions, from the copy of the argument on:
    the characters arrive behind [pre], the cell of the terminator is left
    unwritten, and the terminator is stored one cell further. *)
Lemma append_tail_faults (pre : StringType.chars) (str : list byte)
    (rest : StringType.chars) (s1 : StringType.stringType) :
  let n := length pre + length str + 1 in
  match StringType.memcpy (pre ++ replicate (length str + 1) None)
          (n - length str - 1) (Some (map Some str ++ rest)) (length str) with
  | None => StringType.Undefined StringType.CopyOutOfBounds s1
  | Some b => StringType.install b n
  end =
  StringType.Undefined (StringType.StoreOutOfBounds n n)
    (StringType.mkString (Some (pre ++ map Some str ++ [None])) n (n - 1)).
Proof.
  intros n.
  replace (n - length str - 1) with (length pre) by (unfold n; lia).
  rewrite memcpy_into_fresh. unfold StringType.install. simpl.
  assert (length (pre ++ map Some str ++ [None]) = n) as Hlen.
  { rewrite !length_app, List.length_map. simpl. unfold n. lia. }
  rewrite store_past_the_end_at by (now rewrite Hlen).
  now rewrite Hlen.
Qed.

Lemma copy_from_nonempty s str :
  str <> [] ->
  StringType._copyFromStringType s
    (StringType.Other
       (StringType.mkString (Some (map Some str ++ [Some x00]))
          (length str + 1) (length str))) =
  StringType.Returns
    (StringType.mkString (Some (map Some str ++ [Some x00]))
       (length str + 1) (length str)).
Proof.
  intros Hne. unfold StringType._copyFromStringType. simpl.
  replace (Nat.ltb 0 (length str + 1)) with true
    by (symmetry; apply Nat.ltb_lt; lia).
  rewrite ?bool_decide_eq_true_2 by eauto. simpl.
  destruct (copy_of_chars str [Some x00] Hne) as [_ Hcopy].
  rewrite Hcopy, store_terminator by (now rewrite List.length_map).
  reflexivity.
Qed.

(** X17.  Copying.  [operator=] gives the target the value of the source:
    after assigning one constructed string to another, the target is equal
    to the source, with an array of its own.  Assigning a string to itself
    loses its characters: the result is the empty string.  Assigning a C
    string gives what the constructor gives.  The copy constructor copies a
    string that is not empty, and for an empty source it leaves the members
    as they were, uninitialised. *)
Theorem assignment_copies_and_self_assignment_empties :
  forall s cs o os,
    StringType.holds s cs -> StringType.holds o os ->
    StringType.assign s (StringType.Other o) = StringType.Returns o /\
    StringType.assign s StringType.This = StringType.Returns StringType.empty /\
    (forall p, StringType.assign_chars s p = StringType.from_chars p) /\
    (forall indeterminate,
       StringType.copy indeterminate o =
       StringType.Returns (if decide (os = []) then indeterminate else o)).
Proof.
  intros s cs o os Hs Ho.
  pose proof (clear_of_held s cs Hs) as Hclear.
  unfold StringType.assign, StringType.assign_chars, StringType.copy.
  rewrite Hclear.
  split.
  { destruct (holds_cases _ _ Ho) as [[-> ->]|[Hne ->]].
    - reflexivity.
    - now apply copy_from_nonempty. }
  split; [reflexivity|]. split; [reflexivity|].
  intros g. destruct (holds_cases _ _ Ho) as [[-> ->]|[Hne ->]].
  - reflexivity.
  - destruct (decide (os = [])); [contradiction|]. now apply copy_from_nonempty.
Qed.

(** X17, witness: assigning [stringType("b")] to [stringType("a")], and
    [stringType("a")] to itself. *)
Lemma assignment_copies_and_self_assignment_empties_witness :
  let a := StringType.mkString (Some [Some "a"%byte; Some x00]) 2 1 in
  let b := StringType.mkString (Some [Some "b"%byte; Some x00]) 2 1 in
  StringType.holds a ["a"%byte] /\ StringType.holds b ["b"%byte] /\
  StringType.assign a (StringType.Other b) = StringType.Returns b /\
  StringType.assign a StringType.This = StringType.Returns StringType.empty.
Proof.
  intros a b.
  assert (StringType.holds a ["a"%byte]) as Ha by reflexivity.
  assert (StringType.holds b ["b"%byte]) as Hb by reflexivity.
  pose proof (assignment_copies_and_self_assignment_empties a _ b _ Ha Hb)
    as (H1 & H2 & _).
  split; [exact Ha|]. split; [exact Hb|]. split; [exact H1|exact H2].
Defined.

(** The body of both [append] functions for a non-empty argument on a
    string that holds [cs]. *)
Lemma append_core s cs (arg : list byte) (rest : StringType.chars) :
  StringType.holds s cs -> arg <> [] ->
  match
    (if Nat.ltb 0 (StringType._nLength s) &&
        bool_decide (is_Some (StringType._pSeqOfChars s))
     then option_map (fun b => (b, StringType.clear s))
            (StringType.memcpy
               (StringType.new_chars (StringType._nLength s + length arg + 1))
               0 (StringType._pSeqOfChars s) (StringType._nLength s))
     else Some (StringType.new_chars (StringType._nLength s + length arg + 1), s))
  with
  | None => StringType.Undefined StringType.CopyOutOfBounds s
  | Some (b, s1) =>
    match StringType.memcpy b
            (StringType._nLength s + length arg + 1 - length arg - 1)
            (Some (map Some arg ++ rest)) (length arg) with
    | None => StringType.Undefined StringType.CopyOutOfBounds s1
    | Some b' =>
      StringType.install b' (StringType._nLength s + length arg + 1)
    end
  end =
  StringType.Undefined
    (StringType.StoreOutOfBounds (length cs + length arg + 1)
       (length cs + length arg + 1))
    (StringType.mkString (Some (map Some cs ++ map Some arg ++ [None]))
       (length cs + length arg + 1) (length cs + length arg + 1 - 1)).
Proof.
  intros Hs Harg.
  destruct (holds_cases _ _ Hs) as [[-> ->]|[Hne ->]]; simpl.
  - exact (append_tail_faults [] arg rest StringType.empty).
  - replace (Nat.ltb 0 (length cs)) with true
      by (symmetry; apply Nat.ltb_lt; destruct cs; [congruence|simpl; lia]).
    rewrite ?bool_decide_eq_true_2 by eauto. simpl.
    unfold StringType.new_chars.
    replace (length cs + length arg + 1) with (length cs + (length arg + 1)) at 1
      by lia.
    rewrite (memcpy_at_start cs [Some x00] (length arg + 1)). simpl.
    pose proof (append_tail_faults (map Some cs) arg rest
                  (StringType.clear
                     (StringType.mkString (Some (map Some cs ++ [Some x00]))
                        (length cs + 1) (length cs)))) as Htail.
    rewrite List.length_map in Htail. exact Htail.
Qed.

Lemma append_of_held s cs o os :
  StringType.holds s cs -> StringType.holds o os ->
  (os = [] -> StringType.append s (StringType.Other o) = StringType.Returns s) /\
  (os <> [] ->
   StringType.append s (StringType.Other o) =
   StringType.Undefined
     (StringType.StoreOutOfBounds (length cs + length os + 1)
        (length cs + length os + 1))
     (StringType.mkString (Some (map Some cs ++ map Some os ++ [None]))
        (length cs + length os + 1) (length cs + length os + 1 - 1))).
Proof.
  intros Hs Ho. split.
  { intros ->. rewrite Ho. reflexivity. }
  intros Hos. destruct (holds_cases _ _ Ho) as [[-> _]|[_ ->]]; [congruence|].
  unfold StringType.append. simpl.
  rewrite ?bool_decide_eq_true_2 by eauto.
  replace (Nat.ltb 0 (length os)) with true
    by (symmetry; apply Nat.ltb_lt; destruct os; [congruence|simpl; lia]).
  simpl. exact (append_core s cs os [Some x00] Hs Hos).
Qed.

(** X18.  Appending.  Both [append] functions return the string unchanged
    for an empty argument ([nullptr], the empty C string, the empty
    string).  For any other argument, on a constructed string, they do not
    return normally: the characters of the string and of the argument are
    copied into the new array, whose last cell, the one for the terminator,
    is never written, and the terminator is stored at the index
    [_nSizeInBytes], one cell past the end of the array. *)
Theorem append_stores_the_terminator_past_the_end :
  forall s cs str o os,
    StringType.holds s cs -> StringType.holds o os ->
    let fault (arg : list byte) :=
      let n := length cs + length arg + 1 in
      StringType.Undefined (StringType.StoreOutOfBounds n n)
        (StringType.mkString (Some (map Some cs ++ map Some arg ++ [None]))
           n (n - 1)) in
    StringType.append_chars s None = StringType.Returns s /\
    StringType.append_chars s (Some []) = StringType.Returns s /\
    (str <> [] -> StringType.append_chars s (Some str) = fault str) /\
    (os = [] -> StringType.append s (StringType.Other o) = StringType.Returns s) /\
    (os <> [] -> StringType.append s (StringType.Other o) = fault os).
Proof.
  intros s cs str o os Hs Ho fault.
  split; [reflexivity|]. split; [reflexivity|].
  split.
  { intros Hstr. unfold StringType.append_chars, StringType.strlen, StringType.c_string.
    replace (Nat.ltb 0 (length str)) with true
      by (symmetry; apply Nat.ltb_lt; destruct str; [congruence|simpl; lia]).
    exact (append_core s cs str [Some x00] Hs Hstr). }
  exact (append_of_held s cs o os Hs Ho).
Qed.

(** X18, witness: appending "b" to [stringType("a")]. *)
Lemma append_stores_the_terminator_past_the_end_witness :
  let a := StringType.mkString (Some [Some "a"%byte; Some x00]) 2 1 in
  StringType.holds a ["a"%byte] /\ ["b"%byte] <> [] /\
  StringType.append_chars a (Some ["b"%byte]) =
  StringType.Undefined (StringType.StoreOutOfBounds 3 3)
    (StringType.mkString (Some [Some "a"%byte; Some "b"%byte; None]) 3 2).
Proof.
  intros a.
  assert (StringType.holds a ["a"%byte]) as Ha by reflexivity.
  assert (["b"%byte] <> []) as Hb by discriminate.
  split; [exact Ha|]. split; [exact Hb|].
  exact (proj1 (proj2 (proj2
    (append_stores_the_terminator_past_the_end a ["a"%byte] ["b"%byte]
       StringType.empty [] Ha eq_refl))) Hb).
Defined.

(** X19.  [operator+] returns normally only for two empty strings, and then
    the result is empty.  As soon as one of two constructed operands is not
    empty, the first [append] of a non-empty operand stores the terminator
    one cell past the end of the new array. *)
Theorem plus_of_nonempty_strings_stores_past_the_end :
  forall a cs b bs,
    StringType.holds a cs -> StringType.holds b bs ->
    StringType.plus a b =
    match cs, bs with
    | [], [] => StringType.Returns StringType.empty
    | [], _ =>
      StringType.Undefined
        (StringType.StoreOutOfBounds (length bs + 1) (length bs + 1))
        (StringType.mkString (Some (map Some bs ++ [None])) (length bs + 1)
           (length bs + 1 - 1))
    | _, _ =>
      StringType.Undefined
        (StringType.StoreOutOfBounds (length cs + 1) (length cs + 1))
        (StringType.mkString (Some (map Some cs ++ [None])) (length cs + 1)
           (length cs + 1 - 1))
    end.
Proof.
  intros a cs b bs Ha Hb. unfold StringType.plus.
  destruct cs as [|x cs].
  - rewrite (proj1 (append_of_held StringType.empty [] a [] eq_refl Ha) eq_refl).
    destruct bs as [|y bs].
    + rewrite Hb. reflexivity.
    + exact (proj2 (append_of_held StringType.empty [] b (y :: bs) eq_refl Hb)
               ltac:(discriminate)).
  - rewrite (proj2 (append_of_held StringType.empty [] a (x :: cs) eq_refl Ha)
               ltac:(discriminate)).
    reflexivity.
Qed.

(** X19, witness: [stringType("a")] plus the empty string. *)
Lemma plus_of_nonempty_strings_stores_past_the_end_witness :
  let a := StringType.mkString (Some [Some "a"%byte; Some x00]) 2 1 in
  StringType.holds a ["a"%byte] /\ StringType.holds StringType.empty [] /\
  StringType.plus a StringType.empty =
  StringType.Undefined (StringType.StoreOutOfBounds 2 2)
    (StringType.mkString (Some [Some "a"%byte; None]) 2 1).
Proof.
  intros a.
  assert (StringType.holds a ["a"%byte]) as Ha by reflexivity.
  assert (StringType.holds StringType.empty []) as Hb by reflexivity.
  split; [exact Ha|]. split; [exact Hb|].
  exact (plus_of_nonempty_strings_stores_past_the_end a _ StringType.empty _ Ha Hb).
Defined.

End StringTypeFacts.

(** * Threads *)

(** X20.  The containers of [LRUCacheSizeOrder] are consistent whenever the
    element mutex is free, however the threads interleave.  After any
    sequence of critical sections (the locked block of [updateElement],
    [cleanup] with any protected key, [checkAccessTime]) on a new cache, the
    recency list has no duplicates and holds exactly the keys of the key
    map, every element is stored under its own primary key, the size-ordered
    map is in comparator order, and each of its entries designates a
    tracked, marked element of the entry's size.  Every call of the
    single-threaded runs is such a sequence of critical sections. *)
Theorem containers_consistent_under_interleaving :
  (forall ss a b th sc,
     let c := interleaving ss (SizeOrder.init a b th sc) in
     NoDup (SizeOrder._listOfElements c) /\
     (forall k, k ∈ SizeOrder._listOfElements c <->
                is_Some (SizeOrder._mapOfPKWithElement c !! k)) /\
     (forall k e, SizeOrder._mapOfPKWithElement c !! k = Some e -> mPrimaryKey e = k) /\
     StronglySorted size_desc_key_asc (SizeOrder._mapOfElementsOrderSize c) /\
     (forall p, p ∈ SizeOrder._mapOfElementsOrderSize c ->
        exists e,
          SizeOrder._mapOfPKWithElement c !! SizeOrder.nPrimaryKey p = Some e /\
          mSize e = SizeOrder.nSize p /\
          mMarkSizeWiseCleanup e = true)) /\
  (forall r c, fst (SizeOrder.step r c) = interleaving (sections_of r c) c).
Proof.
  split.
  - intros ss a b th sc c.
    destruct (wf_interleaving ss _ (wf_init a b th sc))
      as [Hnd Hdom Hkey Htot Hsort Hent].
    repeat split; try assumption; now apply Hdom.
  - intros r c. unfold SizeOrder.step, sections_of, interleaving.
    destruct (SizeOrder.req_call r) as [element key size|key|]; simpl.
    + unfold SizeOrder.updateElement.
      destruct (Z.leb (wrap_u64 size) (wrap_u64 (SizeOrder._nHardLimitInBytes c)))
        eqn:Hguard; simpl.
      * rewrite andb_true_r.
        rewrite (proj2 (limits_updateElement_locked (SizeOrder.req_now r)
                          element key (wrap_u64 size) c)).
        destruct (Z.ltb _ _); reflexivity.
      * rewrite andb_false_r. reflexivity.
    + reflexivity.
    + destruct (SizeOrder._ThresholdThread c); reflexivity.
Qed.

(** ** Sweeping twice *)

Lemma checkAccessTime_loop_fixed now th l : forall m s,
  (forall k, k ∈ scanned now th m l ->
     exists e, m !! k = Some e /\ mMarkSizeWiseCleanup e = true) ->
  SizeOrder.checkAccessTime_loop now th l m s = (m, s).
Proof.
  induction l as [|x l IH]; intros m s H; simpl; [reflexivity|].
  simpl in H. destruct (m !! x) as [e|] eqn:Hx.
  - unfold getMarkSizeWiseCleanup, getAccessTime.
    fold (past_threshold now th e).
    destruct (mMarkSizeWiseCleanup e) eqn:Hm; simpl in *.
    + apply IH. intros k Hk. apply H, elem_of_cons. now right.
    + destruct (past_threshold now th e) eqn:Hp; simpl in *; [|reflexivity].
      destruct (H x) as (e' & He' & Hm'); [apply elem_of_cons; now left|].
      congruence.
  - destruct (H x) as (e' & He' & _); [apply elem_of_cons; now left|].
    congruence.
Qed.

Lemma scanned_after_marking now th m m' l :
  (forall k, k ∈ l -> is_Some (m !! k)) ->
  (forall k,
     m' !! k =
     if bool_decide (k ∈ scanned now th m l)
     then setMarkSizeWiseCleanup true <$> m !! k
     else m !! k) ->
  NoDup l ->
  scanned now th m' l = scanned now th m l.
Proof.
  revert m m'. induction l as [|x l IH]; intros m m' Hdom Hm' Hnd;
    simpl; [reflexivity|].
  apply NoDup_cons in Hnd. destruct Hnd as [Hnin Hnd].
  destruct (Hdom x) as [e Hx]; [apply elem_of_cons; now left|].
  pose proof (Hm' x) as Hx'. simpl in Hx'. rewrite Hx in Hx'. rewrite Hx.
  destruct (negb (mMarkSizeWiseCleanup e) && negb (past_threshold now th e))
    eqn:Hstop.
  - rewrite bool_decide_eq_false_2 in Hx' by apply not_elem_of_nil.
    rewrite Hx', Hstop. reflexivity.
  - rewrite bool_decide_eq_true_2 in Hx' by (apply elem_of_cons; now left).
    rewrite Hx'. simpl. f_equal.
    assert (scanned now th m' l = scanned now th (delete x m') l) as ->.
    { apply scanned_ext. intros k Hk. rewrite lookup_delete_ne; [reflexivity|].
      congruence. }
    assert (scanned now th m l = scanned now th (delete x m) l) as ->.
    { apply scanned_ext. intros k Hk. rewrite lookup_delete_ne; [reflexivity|].
      congruence. }
    apply IH; [| |assumption].
    + intros k Hk. rewrite lookup_delete_ne by congruence.
      apply Hdom, elem_of_cons. now right.
    + intros k. destruct (decide (k = x)) as [->|Hne].
      * rewrite !lookup_delete_eq. now destruct (bool_decide _).
      * rewrite !lookup_delete_ne by congruence. rewrite Hm'. simpl.
        rewrite Hx, Hstop.
        assert (scanned now th (delete x m) l = scanned now th m l) as ->.
        { apply scanned_ext. intros k' Hk'. rewrite lookup_delete_ne; [reflexivity|].
          congruence. }
        destruct (decide (k ∈ scanned now th m l)) as [Hin|Hout].
        -- rewrite !bool_decide_eq_true_2;
             [reflexivity|assumption|apply elem_of_cons; now right].
        -- rewrite !bool_decide_eq_false_2;
             [reflexivity|assumption|rewrite elem_of_cons; tauto].
Qed.

(** X21.  Sweeping twice at the same time is sweeping once: on every
    size-order cache reached from an empty one, a second [checkAccessTime]
    with the same current time changes nothing. *)
Theorem checkAccessTime_is_idempotent :
  forall rs a b th sc now,
    let c := fst (SizeOrder.run rs (SizeOrder.init a b th sc)) in
    SizeOrder.checkAccessTime now (SizeOrder.checkAccessTime now c) =
    SizeOrder.checkAccessTime now c.
Proof.
  intros rs a b th sc now c.
  assert (wf c) as Hwf by apply wf_reachable.
  destruct (SizeOrder._listOfElements c) as [|x l] eqn:El.
  { assert (SizeOrder.checkAccessTime now c = c) as Hc
      by (unfold SizeOrder.checkAccessTime; now rewrite El).
    now rewrite !Hc. }
  destruct (SizeOrder.checkAccessTime_loop now (SizeOrder._nThresholdInSec c)
              (x :: l) (SizeOrder._mapOfPKWithElement c)
              (SizeOrder._mapOfElementsOrderSize c)) as [m' s'] eqn:Hloop.
  set (c1 := SizeOrder.with_state c (x :: l) m' (SizeOrder._nTotalSizeOfCache c) s').
  assert (SizeOrder.checkAccessTime now c = c1) as Hc.
  { unfold SizeOrder.checkAccessTime. rewrite El, Hloop. reflexivity. }
  rewrite Hc.
  assert (forall k, k ∈ x :: l -> is_Some (SizeOrder._mapOfPKWithElement c !! k))
    as Hdom by (intros k Hk; apply (wf_dom c Hwf); now rewrite El).
  assert (NoDup (x :: l)) as Hnd by (rewrite <- El; apply (wf_nodup c Hwf)).
  destruct (checkAccessTime_loop_spec _ _ _ _ _ _ _ Hnd Hdom (wf_key c Hwf) Hloop)
    as [Hm' _].
  unfold SizeOrder.checkAccessTime.
  change (SizeOrder._listOfElements c1) with (x :: l).
  change (SizeOrder._mapOfPKWithElement c1) with m'.
  change (SizeOrder._mapOfElementsOrderSize c1) with s'.
  change (SizeOrder._nThresholdInSec c1) with (SizeOrder._nThresholdInSec c).
  cbv match.
  rewrite checkAccessTime_loop_fixed; [reflexivity|].
  intros k Hk.
  rewrite (scanned_after_marking now (SizeOrder._nThresholdInSec c)
             (SizeOrder._mapOfPKWithElement c) m' (x :: l) Hdom Hm' Hnd) in Hk.
  destruct (Hdom k) as [e He]; [eapply scanned_subseteq; eassumption|].
  exists (setMarkSizeWiseCleanup true e).
  rewrite Hm', bool_decide_eq_true_2, He by assumption. split; reflexivity.
Qed.
